(** * zmail: mailbox lifecycle, address generation and validation

  A shallow embedding of the worker of the zmail disposable-mailbox
  service:

  - [worker/src/utils.ts]: [generateRandomAddress], [getCurrentTimestamp],
    [validateCustomAddress];
  - [worker/src/name-generator.ts] and [worker/src/data/names.ts]:
    [formatNameAddress], [generateNameAddress], [NAME_POOL];
  - [worker/src/database.ts] and the permanence helpers of [utils.ts], as
    listed in the design document of the permanent-mailbox feature:
    [calculateMailboxExpiry], [createMailbox], [getMailbox],
    [convertMailboxToPermanent], [deleteMailbox],
    [cleanupExpiredMailboxes];
  - [worker/src/routes.ts]: the handlers of [POST /api/mailboxes],
    [PATCH /api/mailboxes/:address/convert-to-permanent] and
    [DELETE /api/mailboxes/:address].

  JavaScript strings are lists of UTF-16 code units, timestamps are
  integers, the D1 table [mailboxes] is a list of rows, and the effects
  of the worker (the table, [Math.random], the clock, [crypto.randomUUID],
  thrown exceptions) are threaded through a state-and-exception monad. *)

From Stdlib Require Import String Ascii.
From Stdlib Require Import List ZArith NArith Bool Lia.
Import ListNotations.

Set Implicit Arguments.

(** ** JavaScript strings *)

Module JS.

(** A string is its sequence of UTF-16 code units; [length] is the
    JavaScript [.length]. *)
Definition CodeUnit := N.
Definition JSString := list CodeUnit.

(** A literal of the source, written as a Rocq string. *)
Definition js (s : string) : JSString :=
  map N_of_ascii (list_ascii_of_string s).

Arguments js s%_string.

Definition is_lower (c : CodeUnit) : bool := ((97 <=? c) && (c <=? 122))%N.
Definition is_upper (c : CodeUnit) : bool := ((65 <=? c) && (c <=? 90))%N.
Definition is_digit (c : CodeUnit) : bool := ((48 <=? c) && (c <=? 57))%N.

Definition DOT : CodeUnit := 46%N.
Definition UNDERSCORE : CodeUnit := 95%N.
Definition HYPHEN : CodeUnit := 45%N.

(** [String.prototype.toLowerCase], on code units.  The worker applies it
    to pool names and to addresses that passed [validateCustomAddress],
    which are ASCII; there it is the map below (A-Z to a-z, the rest
    kept). *)
Definition lower_unit (c : CodeUnit) : CodeUnit :=
  if is_upper c then (c + 32)%N else c.

Definition toLowerCase (s : JSString) : JSString := map lower_unit s.

Definition eqb (s t : JSString) : bool :=
  if list_eq_dec N.eq_dec s t then true else false.

End JS.

Import JS.

(** ** The address validator ([worker/src/utils.ts]) *)

Module Validator.

(** The three error messages of [validateCustomAddress]: "length must not
    be under 3 characters", "length must not exceed 30 characters", "only
    letters, digits, dot, underscore and hyphen". *)
Inductive ValidationError : Type :=
| TooShort
| TooLong
| InvalidCharacters.

Record AddressValidationResult : Type := mkValidation {
  valid : bool;
  error : option ValidationError
}.

(** The character class [[a-zA-Z0-9._-]]. *)
Definition validChar (c : CodeUnit) : bool :=
  is_lower c || is_upper c || is_digit c
  || N.eqb c DOT || N.eqb c UNDERSCORE || N.eqb c HYPHEN.

(** [/^[a-zA-Z0-9._-]+$/.test(address)]: no flags, so the pattern must
    cover the whole string, which has at least one code unit. *)
Definition validCharsRegex_test (address : JSString) : bool :=
  match address with
  | [] => false
  | _ :: _ => forallb validChar address
  end.

Definition validateCustomAddress (address : JSString)
  : AddressValidationResult :=
  if (length address <? 3)%nat then mkValidation false (Some TooShort)
  else if (30 <? length address)%nat then mkValidation false (Some TooLong)
  else if negb (validCharsRegex_test address)
       then mkValidation false (Some InvalidCharacters)
  else mkValidation true None.

(** The class as the specification words it: letters of either case,
    decimal digits, dot, underscore, hyphen. *)
Definition in_address_class (c : CodeUnit) : Prop :=
  (97 <= c <= 122 \/ 65 <= c <= 90 \/ 48 <= c <= 57
   \/ c = 46 \/ c = 95 \/ c = 45)%N.

End Validator.

Import Validator.

(** ** The worker's state and effects *)

Module Runtime.

(** [type AddressType = 'name' | 'random' | 'custom']. *)
Inductive AddressType : Type :=
| Name
| Random
| Custom.

Definition AddressType_eqb (a b : AddressType) : bool :=
  match a, b with
  | Name, Name | Random, Random | Custom, Custom => true
  | _, _ => false
  end.

(** A row of the table
    [mailboxes(id PRIMARY KEY, address UNIQUE, address_type, created_at,
               expires_at, ip_address, last_accessed)]. *)
Record Row : Type := mkRow {
  id : JSString;
  address : JSString;
  address_type : AddressType;
  created_at : Z;
  expires_at : Z;
  ip_address : JSString;
  last_accessed : Z
}.

(** What the worker reads and writes: the table, and the answers the
    platform will give to the successive calls of [Math.random()] (the
    numerator of the double over 2^53), of [Date.now()] (already in
    seconds) and of [crypto.randomUUID()]. *)
Record World : Type := mkWorld {
  mailboxes : list Row;
  random_draws : nat -> N;
  random_pos : nat;
  clock : nat -> Z;
  clock_pos : nat;
  uuids : nat -> JSString;
  uuid_pos : nat
}.

Inductive Exception : Type :=
| ConstraintViolation   (* D1 rejects an INSERT: UNIQUE or PRIMARY KEY *)
| TypeError.            (* a method called on [undefined] *)

Inductive Outcome (A : Type) : Type :=
| Returned (a : A)
| Thrown (e : Exception).

Arguments Thrown {A} e.

Definition M (A : Type) : Type := World -> Outcome A * World.

Definition ret {A : Type} (a : A) : M A := fun w => (Returned a, w).

Definition bind {A B : Type} (c : M A) (k : A -> M B) : M B :=
  fun w =>
    match c w with
    | (Returned a, w') => k a w'
    | (Thrown e, w') => (Thrown e, w')
    end.

Definition throw {A : Type} (e : Exception) : M A := fun w => (Thrown e, w).

(** [try { c } catch (error) { h }]. *)
Definition try_catch {A : Type} (c : M A) (h : Exception -> M A) : M A :=
  fun w =>
    match c w with
    | (Returned a, w') => (Returned a, w')
    | (Thrown e, w') => h e w'
    end.

Definition set_mailboxes (rows : list Row) (w : World) : World :=
  mkWorld rows (random_draws w) (random_pos w) (clock w) (clock_pos w)
          (uuids w) (uuid_pos w).

(** The world once the next draw, clock reading or identifier is
    consumed. *)
Definition advance_random (w : World) : World :=
  mkWorld (mailboxes w) (random_draws w) (S (random_pos w))
          (clock w) (clock_pos w) (uuids w) (uuid_pos w).

Definition advance_clock (w : World) : World :=
  mkWorld (mailboxes w) (random_draws w) (random_pos w)
          (clock w) (S (clock_pos w)) (uuids w) (uuid_pos w).

Definition advance_uuid (w : World) : World :=
  mkWorld (mailboxes w) (random_draws w) (random_pos w)
          (clock w) (clock_pos w) (uuids w) (S (uuid_pos w)).

Definition TWO53 : N := (2 ^ 53)%N.

(** [Math.random()]: a double of [[0,1)], given by its numerator over
    2^53. *)
Definition Math_random : M N :=
  fun w =>
    (Returned (random_draws w (random_pos w) mod TWO53)%N, advance_random w).

(** [Math.floor(r * n)] for a draw [r] of [Math.random()]. *)
Definition floor_times (r : N) (n : nat) : nat :=
  N.to_nat ((r * N.of_nat n) / TWO53).

(** [r < 0.5]. *)
Definition below_half (r : N) : bool := (r <? 2 ^ 52)%N.

(** [getCurrentTimestamp()]: [Math.floor(Date.now() / 1000)]. *)
Definition getCurrentTimestamp : M Z :=
  fun w => (Returned (clock w (clock_pos w)), advance_clock w).

(** [generateId()]: [crypto.randomUUID()]. *)
Definition generateId : M JSString :=
  fun w => (Returned (uuids w (uuid_pos w)), advance_uuid w).

(** *** SQL statements on the table *)

(** [SELECT ... WHERE p ... .first()]. *)
Definition sql_first (p : Row -> bool) : M (option Row) :=
  fun w => (Returned (find p (mailboxes w)), w).

(** [UPDATE mailboxes SET ... WHERE p]; the result is [meta.changes]. *)
Definition sql_update (p : Row -> bool) (f : Row -> Row) : M nat :=
  fun w =>
    (Returned (length (filter p (mailboxes w))),
     set_mailboxes (map (fun r => if p r then f r else r) (mailboxes w)) w).

(** [DELETE FROM mailboxes WHERE p]; the result is [meta.changes]. *)
Definition sql_delete (p : Row -> bool) : M nat :=
  fun w =>
    (Returned (length (filter p (mailboxes w))),
     set_mailboxes (filter (fun r => negb (p r)) (mailboxes w)) w).

(** [INSERT INTO mailboxes ... VALUES ...]: refused when the primary key
    [id] or the unique [address] is already in the table. *)
Definition sql_insert (r : Row) : M unit :=
  fun w =>
    if existsb (fun r' => JS.eqb (id r') (id r)
                          || JS.eqb (address r') (address r)) (mailboxes w)
    then (Thrown ConstraintViolation, w)
    else (Returned tt, set_mailboxes (mailboxes w ++ [r]) w).

End Runtime.

Import Runtime.

Notation "x <- c ;; k" := (bind c (fun x => k))
  (at level 61, c at next level, right associativity).
Notation "c ;;; k" := (bind c (fun _ => k))
  (at level 61, right associativity).

(** ** Address generators *)

Module Generators.

(** [s.charAt(i)]: the one-unit string at [i], or the empty string. *)
Definition charAt (s : JSString) (i : nat) : JSString :=
  match nth_error s i with
  | Some c => [c]
  | None => []
  end.

(** *** [generateRandomAddress] ([worker/src/utils.ts]) *)

Definition letters : JSString := js "abcdefghijklmnopqrstuvwxyz".
Definition alphanumeric : JSString :=
  js "abcdefghijklmnopqrstuvwxyz0123456789".

(** [for (let i = 1; i < length; i++) result += alphanumeric.charAt(...)],
    with [remaining] iterations still to run. *)
Fixpoint randomAddress_loop (remaining : nat) (result : JSString)
  : M JSString :=
  match remaining with
  | O => ret result
  | S remaining' =>
      r <- Math_random ;;
      randomAddress_loop remaining'
        (result ++ charAt alphanumeric (floor_times r (length alphanumeric)))
  end.

Definition generateRandomAddress : M JSString :=
  r0 <- Math_random ;;
  let len := (floor_times r0 5 + 8)%nat in
  r1 <- Math_random ;;
  let result := charAt letters (floor_times r1 (length letters)) in
  randomAddress_loop (len - 1) result.

(** *** [NAME_POOL] ([worker/src/data/names.ts]) *)

Definition firstNames : list JSString := map js [
  "james"; "john"; "robert"; "michael"; "william"; "david"; "richard";
  "joseph"; "thomas"; "charles"; "christopher"; "daniel"; "matthew";
  "anthony"; "mark"; "donald"; "steven"; "paul"; "andrew"; "joshua";
  "kenneth"; "kevin"; "brian"; "george"; "timothy"; "ronald"; "edward";
  "jason"; "jeffrey"; "ryan"; "jacob"; "gary"; "nicholas"; "eric";
  "jonathan"; "stephen"; "larry"; "justin"; "scott"; "brandon"; "benjamin";
  "samuel"; "raymond"; "gregory"; "frank"; "alexander"; "patrick"; "jack";
  "dennis"; "jerry";
  "mary"; "patricia"; "jennifer"; "linda"; "elizabeth"; "barbara"; "susan";
  "jessica"; "sarah"; "karen"; "lisa"; "nancy"; "betty"; "margaret";
  "sandra"; "ashley"; "kimberly"; "emily"; "donna"; "michelle"; "dorothy";
  "carol"; "amanda"; "melissa"; "deborah"; "stephanie"; "rebecca"; "sharon";
  "laura"; "cynthia"; "kathleen"; "amy"; "angela"; "shirley"; "anna";
  "brenda"; "pamela"; "emma"; "nicole"; "helen"; "samantha"; "katherine";
  "christine"; "debra"; "rachel"; "carolyn"; "janet"; "catherine"; "maria";
  "heather";
  "alex"; "taylor"; "jordan"; "morgan"; "casey"; "riley"; "jamie"; "avery";
  "quinn"; "parker"; "blake"; "drew"; "cameron"; "logan"; "dylan"; "hayden";
  "peyton"; "reese"; "sage"; "skyler"; "charlie"; "finley"; "harper";
  "kendall"; "madison"; "mason"; "noah"; "oliver"; "sophia"; "liam";
  "ethan"; "lucas"; "mia"; "ella"; "grace"; "chloe"; "lily"; "zoe";
  "hannah"; "natalie"; "victoria"; "claire"; "audrey"; "leah"; "savannah";
  "brooklyn"; "violet"
]%string.

Definition lastNames : list JSString := map js [
  "smith"; "johnson"; "williams"; "brown"; "jones"; "garcia"; "miller";
  "davis"; "rodriguez"; "martinez"; "hernandez"; "lopez"; "gonzalez";
  "wilson"; "anderson"; "thomas"; "taylor"; "moore"; "jackson"; "martin";
  "lee"; "perez"; "thompson"; "white"; "harris"; "sanchez"; "clark";
  "ramirez"; "lewis"; "robinson"; "walker"; "young"; "allen"; "king";
  "wright"; "scott"; "torres"; "nguyen"; "hill"; "flores"; "green";
  "adams"; "nelson"; "baker"; "hall"; "rivera"; "campbell"; "mitchell";
  "carter"; "roberts"; "turner"; "phillips"; "evans"; "parker"; "edwards";
  "collins"; "stewart"; "morris"; "murphy"; "cook"; "rogers"; "morgan";
  "peterson"; "cooper"; "reed"; "bailey"; "bell"; "gomez"; "kelly"
]%string.

(** *** [worker/src/name-generator.ts] *)

Inductive AddressFormat : Type :=
| dot
| underscore
| plain
| withDigits.

Definition MIN_ADDRESS_LENGTH : nat := 6.
Definition MAX_ADDRESS_LENGTH : nat := 20.

(** [pool[Math.floor(Math.random() * pool.length)]]; [None] is
    [undefined]. *)
Definition pick {A : Type} (pool : list A) : M (option A) :=
  r <- Math_random ;;
  ret (nth_error pool (floor_times r (length pool))).

Definition getRandomFirstName : M (option JSString) := pick firstNames.
Definition getRandomLastName : M (option JSString) := pick lastNames.

(** [Math.floor(Math.random() * 10).toString()]: one decimal digit. *)
Definition digit_toString (d : nat) : JSString := [(48 + N.of_nat d)%N].

Fixpoint randomDigits_loop (remaining : nat) (digits : JSString)
  : M JSString :=
  match remaining with
  | O => ret digits
  | S remaining' =>
      r <- Math_random ;;
      randomDigits_loop remaining' (digits ++ digit_toString (floor_times r 10))
  end.

Definition generateRandomDigits : M JSString :=
  r <- Math_random ;;
  let numDigits := if below_half r then 2%nat else 3%nat in
  randomDigits_loop numDigits [].

Definition formats : list AddressFormat :=
  [dot; underscore; plain; withDigits].

Definition getRandomFormat : M (option AddressFormat) := pick formats.

(** [name.toLowerCase()], a [TypeError] on [undefined]. *)
Definition lowered (name : option JSString) : M JSString :=
  match name with
  | Some n => ret (toLowerCase n)
  | None => throw TypeError
  end.

(** The [switch] falls to [default] for a format that is none of the four
    ([None]: [undefined]). *)
Definition formatNameAddress (firstName lastName : option JSString)
    (format : option AddressFormat) : M JSString :=
  first <- lowered firstName ;;
  last <- lowered lastName ;;
  match format with
  | Some dot => ret (first ++ [DOT] ++ last)
  | Some underscore => ret (first ++ [UNDERSCORE] ++ last)
  | Some plain => ret (first ++ last)
  | Some withDigits =>
      digits <- generateRandomDigits ;;
      ret (first ++ last ++ digits)
  | None => ret (first ++ last)
  end.

Definition isValidLength (address : JSString) : bool :=
  (MIN_ADDRESS_LENGTH <=? length address)%nat
  && (length address <=? MAX_ADDRESS_LENGTH)%nat.

(** One turn of the [for] loop of [generateNameAddress]: [Some] address
    when the turn returns, [None] when it falls through to the next. *)
Definition nameAddress_attempt : M (option JSString) :=
  firstName <- getRandomFirstName ;;
  lastName <- getRandomLastName ;;
  format <- getRandomFormat ;;
  address <- formatNameAddress firstName lastName format ;;
  if isValidLength address then ret (Some address)
  else
    retried <-
      (if (length address <? MIN_ADDRESS_LENGTH)%nat then
         addressWithDigits <-
           formatNameAddress firstName lastName (Some withDigits) ;;
         if isValidLength addressWithDigits
         then ret (Some addressWithDigits) else ret None
       else ret None) ;;
    match retried with
    | Some a => ret (Some a)
    | None =>
        if (MAX_ADDRESS_LENGTH <? length address)%nat then
          plainAddress <- formatNameAddress firstName lastName (Some plain) ;;
          if isValidLength plainAddress
          then ret (Some plainAddress) else ret None
        else ret None
    end.

(** [for (let attempt = 0; attempt < maxAttempts; attempt++)], with
    [remaining] turns still to run. *)
Fixpoint nameAddress_loop (remaining : nat) : M (option JSString) :=
  match remaining with
  | O => ret None
  | S remaining' =>
      found <- nameAddress_attempt ;;
      match found with
      | Some a => ret (Some a)
      | None => nameAddress_loop remaining'
      end
  end.

(** [short[Math.floor(Math.random() * short.length)] || dflt]: [undefined]
    and the empty string are falsy. *)
Definition pick_or (short : list JSString) (dflt : JSString) : M JSString :=
  picked <- pick short ;;
  match picked with
  | Some (c :: n) => ret (c :: n)
  | _ => ret dflt
  end.

(** The statements after the loop: the fallback on short names. *)
Definition nameAddress_fallback : M JSString :=
  let shortFirstNames := filter (fun n => (length n <=? 6)%nat) firstNames in
  let shortLastNames := filter (fun n => (length n <=? 6)%nat) lastNames in
  firstName <- pick_or shortFirstNames (js "john") ;;
  lastName <- pick_or shortLastNames (js "doe") ;;
  formatNameAddress (Some firstName) (Some lastName) (Some plain).

Definition maxAttempts : nat := 50.

Definition generateNameAddress : M JSString :=
  found <- nameAddress_loop maxAttempts ;;
  match found with
  | Some a => ret a
  | None => nameAddress_fallback
  end.

(** The alphabet [[a-z0-9._]] of a name address, and that of a pool
    name. *)
Definition name_char (c : CodeUnit) : bool :=
  is_lower c || is_digit c || N.eqb c DOT || N.eqb c UNDERSCORE.

(** The alphabet [[a-z0-9]] of a random address. *)
Definition random_char (c : CodeUnit) : bool := is_lower c || is_digit c.

(** The same alphabet as the specification words it: lower-case
    letters, decimal digits, dot, underscore. *)
Definition in_name_class (c : CodeUnit) : Prop :=
  (97 <= c <= 122 \/ 48 <= c <= 57 \/ c = 46 \/ c = 95)%N.

End Generators.

Import Generators.

(** ** The message strings of the worker *)

Module Messages.

(** The [error] and [message] strings of [database.ts] and [routes.ts],
    one constructor per literal; the Chinese literals are given in
    translation. *)
Inductive Text : Type :=
| Invalid_address_type               (* "invalid address type" *)
| Random_mailboxes_cannot_be_permanent
| Custom_address_required            (* "the custom type needs an address" *)
| Invalid_address_format (detail : option ValidationError)
                                     (* "invalid address format: " + error *)
| Address_already_exists             (* "the mailbox address already exists" *)
| Create_mailbox_failed              (* "creating the mailbox failed" *)
| Mailbox_not_found                  (* 'Mailbox not found' *)
| Random_mailboxes_cannot_be_converted_to_permanent
| Mailbox_is_already_permanent
| Failed_to_convert_mailbox
| Mailbox_converted_to_permanent
| Cannot_delete_permanent_mailbox
| Delete_mailbox_failed.             (* "deleting the mailbox failed" *)

End Messages.

Import Messages.

(** ** Permanence helpers and the mailbox store

    [worker/src/database.ts] and the permanence helpers of
    [worker/src/utils.ts], after their listing in the design document of
    the permanent-mailbox feature. *)

Module Database.

Definition PERMANENT_MAILBOX_SENTINEL : Z := 9999999999%Z.

Definition isPermanentMailbox (expiresAt : Z) : bool :=
  (expiresAt =? PERMANENT_MAILBOX_SENTINEL)%Z.

Definition isPermanentAllowedForAddressType (addressType : AddressType)
  : bool :=
  AddressType_eqb addressType Name || AddressType_eqb addressType Custom.

Definition calculateMailboxExpiry (hours : Z) (isPermanent : bool) : M Z :=
  if isPermanent then ret PERMANENT_MAILBOX_SENTINEL
  else
    now <- getCurrentTimestamp ;;
    ret (now + hours * 60 * 60)%Z.

(** [interface CreateMailboxParams]; [isPermanent?] is [None] when the
    field is left out. *)
Record CreateMailboxParams : Type := mkParams {
  param_address : JSString;
  param_addressType : AddressType;
  param_expiresInHours : Z;
  param_ipAddress : JSString;
  param_isPermanent : option bool
}.

(** [interface Mailbox], with [isPermanent] as the store functions always
    fill it. *)
Record Mailbox : Type := mkMailbox {
  mailbox_id : JSString;
  mailbox_address : JSString;
  addressType : AddressType;
  createdAt : Z;
  expiresAt : Z;
  ipAddress : JSString;
  lastAccessed : Z;
  isPermanent : bool
}.

(** [!!flag] for an optional boolean. *)
Definition truthy_flag (flag : option bool) : bool :=
  match flag with
  | Some b => b
  | None => false
  end.

Definition createMailbox (params : CreateMailboxParams) : M Mailbox :=
  now <- getCurrentTimestamp ;;
  let wantsPermanent :=
    truthy_flag (param_isPermanent params)
    && isPermanentAllowedForAddressType (param_addressType params) in
  expiry <- calculateMailboxExpiry (param_expiresInHours params)
                                   wantsPermanent ;;
  newId <- generateId ;;
  let mailbox :=
    mkMailbox newId (param_address params) (param_addressType params)
              now expiry (param_ipAddress params) now
              (isPermanentMailbox expiry) in
  sql_insert (mkRow (mailbox_id mailbox) (mailbox_address mailbox)
                    (addressType mailbox) (createdAt mailbox)
                    (expiresAt mailbox) (ipAddress mailbox)
                    (lastAccessed mailbox)) ;;;
  ret mailbox.

(** [WHERE address = ? AND (expires_at > ? OR expires_at = ?)], bound to
    the address, the current time and the sentinel. *)
Definition live_row (addr : JSString) (now : Z) (r : Row) : bool :=
  JS.eqb (address r) addr
  && ((now <? expires_at r)%Z
      || (expires_at r =? PERMANENT_MAILBOX_SENTINEL)%Z).

Definition set_last_accessed (now : Z) (r : Row) : Row :=
  mkRow (id r) (address r) (address_type r) (created_at r) (expires_at r)
        (ip_address r) now.

Definition set_expires_at (e : Z) (r : Row) : Row :=
  mkRow (id r) (address r) (address_type r) (created_at r) e
        (ip_address r) (last_accessed r).

Definition getMailbox (addr : JSString) : M (option Mailbox) :=
  now <- getCurrentTimestamp ;;
  result <- sql_first (live_row addr now) ;;
  match result with
  | None => ret None
  | Some row =>
      sql_update (fun r => JS.eqb (id r) (id row)) (set_last_accessed now) ;;;
      let expiry := expires_at row in
      ret (Some (mkMailbox (id row) (address row) (address_type row)
                           (created_at row) expiry (ip_address row) now
                           (isPermanentMailbox expiry)))
  end.

(** [WHERE address = ? AND address_type IN ('name', 'custom')
     AND expires_at != ?]. *)
Definition convertible_row (addr : JSString) (r : Row) : bool :=
  JS.eqb (address r) addr
  && (AddressType_eqb (address_type r) Name
      || AddressType_eqb (address_type r) Custom)
  && negb (expires_at r =? PERMANENT_MAILBOX_SENTINEL)%Z.

Definition convertMailboxToPermanent (addr : JSString) : M bool :=
  changes <- sql_update (convertible_row addr)
                        (set_expires_at PERMANENT_MAILBOX_SENTINEL) ;;
  ret (0 <? changes)%nat.

Record DeleteResult : Type := mkDeleteResult {
  delete_success : bool;
  delete_error : option Text
}.

Definition deleteMailbox (addr : JSString) : M DeleteResult :=
  mailbox <- getMailbox addr ;;
  match mailbox with
  | None => ret (mkDeleteResult false (Some Mailbox_not_found))
  | Some mailbox =>
      if isPermanent mailbox
      then ret (mkDeleteResult false (Some Cannot_delete_permanent_mailbox))
      else
        sql_delete (fun r => JS.eqb (address r) addr) ;;;
        ret (mkDeleteResult true None)
  end.

(** [WHERE expires_at <= ? AND expires_at != ?], bound to the current time
    and the sentinel. *)
Definition reclaimable_row (now : Z) (r : Row) : bool :=
  (expires_at r <=? now)%Z
  && negb (expires_at r =? PERMANENT_MAILBOX_SENTINEL)%Z.

(** The sweep.  [cleanupOrphanedAttachments], which the source awaits
    before returning, works on the attachments table only and leaves
    [mailboxes] as it is. *)
Definition cleanupExpiredMailboxes : M nat :=
  now <- getCurrentTimestamp ;;
  changes <- sql_delete (reclaimable_row now) ;;
  ret changes.

(** The sweep run once per scheduled invocation, [times] times. *)
Fixpoint sweeps (times : nat) : M unit :=
  match times with
  | O => ret tt
  | S times' => cleanupExpiredMailboxes ;;; sweeps times'
  end.

(** The address and the identifier of a new row are not in the table. *)
Definition fresh (addr newId : JSString) (rows : list Row) : Prop :=
  forall r, In r rows -> id r <> newId /\ address r <> addr.

(** The object [getMailbox] builds from the selected [row] at time
    [now], and the table after its [UPDATE] of [last_accessed]. *)
Definition mailbox_of_row (row : Row) (now : Z) : Mailbox :=
  mkMailbox (id row) (address row) (address_type row) (created_at row)
            (expires_at row) (ip_address row) now
            (isPermanentMailbox (expires_at row)).

Definition touched (row : Row) (now : Z) (rows : list Row) : list Row :=
  map (fun r => if JS.eqb (id r) (id row) then set_last_accessed now r
                else r) rows.

(** The table after the [UPDATE] of [convertMailboxToPermanent] and after
    the [DELETE] of [deleteMailbox]. *)
Definition converted (addr : JSString) (rows : list Row) : list Row :=
  map (fun r => if convertible_row addr r
                then set_expires_at PERMANENT_MAILBOX_SENTINEL r else r) rows.

Definition without (addr : JSString) (rows : list Row) : list Row :=
  filter (fun r => negb (JS.eqb (address r) addr)) rows.

(** The schema's constraint [address UNIQUE]. *)
Definition unique_addresses (rows : list Row) : Prop :=
  NoDup (map address rows).

(** Two tables that differ at most in the column [last_accessed]. *)
Definition same_but_last_accessed (rows rows' : list Row) : Prop :=
  map (set_last_accessed 0) rows = map (set_last_accessed 0) rows'.

End Database.

Import Database.

(** ** The HTTP handlers ([worker/src/routes.ts]) *)

Module Routes.

(** The JSON body of [POST /api/mailboxes], at the types of the request
    interface: a field that is absent is [None]; [body_isPermanent] is
    [Some b] exactly when [typeof body.isPermanent === 'boolean']. *)
Record CreateRequest : Type := mkRequest {
  body_addressType : option JSString;
  body_isPermanent : option bool;
  body_address : option JSString
}.

(** The JSON of a response; the [message] text that a [catch] copies from
    the exception is left out. *)
Inductive ResponseBody : Type :=
| Failure (error : option Text)          (* { success: false, error } *)
| Success                                (* { success: true } *)
| SuccessMailbox (message : option Text) (mailbox : option Mailbox).
                                  (* { success: true, message?, mailbox } *)

Record Response : Type := mkResponse {
  status : nat;
  body : ResponseBody
}.

(** [c.json(data)] and [c.json(data, status)]. *)
Definition json (data : ResponseBody) : Response := mkResponse 200 data.
Definition json_status (data : ResponseBody) (code : nat) : Response :=
  mkResponse code data.

(** [value || dflt] on an optional string: [undefined] and [''] are
    falsy. *)
Definition or_else (value : option JSString) (dflt : JSString) : JSString :=
  match value with
  | Some (c :: s) => c :: s
  | _ => dflt
  end.

(** [['name', 'random', 'custom'].includes(addressType)], with the class
    it names. *)
Definition parseAddressType (s : JSString) : option AddressType :=
  if JS.eqb s (js "name") then Some Name
  else if JS.eqb s (js "random") then Some Random
  else if JS.eqb s (js "custom") then Some Custom
  else None.

(** The [switch (addressType)] of the creation handler: either the
    response of an early [return], or the address to create. *)
Definition chooseAddress (addressType : AddressType) (request : CreateRequest)
  : M (Response + JSString) :=
  match addressType with
  | Name =>
      address <- generateNameAddress ;;
      ret (inr address)
  | Custom =>
      match body_address request with
      | Some (c :: s) =>
          let validation := validateCustomAddress (c :: s) in
          if negb (valid validation)
          then ret (inl (json_status
                           (Failure
                              (Some (Invalid_address_format
                                       (error validation))))
                           400))
          else ret (inr (toLowerCase (c :: s)))
      | _ =>
          ret (inl (json_status (Failure (Some Custom_address_required))
                                400))
      end
  | Random =>
      match body_address request with
      | Some (c :: s) =>
          (* [body.address || generateRandomAddress()] stops at the left
             operand *)
          let validation := validateCustomAddress (c :: s) in
          if negb (valid validation)
          then ret (inl (json_status
                           (Failure
                              (Some (Invalid_address_format
                                       (error validation))))
                           400))
          else ret (inr (toLowerCase (c :: s)))
      | _ =>
          address <- generateRandomAddress ;;
          ret (inr address)
      end
  end.

(** [app.post('/api/mailboxes', ...)]; [cfConnectingIp] is the request
    header [CF-Connecting-IP]. *)
Definition post_mailboxes (request : CreateRequest)
    (cfConnectingIp : option JSString) : M Response :=
  try_catch
    (let addressTypeName := or_else (body_addressType request) (js "random") in
     match parseAddressType addressTypeName with
     | None => ret (json_status (Failure (Some Invalid_address_type)) 400)
     | Some addressType =>
         let wantsPermanent := truthy_flag (body_isPermanent request) in
         if wantsPermanent && AddressType_eqb addressType Random
         then ret (json_status
                     (Failure (Some Random_mailboxes_cannot_be_permanent))
                     400)
         else
           let expiresInHours := 24%Z in
           let ip := or_else cfConnectingIp (js "unknown") in
           chosen <- chooseAddress addressType request ;;
           match chosen with
           | inl response => ret response
           | inr address =>
               existingMailbox <- getMailbox address ;;
               match existingMailbox with
               | Some _ =>
                   ret (json_status (Failure (Some Address_already_exists)) 400)
               | None =>
                   mailbox <- createMailbox
                                (mkParams address addressType expiresInHours
                                          ip (Some wantsPermanent)) ;;
                   ret (json (SuccessMailbox None (Some mailbox)))
               end
           end
     end)
    (fun _ => ret (json_status (Failure (Some Create_mailbox_failed)) 400)).

(** [app.patch('/api/mailboxes/:address/convert-to-permanent', ...)]. *)
Definition patch_convert_to_permanent (addr : JSString) : M Response :=
  try_catch
    (mailbox <- getMailbox addr ;;
     match mailbox with
     | None => ret (json_status (Failure (Some Mailbox_not_found)) 404)
     | Some mailbox =>
         if AddressType_eqb (addressType mailbox) Random
         then ret (json_status
                     (Failure
                        (Some
                           Random_mailboxes_cannot_be_converted_to_permanent))
                     403)
         else if isPermanent mailbox
         then ret (json (SuccessMailbox (Some Mailbox_is_already_permanent)
                                        (Some mailbox)))
         else
           converted <- convertMailboxToPermanent addr ;;
           if negb converted
           then ret (json_status (Failure (Some Failed_to_convert_mailbox)) 500)
           else
             updatedMailbox <- getMailbox addr ;;
             ret (json (SuccessMailbox (Some Mailbox_converted_to_permanent)
                                       updatedMailbox))
     end)
    (fun _ => ret (json_status (Failure (Some Failed_to_convert_mailbox)) 500)).

(** [app.delete('/api/mailboxes/:address', ...)]. *)
Definition delete_mailbox (addr : JSString) : M Response :=
  try_catch
    (result <- deleteMailbox addr ;;
     if negb (delete_success result) then
       match delete_error result with
       | Some Cannot_delete_permanent_mailbox =>
           ret (json_status (Failure (delete_error result)) 403)
       | _ => ret (json_status (Failure (delete_error result)) 404)
       end
     else ret (json Success))
    (fun _ => ret (json_status (Failure (Some Delete_mailbox_failed)) 500)).

End Routes.

Import Routes.

(** ** Sample states *)

Module Samples.

(** A world on the table [rows]: every draw of [Math.random()] is 0, the
    clock reads [start], [start + 1], ..., and the identifiers are
    "uuid-0", "uuid-1", ... *)
Definition sample_uuid (k : nat) : JSString :=
  js "uuid-" ++ [(48 + N.of_nat k)%N].

Definition sample_world (rows : list Row) (start : Z) : World :=
  mkWorld rows (fun _ => 0%N) 0 (fun k => (start + Z.of_nat k)%Z) 0
          sample_uuid 0.

(** A temporary name mailbox expiring at 5000, a permanent custom mailbox,
    a temporary random mailbox expiring at 5000. *)
Definition row_temporary : Row :=
  mkRow (js "id-a") (js "amy.lee") Name 1400 5000 (js "unknown") 1400.

Definition row_permanent : Row :=
  mkRow (js "id-b") (js "archive") Custom 1500 PERMANENT_MAILBOX_SENTINEL
        (js "unknown") 1500.

Definition row_random : Row :=
  mkRow (js "id-c") (js "k3x9qa7bb") Random 1600 5000 (js "unknown") 1600.

Definition sample_rows : list Row :=
  [row_temporary; row_permanent; row_random].

(** A table holding, live at time 2000, the two addresses the generators
    produce when every draw of [Math.random()] is 0, and a custom one. *)
Definition row_james : Row :=
  mkRow (js "id-j") (js "james.smith") Name 1400 5000 (js "unknown") 1400.

Definition row_aaaaaaaa : Row :=
  mkRow (js "id-r") (js "aaaaaaaa") Random 1400 5000 (js "unknown") 1400.

Definition row_taken : Row :=
  mkRow (js "id-t") (js "taken") Custom 1400 5000 (js "unknown") 1400.

Definition sample_collision : World :=
  sample_world [row_james; row_aaaaaaaa; row_taken] 2000.

(** The sample table before (time 2000) and after (time 6000) the
    temporary rows expire. *)
Definition sample_early : World := sample_world sample_rows 2000.
Definition sample_late : World := sample_world sample_rows 6000.

End Samples.

Import Samples.

(** ** The other helpers of [worker/src/utils.ts] *)

Module Utils.

(** [generateRandomString(length)]: the [for] loop runs [length] times for
    a positive integer, and not at all otherwise. *)
Fixpoint randomString_loop (remaining : nat) (result : JSString)
  : M JSString :=
  match remaining with
  | O => ret result
  | S remaining' =>
      r <- Math_random ;;
      randomString_loop remaining'
        (result ++ charAt alphanumeric (floor_times r (length alphanumeric)))
  end.

Definition generateRandomString (len : Z) : M JSString :=
  randomString_loop (Z.to_nat len) [].

(** [calculateExpiryTimestamp(hours)]. *)
Definition calculateExpiryTimestamp (hours : Z) : M Z :=
  now <- getCurrentTimestamp ;;
  ret (now + hours * 60 * 60)%Z.

Definition AT : CodeUnit := 64%N.
Definition COMMA : CodeUnit := 44%N.

(** [s.split(sep)] for a separator of one code unit: the pieces between
    the separators, in order; never an empty array. *)
Fixpoint split (sep : CodeUnit) (s : JSString) : list JSString :=
  match s with
  | [] => [[]]
  | c :: s' =>
      if N.eqb c sep then [] :: split sep s'
      else match split sep s' with
           | piece :: pieces => (c :: piece) :: pieces
           | [] => [[c]]
           end
  end.

(** [address.split('@')[0]]; the array always has an element 0. *)
Definition extractMailboxName (address : JSString) : JSString :=
  match split AT address with
  | first :: _ => first
  | [] => []
  end.

(** Regular expressions over code units, as far as the literals of the
    worker need them, matched by derivatives: [test] on a pattern
    anchored by [^] and [$], without flags, is a match of the whole
    string. *)
Inductive Regex : Type :=
| Never
| Empty
| Class (p : CodeUnit -> bool)
| Seq (r s : Regex)
| Alt (r s : Regex)
| Star (r : Regex).

(** [r+] and [r{2,}]. *)
Definition Plus (r : Regex) : Regex := Seq r (Star r).
Definition AtLeast2 (r : Regex) : Regex := Seq r (Seq r (Star r)).

Fixpoint nullable (r : Regex) : bool :=
  match r with
  | Never => false
  | Empty => true
  | Class _ => false
  | Seq r1 r2 => nullable r1 && nullable r2
  | Alt r1 r2 => nullable r1 || nullable r2
  | Star _ => true
  end.

Fixpoint deriv (c : CodeUnit) (r : Regex) : Regex :=
  match r with
  | Never => Never
  | Empty => Never
  | Class p => if p c then Empty else Never
  | Seq r1 r2 =>
      if nullable r1 then Alt (Seq (deriv c r1) r2) (deriv c r2)
      else Seq (deriv c r1) r2
  | Alt r1 r2 => Alt (deriv c r1) (deriv c r2)
  | Star r1 => Seq (deriv c r1) (Star r1)
  end.

Fixpoint test (r : Regex) (s : JSString) : bool :=
  match s with
  | [] => nullable r
  | c :: s' => test (deriv c r) s'
  end.

(** The classes [[a-zA-Z0-9.-]] and [[a-zA-Z]]; [[a-zA-Z0-9._-]] is
    [validChar]. *)
Definition domainChar (c : CodeUnit) : bool :=
  is_lower c || is_upper c || is_digit c || N.eqb c DOT || N.eqb c HYPHEN.

Definition letterChar (c : CodeUnit) : bool := is_lower c || is_upper c.

(** [/^[a-zA-Z0-9._-]+@[a-zA-Z0-9.-]+\.[a-zA-Z]{2,}$/]. *)
Definition emailRegex : Regex :=
  Seq (Plus (Class validChar))
      (Seq (Class (N.eqb AT))
           (Seq (Plus (Class domainChar))
                (Seq (Class (N.eqb DOT))
                     (AtLeast2 (Class letterChar))))).

Definition isValidEmailAddress (address : JSString) : bool :=
  test emailRegex address.

(** What the language of a pattern is. *)
Inductive Matches : Regex -> JSString -> Prop :=
| M_Empty : Matches Empty []
| M_Class (p : CodeUnit -> bool) (c : CodeUnit) :
    p c = true -> Matches (Class p) [c]
| M_Seq (r1 r2 : Regex) (s1 s2 : JSString) :
    Matches r1 s1 -> Matches r2 s2 -> Matches (Seq r1 r2) (s1 ++ s2)
| M_AltL (r1 r2 : Regex) (s : JSString) :
    Matches r1 s -> Matches (Alt r1 r2) s
| M_AltR (r1 r2 : Regex) (s : JSString) :
    Matches r2 s -> Matches (Alt r1 r2) s
| M_StarNil (r : Regex) : Matches (Star r) []
| M_StarCons (r : Regex) (s1 s2 : JSString) :
    Matches r s1 -> Matches (Star r) s2 -> Matches (Star r) (s1 ++ s2).

End Utils.

Import Utils.

(** ** The purge of emails

    [cleanupExpiredMails] and [cleanupReadMails] of
    [worker/src/database.ts], after their listing in the design document.
    The table [emails] is passed along explicitly; its rows are given by
    the columns the two statements name. *)

Module Mail.

(** The columns [mailbox_id], [received_at] and [is_read]. *)
Record Email : Type := mkEmail {
  email_mailbox_id : JSString;
  received_at : Z;
  is_read : Z
}.

(** [SELECT id FROM mailboxes WHERE expires_at != ?], bound to the
    sentinel. *)
Definition temporary_email_mailbox_ids : M (list JSString) :=
  fun w =>
    (Returned
       (map id (filter (fun r =>
                          negb (expires_at r =? PERMANENT_MAILBOX_SENTINEL)%Z)
                       (mailboxes w))), w).

(** [mailbox_id IN (...)]. *)
Definition id_in (i : JSString) (ids : list JSString) : bool :=
  existsb (JS.eqb i) ids.

(** [DELETE FROM emails WHERE p] on the table passed along: the number of
    rows deleted and the rows that stay.  [cleanupOrphanedAttachments],
    awaited next by both functions, works on the attachments only. *)
Definition delete_emails (p : Email -> bool) (emails : list Email)
  : nat * list Email :=
  (length (filter p emails), filter (fun e => negb (p e)) emails).

Definition cleanupExpiredMails (emails : list Email)
  : M (nat * list Email) :=
  now <- getCurrentTimestamp ;;
  let oneDayAgo := (now - 24 * 60 * 60)%Z in
  ids <- temporary_email_mailbox_ids ;;
  ret (delete_emails
         (fun e => (received_at e <=? oneDayAgo)%Z
                   && id_in (email_mailbox_id e) ids)
         emails).

Definition cleanupReadMails (emails : list Email) : M (nat * list Email) :=
  ids <- temporary_email_mailbox_ids ;;
  ret (delete_emails
         (fun e => (is_read e =? 1)%Z && id_in (email_mailbox_id e) ids)
         emails).

(** The schema's constraint [id PRIMARY KEY]. *)
Definition unique_ids (rows : list Row) : Prop := NoDup (map id rows).

End Mail.

Import Mail.

(** ** The other handlers of [worker/src/routes.ts] *)

Module MoreRoutes.

(** The responses of [GET /api/mailboxes/:address]: 404 "the mailbox does
    not exist", 200 with the mailbox, 500 "fetching the mailbox failed". *)
Inductive LookupResponse : Type :=
| Lookup_404
| Lookup_200 (mailbox : Mailbox)
| Lookup_500.

(** [app.get('/api/mailboxes/:address', ...)]. *)
Definition get_mailbox (addr : JSString) : M LookupResponse :=
  try_catch
    (mailbox <- getMailbox addr ;;
     match mailbox with
     | None => ret Lookup_404
     | Some mailbox => ret (Lookup_200 mailbox)
     end)
    (fun _ => ret Lookup_500).

(** The code units [String.prototype.trim] strips: white space and line
    terminators. *)
Definition isWhiteSpace (c : CodeUnit) : bool :=
  ((9 <=? c) && (c <=? 13) || (c =? 32) || (c =? 160) || (c =? 5760)
   || (8192 <=? c) && (c <=? 8202) || (c =? 8232) || (c =? 8233)
   || (c =? 8239) || (c =? 8287) || (c =? 12288) || (c =? 65279))%N.

Fixpoint trimStart (s : JSString) : JSString :=
  match s with
  | [] => []
  | c :: s' => if isWhiteSpace c then trimStart s' else c :: s'
  end.

Definition trimEnd (s : JSString) : JSString := rev (trimStart (rev s)).

Definition trim (s : JSString) : JSString := trimEnd (trimStart s).

(** The [emailDomains] that [app.get('/api/config', ...)] answers:
    [(c.env.VITE_EMAIL_DOMAIN || '').split(',').map(trim).filter(d => d)]. *)
Definition config_emailDomains (VITE_EMAIL_DOMAIN : option JSString)
  : list JSString :=
  let emailDomains := or_else VITE_EMAIL_DOMAIN [] in
  filter (fun domain => match domain with [] => false | _ :: _ => true end)
         (map trim (split COMMA emailDomains)).

End MoreRoutes.

Import MoreRoutes.

(** ** The preview generators of the frontend ([frontend/src/utils/api.ts]) *)

Module Preview.

(** [`${x}`] and [s += x] for an array element: [undefined] prints as
    "undefined". *)
Definition printed (x : option JSString) : JSString :=
  match x with
  | Some s => s
  | None => js "undefined"
  end.

(** [s[i]] for a string: the one-unit string at [i], or [undefined]. *)
Definition unitAt (s : JSString) (i : nat) : option JSString :=
  match nth_error s i with
  | Some c => Some [c]
  | None => None
  end.

Fixpoint localRandomAddress_loop (remaining : nat) (address : JSString)
  : M JSString :=
  match remaining with
  | O => ret address
  | S remaining' =>
      r <- Math_random ;;
      localRandomAddress_loop remaining'
        (address
         ++ printed (unitAt alphanumeric
                            (floor_times r (length alphanumeric))))
  end.

(** [generateLocalRandomAddress]; the loop runs at least 7 times, so the
    first unit is always followed by a concatenation. *)
Definition generateLocalRandomAddress : M JSString :=
  r0 <- Math_random ;;
  let len := (floor_times r0 5 + 8)%nat in
  r1 <- Math_random ;;
  let address := printed (unitAt letters (floor_times r1 (length letters))) in
  localRandomAddress_loop (len - 1) address.

Definition localFirstNames : list JSString := map js [
  "james"; "john"; "robert"; "michael"; "william"; "david"; "richard";
  "joseph"; "thomas"; "charles"; "mary"; "patricia"; "jennifer"; "linda";
  "elizabeth"; "emma"; "olivia"; "ava"; "sophia"; "isabella"; "mia";
  "charlotte"; "amelia"
]%string.

Definition localLastNames : list JSString := map js [
  "smith"; "johnson"; "williams"; "brown"; "jones"; "garcia"; "miller";
  "davis"; "rodriguez"; "martinez"; "wilson"; "anderson"; "thomas"; "taylor"
]%string.

(** [n.toString()] for a natural number: its decimal digits. *)
Fixpoint decimal_loop (fuel n : nat) (acc : JSString) : JSString :=
  match fuel with
  | O => acc
  | S fuel' =>
      let acc' := digit_toString (n mod 10) ++ acc in
      if (n / 10 =? 0)%nat then acc' else decimal_loop fuel' (n / 10) acc'
  end.

Definition Number_toString (n : nat) : JSString := decimal_loop (S n) n [].

(** [Math.floor(Math.random() * 900 + 100)]. *)
Definition threeDigits : M nat :=
  r <- Math_random ;;
  ret (floor_times r 900 + 100)%nat.

(** [s.slice(0, n)]. *)
Definition slice0 (s : JSString) (n : nat) : JSString := firstn n s.

Definition generateLocalNameAddress : M JSString :=
  firstName <- pick localFirstNames ;;
  lastName <- pick localLastNames ;;
  format <- pick formats ;;
  address <-
    match format with
    | Some dot => ret (printed firstName ++ [DOT] ++ printed lastName)
    | Some underscore =>
        ret (printed firstName ++ [UNDERSCORE] ++ printed lastName)
    | Some withDigits =>
        n <- threeDigits ;;
        r <- Math_random ;;
        let digits := slice0 (Number_toString n)
                             (if below_half r then 2 else 3) in
        ret (printed firstName ++ printed lastName ++ digits)
    | _ => ret (printed firstName ++ printed lastName)
    end ;;
  if (length address <? 6)%nat then
    n <- threeDigits ;;
    ret (printed firstName ++ printed lastName ++ Number_toString n)
  else if (20 <? length address)%nat then
    ret (slice0 (printed firstName ++ printed lastName) 20)
  else ret address.

End Preview.

Import Preview.

(** ** Sequences of store operations *)

Module Lifecycle.

(** The calls a worker makes to the mailbox store. *)
Inductive StoreOp : Type :=
| OpCreate (params : CreateMailboxParams)
| OpGet (addr : JSString)
| OpConvert (addr : JSString)
| OpDelete (addr : JSString)
| OpSweep.

(** The state after one call, whatever it returns or throws. *)
Definition run_op (op : StoreOp) (w : World) : World :=
  match op with
  | OpCreate params => snd (createMailbox params w)
  | OpGet addr => snd (getMailbox addr w)
  | OpConvert addr => snd (convertMailboxToPermanent addr w)
  | OpDelete addr => snd (deleteMailbox addr w)
  | OpSweep => snd (cleanupExpiredMailboxes w)
  end.

Fixpoint run_ops (ops : list StoreOp) (w : World) : World :=
  match ops with
  | [] => w
  | op :: ops' => run_ops ops' (run_op op w)
  end.

(** [r'] is [r] later in its life: the same identity, and an expiry that
    is the same or was raised to the sentinel. *)
Definition evolves (r r' : Row) : Prop :=
  id r' = id r /\ address r' = address r
  /\ address_type r' = address_type r /\ created_at r' = created_at r
  /\ ip_address r' = ip_address r
  /\ (expires_at r' = expires_at r
      \/ expires_at r' = PERMANENT_MAILBOX_SENTINEL).

(** No row of class random holds the sentinel. *)
Definition random_rows_temporary (rows : list Row) : Prop :=
  forall r, In r rows -> address_type r = Random ->
            expires_at r <> PERMANENT_MAILBOX_SENTINEL.

(** An address as the creation handler stores it: accepted by
    [validateCustomAddress] and left as it is by [toLowerCase]. *)
Definition stored_address (a : JSString) : Prop :=
  valid (validateCustomAddress a) = true /\ toLowerCase a = a.

End Lifecycle.

Import Lifecycle.

(** * Properties *)

Unset Implicit Arguments.

(** ** Strings *)

Lemma eqb_eq (s t : JSString) : JS.eqb s t = true <-> s = t.
Proof.
  unfold JS.eqb. destruct (list_eq_dec N.eq_dec s t); split; congruence.
Qed.

Lemma eqb_refl (s : JSString) : JS.eqb s s = true.
Proof. now apply eqb_eq. Qed.

Lemma eqb_neq (s t : JSString) : JS.eqb s t = false <-> s <> t.
Proof.
  unfold JS.eqb. destruct (list_eq_dec N.eq_dec s t); split; congruence.
Qed.

Lemma toLowerCase_length (s : JSString) :
  length (toLowerCase s) = length s.
Proof. apply length_map. Qed.

(** ** The validator *)

Lemma validChar_class (c : CodeUnit) :
  validChar c = true <-> in_address_class c.
Proof.
  unfold validChar, in_address_class, is_lower, is_upper, is_digit,
    DOT, UNDERSCORE, HYPHEN.
  rewrite !orb_true_iff, !andb_true_iff, !N.leb_le, !N.eqb_eq.
  intuition lia.
Qed.

Lemma validCharsRegex_test_true (address : JSString) :
  address <> [] ->
  (validCharsRegex_test address = true
   <-> forall c, In c address -> in_address_class c).
Proof.
  intros Hne. destruct address as [|c0 rest]; [congruence|].
  unfold validCharsRegex_test. rewrite forallb_forall.
  split; intros H c Hc; apply validChar_class; auto.
Qed.

(** C9: [validateCustomAddress] checks its rules in order and stops at the
    first that fails: under 3 code units it answers [TooShort]; otherwise
    above 30 it answers [TooLong]; otherwise a code unit outside
    [[A-Za-z0-9._-]] gives [InvalidCharacters]; otherwise the address is
    valid.  The verdict carries no string (nothing is case-folded), and
    upper-case letters belong to the accepted class. *)
Theorem validateCustomAddress_rules (address : JSString) :
  ((length address < 3)%nat ->
     validateCustomAddress address = mkValidation false (Some TooShort))
  /\ ((3 <= length address)%nat -> (30 < length address)%nat ->
     validateCustomAddress address = mkValidation false (Some TooLong))
  /\ ((3 <= length address <= 30)%nat ->
      (exists c, In c address /\ ~ in_address_class c) ->
     validateCustomAddress address
       = mkValidation false (Some InvalidCharacters))
  /\ ((3 <= length address <= 30)%nat ->
      (forall c, In c address -> in_address_class c) ->
     validateCustomAddress address = mkValidation true None)
  /\ ((3 <= length address <= 30)%nat ->
      (forall c, In c address -> (65 <= c <= 90)%N) ->
     validateCustomAddress address = mkValidation true None).
Proof.
  assert (Hvalid : (3 <= length address <= 30)%nat ->
                   (forall c, In c address -> in_address_class c) ->
                   validateCustomAddress address = mkValidation true None).
  { intros [Hlo Hhi] Hall. unfold validateCustomAddress.
    destruct (Nat.ltb_spec (length address) 3); [lia|].
    destruct (Nat.ltb_spec 30 (length address)); [lia|].
    assert (Hne : address <> []) by (intros ->; simpl in *; lia).
    rewrite (proj2 (validCharsRegex_test_true _ Hne) Hall). reflexivity. }
  split; [|split; [|split; [|split]]].
  - intros Hlt. unfold validateCustomAddress.
    destruct (Nat.ltb_spec (length address) 3); [reflexivity|lia].
  - intros Hlo Hhi. unfold validateCustomAddress.
    destruct (Nat.ltb_spec (length address) 3); [lia|].
    destruct (Nat.ltb_spec 30 (length address)); [reflexivity|lia].
  - intros [Hlo Hhi] (c & Hin & Hout). unfold validateCustomAddress.
    destruct (Nat.ltb_spec (length address) 3); [lia|].
    destruct (Nat.ltb_spec 30 (length address)); [lia|].
    assert (Hne : address <> []) by (intros ->; simpl in *; lia).
    destruct (validCharsRegex_test address) eqn:Htest; [|reflexivity].
    exfalso. apply Hout.
    now apply (proj1 (validCharsRegex_test_true _ Hne) Htest).
  - exact Hvalid.
  - intros Hlen Hupper. apply Hvalid; [exact Hlen|].
    intros c Hc. unfold in_address_class. specialize (Hupper c Hc). lia.
Qed.

(** The rules of C9 met on concrete inputs: "ab", a string of 31 letters,
    "a b c", "Ab-C_9.z" and "ABC". *)
Lemma validateCustomAddress_rules_witness :
  validateCustomAddress (js "ab") = mkValidation false (Some TooShort)
  /\ validateCustomAddress (js "abcdefghijklmnopqrstuvwxyzabcde")
     = mkValidation false (Some TooLong)
  /\ validateCustomAddress (js "a b c")
     = mkValidation false (Some InvalidCharacters)
  /\ validateCustomAddress (js "Ab-C_9.z") = mkValidation true None
  /\ validateCustomAddress (js "ABC") = mkValidation true None.
Proof.
  split; [|split; [|split; [|split]]].
  - apply (validateCustomAddress_rules (js "ab")). simpl. lia.
  - apply (validateCustomAddress_rules
             (js "abcdefghijklmnopqrstuvwxyzabcde")); simpl; lia.
  - apply (validateCustomAddress_rules (js "a b c")); [simpl; lia|].
    exists 32%N. split; [cbv; tauto|].
    unfold in_address_class. lia.
  - apply (proj1 (proj2 (proj2 (proj2
             (validateCustomAddress_rules (js "Ab-C_9.z")))))); [simpl; lia|].
    intros c Hc. unfold in_address_class. cbv in Hc.
    repeat (destruct Hc as [<-|Hc]; [lia|]). contradiction.
  - apply (proj2 (proj2 (proj2 (proj2
             (validateCustomAddress_rules (js "ABC")))))); [simpl; lia|].
    intros c Hc. cbv in Hc.
    repeat (destruct Hc as [<-|Hc]; [lia|]). contradiction.
Defined.

(** ** The mailbox store *)

Ltac unfold_store :=
  unfold deleteMailbox, convertMailboxToPermanent, cleanupExpiredMailboxes,
    getMailbox, createMailbox, calculateMailboxExpiry,
    sql_first, sql_update, sql_delete, sql_insert,
    getCurrentTimestamp, generateId, set_mailboxes, advance_clock,
    advance_uuid, try_catch, bind, ret, throw in *.

Lemma fresh_existsb (addr newId : JSString) (rows : list Row) :
  fresh addr newId rows ->
  existsb (fun r' => JS.eqb (id r') newId || JS.eqb (address r') addr) rows
  = false.
Proof.
  intros Hfresh. induction rows as [|r rows IH]; [reflexivity|].
  simpl. destruct (Hfresh r (or_introl eq_refl)) as [Hid Haddr].
  apply eqb_neq in Hid. apply eqb_neq in Haddr. rewrite Hid, Haddr. simpl.
  apply IH. intros r' Hr'. apply Hfresh. now right.
Qed.

Lemma isPermanentMailbox_iff (e : Z) :
  isPermanentMailbox e = true <-> e = PERMANENT_MAILBOX_SENTINEL.
Proof. unfold isPermanentMailbox. apply Z.eqb_eq. Qed.



(** *** The sweep *)

Lemma reclaimable_row_iff (now : Z) (r : Row) :
  reclaimable_row now r = true
  <-> (expires_at r <= now)%Z
      /\ expires_at r <> PERMANENT_MAILBOX_SENTINEL.
Proof.
  unfold reclaimable_row.
  rewrite andb_true_iff, negb_true_iff, Z.leb_le, Z.eqb_neq. tauto.
Qed.

Lemma filter_split_length {A : Type} (p : A -> bool) (l : list A) :
  (length (filter p l) + length (filter (fun x => negb (p x)) l)
   = length l)%nat.
Proof.
  induction l as [|x l IHl]; [reflexivity|].
  simpl. destruct (p x); simpl; lia.
Qed.

Lemma cleanupExpiredMailboxes_run (w : World) :
  exists w',
    cleanupExpiredMailboxes w
    = (Returned (length (filter (reclaimable_row (clock w (clock_pos w)))
                                (mailboxes w))), w')
    /\ mailboxes w'
       = filter (fun r => negb (reclaimable_row (clock w (clock_pos w)) r))
                (mailboxes w).
Proof. eexists. split; reflexivity. Qed.

Lemma sweeps_keep_permanent (times : nat) :
  forall (w : World) (r : Row),
    In r (mailboxes w) ->
    expires_at r = PERMANENT_MAILBOX_SENTINEL ->
    fst (sweeps times w) = Returned tt
    /\ In r (mailboxes (snd (sweeps times w))).
Proof.
  induction times as [|times IH]; intros w r Hin Hperm.
  - split; [reflexivity|exact Hin].
  - destruct (cleanupExpiredMailboxes_run w) as (w1 & Hrun & Hrows).
    assert (Hstep : sweeps (S times) w = sweeps times w1).
    { simpl. unfold bind. now rewrite Hrun. }
    rewrite Hstep. apply IH; [|exact Hperm].
    rewrite Hrows. apply filter_In. split; [exact Hin|].
    apply negb_true_iff.
    destruct (reclaimable_row (clock w (clock_pos w)) r) eqn:Hrec;
      [|reflexivity].
    apply reclaimable_row_iff in Hrec. tauto.
Qed.

(** C2: however often the sweep runs, and whatever the clock reads, a row
    whose [expires_at] is the sentinel stays in the table; and one run of
    [cleanupExpiredMailboxes] at time [now] removes a row exactly when its
    [expires_at] is at or before [now] and is not the sentinel (the two
    tests joined by AND), adds no row, and reports the number removed. *)
Theorem cleanupExpiredMailboxes_deletes_exactly (w : World) (r : Row) :
  In r (mailboxes w) ->
  let now := clock w (clock_pos w) in
  (expires_at r = PERMANENT_MAILBOX_SENTINEL ->
   forall times,
     fst (sweeps times w) = Returned tt
     /\ In r (mailboxes (snd (sweeps times w))))
  /\ (~ In r (mailboxes (snd (cleanupExpiredMailboxes w)))
      <-> (expires_at r <= now)%Z
          /\ expires_at r <> PERMANENT_MAILBOX_SENTINEL)
  /\ (forall r', In r' (mailboxes (snd (cleanupExpiredMailboxes w))) ->
                 In r' (mailboxes w))
  /\ fst (cleanupExpiredMailboxes w)
     = Returned (length (mailboxes w)
                 - length (mailboxes (snd (cleanupExpiredMailboxes w))))%nat.
Proof.
  intros Hin now. split; [|split; [|split]].
  - intros Hperm times. now apply sweeps_keep_permanent.
  - destruct (cleanupExpiredMailboxes_run w) as (w1 & Hrun & Hrows).
    rewrite Hrun. cbn [snd]. rewrite Hrows, filter_In.
    rewrite <- reclaimable_row_iff. fold now.
    destruct (reclaimable_row now r); simpl; intuition congruence.
  - destruct (cleanupExpiredMailboxes_run w) as (w1 & Hrun & Hrows).
    rewrite Hrun. cbn [snd]. rewrite Hrows.
    intros r' Hr'. apply filter_In in Hr'. tauto.
  - destruct (cleanupExpiredMailboxes_run w) as (w1 & Hrun & Hrows).
    rewrite Hrun. cbn [fst snd]. rewrite Hrows. f_equal.
    pose proof (filter_split_length
                  (reclaimable_row (clock w (clock_pos w))) (mailboxes w)).
    lia.
Qed.

(** C2 on the sample table at time 6000: the permanent row survives three
    sweeps, the temporary row that expired at 5000 is removed by one. *)
Lemma cleanupExpiredMailboxes_deletes_exactly_witness :
  In row_permanent (mailboxes (snd (sweeps 3 sample_late)))
  /\ ~ In row_temporary
       (mailboxes (snd (cleanupExpiredMailboxes
                          sample_late))).
Proof.
  split.
  - apply (cleanupExpiredMailboxes_deletes_exactly
             sample_late row_permanent).
    + simpl. tauto.
    + reflexivity.
  - apply (cleanupExpiredMailboxes_deletes_exactly
             sample_late row_temporary).
    + simpl. tauto.
    + split; [cbn; lia|cbn; discriminate].
Defined.

(** *** Lookup *)

Lemma live_row_iff (addr : JSString) (now : Z) (r : Row) :
  live_row addr now r = true
  <-> address r = addr
      /\ ((now < expires_at r)%Z
          \/ expires_at r = PERMANENT_MAILBOX_SENTINEL).
Proof.
  unfold live_row.
  rewrite andb_true_iff, orb_true_iff, eqb_eq, Z.ltb_lt, Z.eqb_eq. tauto.
Qed.

Lemma getMailbox_miss (addr : JSString) (w : World) :
  find (live_row addr (clock w (clock_pos w))) (mailboxes w) = None ->
  getMailbox addr w = (Returned None, advance_clock w).
Proof. intros Hfind. unfold_store. cbn. now rewrite Hfind. Qed.

Lemma getMailbox_hit (addr : JSString) (w : World) (row : Row) :
  find (live_row addr (clock w (clock_pos w))) (mailboxes w) = Some row ->
  getMailbox addr w
  = (Returned (Some (mailbox_of_row row (clock w (clock_pos w)))),
     set_mailboxes (touched row (clock w (clock_pos w)) (mailboxes w))
                   (advance_clock w)).
Proof. intros Hfind. unfold_store. cbn. now rewrite Hfind. Qed.

Lemma unique_addresses_eq (rows : list Row) (r r' : Row) :
  unique_addresses rows ->
  In r rows -> In r' rows -> address r = address r' -> r = r'.
Proof.
  unfold unique_addresses. induction rows as [|x rows IH]; [contradiction|].
  simpl. intros Hnd Hr Hr' Haddr. inversion Hnd as [|? ? Hnotin Hnd']; subst.
  destruct Hr as [-> | Hr], Hr' as [-> | Hr'].
  - reflexivity.
  - exfalso. apply Hnotin. rewrite Haddr. now apply in_map.
  - exfalso. apply Hnotin. rewrite <- Haddr. now apply in_map.
  - now apply IH.
Qed.

(** C3: at time [now], [getMailbox addr] returns a mailbox exactly when
    the table has a row with that address whose [expires_at] is strictly
    after [now] or is the sentinel, and then returns such a row, with
    [lastAccessed] set to [now]; otherwise it returns [null].  So a row
    that is not permanent and whose [expires_at] has elapsed is reported
    as not found while it still sits in the table, and a permanent row is
    returned whatever the clock reads. *)
Theorem getMailbox_live_iff (addr : JSString) (w : World) :
  let now := clock w (clock_pos w) in
  let live (r : Row) :=
    address r = addr
    /\ ((now < expires_at r)%Z \/ expires_at r = PERMANENT_MAILBOX_SENTINEL) in
  ((exists m, fst (getMailbox addr w) = Returned (Some m))
   <-> exists r, In r (mailboxes w) /\ live r)
  /\ (fst (getMailbox addr w) = Returned None
      <-> ~ exists r, In r (mailboxes w) /\ live r)
  /\ (forall m, fst (getMailbox addr w) = Returned (Some m) ->
      exists r, In r (mailboxes w) /\ live r /\ m = mailbox_of_row r now)
  /\ (forall r, unique_addresses (mailboxes w) ->
      In r (mailboxes w) -> address r = addr ->
      (expires_at r <= now)%Z ->
      expires_at r <> PERMANENT_MAILBOX_SENTINEL ->
      fst (getMailbox addr w) = Returned None
      /\ mailboxes (snd (getMailbox addr w)) = mailboxes w)
  /\ (forall r, In r (mailboxes w) -> address r = addr ->
      expires_at r = PERMANENT_MAILBOX_SENTINEL ->
      (exists m, fst (getMailbox addr w) = Returned (Some m))
      /\ (unique_addresses (mailboxes w) ->
          fst (getMailbox addr w) = Returned (Some (mailbox_of_row r now))
          /\ isPermanent (mailbox_of_row r now) = true)).
Proof.
  intros now live.
  assert (Hnone : find (live_row addr now) (mailboxes w) = None ->
                  ~ exists r, In r (mailboxes w) /\ live r).
  { intros Hfind (r & Hin & Hlive).
    pose proof (find_none _ _ Hfind r Hin) as Hno.
    apply live_row_iff in Hlive. congruence. }
  assert (Hsome : forall row,
             find (live_row addr now) (mailboxes w) = Some row ->
             In row (mailboxes w) /\ live row).
  { intros row Hfind. apply find_some in Hfind.
    destruct Hfind as [Hin Hlive]. apply live_row_iff in Hlive.
    unfold live. tauto. }
  destruct (find (live_row addr now) (mailboxes w)) as [row|] eqn:Hfind.
  - rewrite (getMailbox_hit addr w _ Hfind). cbn [fst snd]. fold now.
    destruct (Hsome row eq_refl) as [Hin Hlive].
    split; [|split; [|split; [|split]]].
    + split; [intros _; now exists row | intros _; eauto].
    + split; [discriminate | intros Hno; exfalso; apply Hno; now exists row].
    + intros m Hm. injection Hm as <-. now exists row.
    + intros r Huniq Hr Haddr Hexp Hnot. exfalso.
      assert (r = row).
      { apply (unique_addresses_eq (mailboxes w)); auto.
        destruct Hlive as [Hrow _]. congruence. }
      subst r. destruct Hlive as [_ [Hlt | Heq]]; [lia | contradiction].
    + intros r Hr Haddr Hperm. split; [eauto|].
      intros Huniq.
      assert (r = row).
      { apply (unique_addresses_eq (mailboxes w)); auto.
        destruct Hlive as [Hrow _]. congruence. }
      subst r. split; [reflexivity|].
      cbn. now apply isPermanentMailbox_iff.
  - rewrite (getMailbox_miss addr w Hfind). cbn [fst snd].
    pose proof (Hnone eq_refl) as Hno.
    split; [|split; [|split; [|split]]].
    + split; [intros [m Hm]; discriminate | intros H; contradiction].
    + split; [intros _; exact Hno | reflexivity].
    + intros m Hm. discriminate.
    + intros r _ Hr _ _ _. split; reflexivity.
    + intros r Hr Haddr Hperm. exfalso. apply Hno. exists r.
      unfold live. tauto.
Qed.

Lemma sample_rows_unique : unique_addresses sample_rows.
Proof.
  unfold unique_addresses.
  repeat constructor; cbv; intuition discriminate.
Qed.

(** C3 on the sample table at time 6000: "amy.lee", which expired at 5000
    and was not swept, is not found and stays in the table; the permanent
    "archive" is found. *)
Lemma getMailbox_live_iff_witness :
  (fst (getMailbox (js "amy.lee") sample_late)
   = Returned None
   /\ mailboxes (snd (getMailbox (js "amy.lee")
                                 sample_late))
      = sample_rows)
  /\ fst (getMailbox (js "archive") sample_late)
     = Returned (Some (mailbox_of_row row_permanent 6000)).
Proof.
  split.
  - apply (proj1 (proj2 (proj2 (proj2
      (getMailbox_live_iff (js "amy.lee") sample_late))))
      row_temporary).
    + exact sample_rows_unique.
    + simpl. tauto.
    + reflexivity.
    + cbn. lia.
    + cbn. discriminate.
  - apply (proj2 (proj2 (proj2 (proj2
      (getMailbox_live_iff (js "archive") sample_late))))
      row_permanent).
    + simpl. tauto.
    + reflexivity.
    + reflexivity.
    + exact sample_rows_unique.
Defined.

Lemma find_live_unique (addr : JSString) (now : Z) (rows : list Row)
    (r : Row) :
  unique_addresses rows ->
  In r rows -> live_row addr now r = true ->
  find (live_row addr now) rows = Some r.
Proof.
  intros Huniq Hin Hlive.
  destruct (find (live_row addr now) rows) as [r'|] eqn:Hfind.
  - apply find_some in Hfind. destruct Hfind as [Hin' Hlive'].
    f_equal. apply (unique_addresses_eq rows); auto.
    apply live_row_iff in Hlive. apply live_row_iff in Hlive'.
    destruct Hlive, Hlive'. congruence.
  - pose proof (find_none _ _ Hfind r Hin). congruence.
Qed.

Lemma find_live_none (addr : JSString) (now : Z) (rows : list Row) :
  (forall r, In r rows -> address r = addr ->
             (expires_at r <= now)%Z
             /\ expires_at r <> PERMANENT_MAILBOX_SENTINEL) ->
  find (live_row addr now) rows = None.
Proof.
  intros Hdead.
  destruct (find (live_row addr now) rows) as [r|] eqn:Hfind;
    [|reflexivity].
  apply find_some in Hfind. destruct Hfind as [Hin Hlive].
  apply live_row_iff in Hlive. destruct Hlive as [Haddr Hlive].
  destruct (Hdead r Hin Haddr). lia.
Qed.

Lemma touched_In (row : Row) (now : Z) (rows : list Row) :
  In row rows -> In (set_last_accessed now row) (touched row now rows).
Proof.
  intros Hin. unfold touched. apply in_map_iff. exists row.
  now rewrite eqb_refl.
Qed.

Lemma touched_same (row : Row) (now : Z) (rows : list Row) :
  same_but_last_accessed rows (touched row now rows).
Proof.
  unfold same_but_last_accessed, touched. rewrite map_map.
  apply map_ext. intros r. now destruct (JS.eqb (id r) (id row)).
Qed.

Lemma touched_addresses (row : Row) (now : Z) (rows : list Row) :
  map address (touched row now rows) = map address rows.
Proof.
  unfold touched. rewrite map_map. apply map_ext.
  intros r. now destruct (JS.eqb (id r) (id row)).
Qed.

Lemma touched_expiries (row : Row) (now : Z) (rows : list Row) :
  map expires_at (touched row now rows) = map expires_at rows.
Proof.
  unfold touched. rewrite map_map. apply map_ext.
  intros r. now destruct (JS.eqb (id r) (id row)).
Qed.

Lemma without_spec (addr : JSString) (rows : list Row) (r : Row) :
  In r (without addr rows) <-> In r rows /\ address r <> addr.
Proof.
  unfold without. rewrite filter_In, negb_true_iff, eqb_neq. tauto.
Qed.

(** *** Deletion *)

Lemma deleteMailbox_run (addr : JSString) (w : World) :
  let now := clock w (clock_pos w) in
  deleteMailbox addr w
  = match find (live_row addr now) (mailboxes w) with
    | None =>
        (Returned (mkDeleteResult false (Some Mailbox_not_found)),
         advance_clock w)
    | Some row =>
        if isPermanentMailbox (expires_at row)
        then (Returned (mkDeleteResult false
                          (Some Cannot_delete_permanent_mailbox)),
              set_mailboxes (touched row now (mailboxes w))
                            (advance_clock w))
        else (Returned (mkDeleteResult true None),
              set_mailboxes (without addr (touched row now (mailboxes w)))
                            (advance_clock w))
    end.
Proof.
  intros now. unfold deleteMailbox, bind at 1.
  destruct (find (live_row addr now) (mailboxes w)) as [row|] eqn:Hfind.
  - rewrite (getMailbox_hit addr w _ Hfind). fold now.
    cbn [isPermanent mailbox_of_row].
    destruct (isPermanentMailbox (expires_at row)); reflexivity.
  - rewrite (getMailbox_miss addr w Hfind). reflexivity.
Qed.

Lemma delete_mailbox_run (addr : JSString) (w : World) :
  let now := clock w (clock_pos w) in
  delete_mailbox addr w
  = match find (live_row addr now) (mailboxes w) with
    | None =>
        (Returned (json_status (Failure (Some Mailbox_not_found)) 404),
         advance_clock w)
    | Some row =>
        if isPermanentMailbox (expires_at row)
        then (Returned (json_status
                          (Failure (Some Cannot_delete_permanent_mailbox))
                          403),
              set_mailboxes (touched row now (mailboxes w))
                            (advance_clock w))
        else (Returned (json Success),
              set_mailboxes (without addr (touched row now (mailboxes w)))
                            (advance_clock w))
    end.
Proof.
  intros now. unfold delete_mailbox, try_catch, bind at 1.
  rewrite deleteMailbox_run. fold now.
  destruct (find (live_row addr now) (mailboxes w)) as [row|];
    [destruct (isPermanentMailbox (expires_at row))|]; reflexivity.
Qed.





(** *** Conversion *)

Lemma convertMailboxToPermanent_run (addr : JSString) (w : World) :
  convertMailboxToPermanent addr w
  = (Returned (0 <? length (filter (convertible_row addr) (mailboxes w)))%nat,
     set_mailboxes (converted addr (mailboxes w)) w).
Proof. reflexivity. Qed.

Lemma patch_convert_to_permanent_run (addr : JSString) (w : World) :
  let now := clock w (clock_pos w) in
  let now' := clock w (S (clock_pos w)) in
  patch_convert_to_permanent addr w
  = match find (live_row addr now) (mailboxes w) with
    | None =>
        (Returned (json_status (Failure (Some Mailbox_not_found)) 404),
         advance_clock w)
    | Some row =>
        let t1 := touched row now (mailboxes w) in
        let w1 := set_mailboxes t1 (advance_clock w) in
        if AddressType_eqb (address_type row) Random then
          (Returned
             (json_status
                (Failure
                   (Some Random_mailboxes_cannot_be_converted_to_permanent))
                403), w1)
        else if isPermanentMailbox (expires_at row) then
          (Returned (json (SuccessMailbox (Some Mailbox_is_already_permanent)
                             (Some (mailbox_of_row row now)))), w1)
        else if negb (0 <? length (filter (convertible_row addr) t1))%nat then
          (Returned (json_status (Failure (Some Failed_to_convert_mailbox))
                                 500),
           set_mailboxes (converted addr t1) w1)
        else
          let w2 := set_mailboxes (converted addr t1) w1 in
          match find (live_row addr now') (converted addr t1) with
          | None =>
              (Returned (json (SuccessMailbox
                                 (Some Mailbox_converted_to_permanent) None)),
               advance_clock w2)
          | Some row2 =>
              (Returned (json (SuccessMailbox
                                 (Some Mailbox_converted_to_permanent)
                                 (Some (mailbox_of_row row2 now')))),
               set_mailboxes (touched row2 now' (converted addr t1))
                             (advance_clock w2))
          end
    end.
Proof.
  intros now now'. unfold patch_convert_to_permanent, try_catch, bind at 1.
  destruct (find (live_row addr now) (mailboxes w)) as [row|] eqn:Hfind.
  - rewrite (getMailbox_hit addr w _ Hfind). fold now.
    cbn [addressType isPermanent mailbox_of_row].
    destruct (AddressType_eqb (address_type row) Random); [reflexivity|].
    destruct (isPermanentMailbox (expires_at row)); [reflexivity|].
    unfold bind at 1. rewrite convertMailboxToPermanent_run.
    cbn [mailboxes set_mailboxes].
    destruct (negb (0 <? length (filter (convertible_row addr)
                                   (touched row now (mailboxes w))))%nat);
      [reflexivity|].
    unfold bind.
    destruct (find (live_row addr now')
                   (converted addr (touched row now (mailboxes w))))
      as [row2|] eqn:Hfind2.
    + erewrite getMailbox_hit; [reflexivity|exact Hfind2].
    + erewrite getMailbox_miss; [reflexivity|exact Hfind2].
  - rewrite (getMailbox_miss addr w Hfind). reflexivity.
Qed.

Lemma converted_addresses (addr : JSString) (rows : list Row) :
  map address (converted addr rows) = map address rows.
Proof.
  unfold converted. rewrite map_map. apply map_ext.
  intros r. now destruct (convertible_row addr r).
Qed.

Lemma converted_In (addr : JSString) (rows : list Row) (r : Row) :
  In r rows -> convertible_row addr r = true ->
  In (set_expires_at PERMANENT_MAILBOX_SENTINEL r) (converted addr rows).
Proof.
  intros Hin Hconv. unfold converted. apply in_map_iff. exists r.
  now rewrite Hconv.
Qed.

Lemma same_but_last_accessed_expiries (rows rows' : list Row) :
  same_but_last_accessed rows rows' ->
  map expires_at rows = map expires_at rows'.
Proof.
  unfold same_but_last_accessed. intros Hsame.
  apply (f_equal (map expires_at)) in Hsame.
  rewrite !map_map in Hsame. exact Hsame.
Qed.

Lemma filter_inhabited {A : Type} (p : A -> bool) (l : list A) (x : A) :
  In x l -> p x = true -> (0 <? length (filter p l))%nat = true.
Proof.
  intros Hin Hp. apply Nat.ltb_lt.
  assert (Hx : In x (filter p l)) by (apply filter_In; tauto).
  destruct (filter p l); [contradiction | simpl; lia].
Qed.

Lemma unique_touched (row : Row) (now : Z) (rows : list Row) :
  unique_addresses rows -> unique_addresses (touched row now rows).
Proof. unfold unique_addresses. now rewrite touched_addresses. Qed.

Lemma unique_converted (addr : JSString) (rows : list Row) :
  unique_addresses rows -> unique_addresses (converted addr rows).
Proof. unfold unique_addresses. now rewrite converted_addresses. Qed.

Lemma AddressType_eqb_eq (a b : AddressType) :
  AddressType_eqb a b = true <-> a = b.
Proof. destruct a, b; simpl; split; congruence. Qed.

Lemma not_Random_eqb (ty : AddressType) :
  ty <> Random -> AddressType_eqb ty Random = false.
Proof. destruct ty; simpl; congruence. Qed.

Lemma not_Random_allowed (ty : AddressType) :
  ty <> Random ->
  AddressType_eqb ty Name || AddressType_eqb ty Custom = true.
Proof. destruct ty; simpl; congruence. Qed.

(** The four cases of the conversion handler. *)
Lemma patch_convert_to_permanent_step (addr : JSString) (w : World) :
  unique_addresses (mailboxes w) ->
  let now := clock w (clock_pos w) in
  let now' := clock w (S (clock_pos w)) in
  let out := patch_convert_to_permanent addr w in
  ((forall r, In r (mailboxes w) -> address r = addr ->
              (expires_at r <= now)%Z
              /\ expires_at r <> PERMANENT_MAILBOX_SENTINEL) ->
   fst out = Returned (json_status (Failure (Some Mailbox_not_found)) 404)
   /\ mailboxes (snd out) = mailboxes w)
  /\ (forall r, In r (mailboxes w) -> address r = addr ->
      (now < expires_at r)%Z \/ expires_at r = PERMANENT_MAILBOX_SENTINEL ->
      address_type r = Random ->
      fst out
      = Returned
          (json_status
             (Failure (Some Random_mailboxes_cannot_be_converted_to_permanent))
             403)
      /\ mailboxes (snd out) = touched r now (mailboxes w))
  /\ (forall r, In r (mailboxes w) -> address r = addr ->
      address_type r <> Random ->
      expires_at r = PERMANENT_MAILBOX_SENTINEL ->
      fst out
      = Returned (json (SuccessMailbox (Some Mailbox_is_already_permanent)
                          (Some (mailbox_of_row r now))))
      /\ mailboxes (snd out) = touched r now (mailboxes w))
  /\ (forall r, In r (mailboxes w) -> address r = addr ->
      address_type r <> Random ->
      (now < expires_at r)%Z ->
      expires_at r <> PERMANENT_MAILBOX_SENTINEL ->
      let r2 := set_expires_at PERMANENT_MAILBOX_SENTINEL
                               (set_last_accessed now r) in
      fst out
      = Returned (json (SuccessMailbox (Some Mailbox_converted_to_permanent)
                          (Some (mailbox_of_row r2 now'))))
      /\ mailboxes (snd out)
         = touched r2 now' (converted addr (touched r now (mailboxes w)))).
Proof.
  intros Huniq now now' out. subst out.
  rewrite patch_convert_to_permanent_run. fold now now'.
  split; [|split; [|split]].
  - intros Hdead. rewrite (find_live_none _ _ _ Hdead). split; reflexivity.
  - intros r Hin Haddr Hlive Hrandom.
    assert (Hl : live_row addr now r = true) by (apply live_row_iff; tauto).
    rewrite (find_live_unique _ _ _ _ Huniq Hin Hl). cbv zeta.
    rewrite Hrandom. split; reflexivity.
  - intros r Hin Haddr Hty Hperm.
    assert (Hl : live_row addr now r = true) by (apply live_row_iff; tauto).
    rewrite (find_live_unique _ _ _ _ Huniq Hin Hl). cbv zeta.
    rewrite (not_Random_eqb _ Hty).
    rewrite (proj2 (isPermanentMailbox_iff _) Hperm). split; reflexivity.
  - intros r Hin Haddr Hty Hfuture Htemp r2.
    assert (Hl : live_row addr now r = true) by (apply live_row_iff; tauto).
    rewrite (find_live_unique _ _ _ _ Huniq Hin Hl). cbv zeta.
    rewrite (not_Random_eqb _ Hty).
    destruct (isPermanentMailbox (expires_at r)) eqn:Hperm.
    { apply isPermanentMailbox_iff in Hperm. contradiction. }
    assert (Hconv : convertible_row addr (set_last_accessed now r) = true).
    { unfold convertible_row. cbn [address address_type expires_at
                                   set_last_accessed].
      rewrite (proj2 (eqb_eq _ _) Haddr), (not_Random_allowed _ Hty).
      rewrite (proj2 (Z.eqb_neq _ _) Htemp). reflexivity. }
    rewrite (filter_inhabited _ _ _ (touched_In r now _ Hin) Hconv).
    cbn [negb].
    assert (Hr2 : In r2 (converted addr (touched r now (mailboxes w)))).
    { apply converted_In; [now apply touched_In | exact Hconv]. }
    assert (Hl2 : live_row addr now' r2 = true).
    { apply live_row_iff. cbn. tauto. }
    rewrite (find_live_unique _ _ _ _
               (unique_converted _ _ (unique_touched _ _ _ Huniq)) Hr2 Hl2).
    split; reflexivity.
Qed.






(** ** The generators *)

Lemma floor_times_lt (r : N) (n : nat) :
  (r < TWO53)%N -> (0 < n)%nat -> (floor_times r n < n)%nat.
Proof.
  intros Hr Hn. unfold floor_times.
  assert (Hq : ((r * N.of_nat n) / TWO53 < N.of_nat n)%N).
  { apply N.Div0.div_lt_upper_bound.
    apply N.mul_lt_mono_pos_r; [lia|exact Hr]. }
  lia.
Qed.

Lemma Math_random_run (w : World) :
  exists r, Math_random w = (Returned r, advance_random w)
            /\ (r < TWO53)%N.
Proof.
  eexists. split; [reflexivity|].
  apply N.mod_lt. discriminate.
Qed.

Lemma pick_run {A : Type} (pool : list A) (w : World) :
  (0 < length pool)%nat ->
  exists x, pick pool w = (Returned (Some x), advance_random w)
            /\ In x pool.
Proof.
  intros Hne. destruct (Math_random_run w) as (r & Hrun & Hr).
  unfold pick, bind. rewrite Hrun. unfold ret.
  pose proof (floor_times_lt r (length pool) Hr Hne) as Hlt.
  destruct (nth_error pool (floor_times r (length pool))) as [x|] eqn:Hnth.
  - exists x. split; [reflexivity|]. eapply nth_error_In; eassumption.
  - apply nth_error_None in Hnth. lia.
Qed.

Lemma pick_or_run (short : list JSString) (dflt : JSString) (w : World) :
  exists x, pick_or short dflt w = (Returned x, advance_random w)
            /\ (In x short \/ x = dflt).
Proof.
  destruct (Math_random_run w) as (r & Hrun & Hr).
  unfold pick_or, pick, bind. rewrite Hrun. unfold ret.
  destruct (nth_error short (floor_times r (length short)))
    as [[|c n]|] eqn:Hnth.
  - exists dflt. auto.
  - exists (c :: n). split; [reflexivity|]. left.
    eapply nth_error_In; eassumption.
  - exists dflt. auto.
Qed.

Lemma is_lower_lower_unit (c : CodeUnit) :
  is_lower c = true -> lower_unit c = c.
Proof.
  unfold lower_unit, is_lower, is_upper. intros H.
  apply andb_true_iff in H. destruct H as [H1 H2].
  apply N.leb_le in H1.
  destruct ((65 <=? c)%N && (c <=? 90)%N) eqn:Hup; [|reflexivity].
  apply andb_true_iff in Hup. destruct Hup as [_ Hup].
  apply N.leb_le in Hup. lia.
Qed.

Lemma toLowerCase_lower (n : JSString) :
  forallb is_lower n = true -> toLowerCase n = n.
Proof.
  induction n as [|c n IH]; [reflexivity|].
  simpl. intros H. apply andb_true_iff in H. destruct H as [Hc Hn].
  now rewrite (is_lower_lower_unit c Hc), (IH Hn).
Qed.

Lemma is_lower_name_char (c : CodeUnit) :
  is_lower c = true -> name_char c = true.
Proof. unfold name_char. now intros ->. Qed.

Lemma forallb_lower_name_char (n : JSString) :
  forallb is_lower n = true -> forallb name_char n = true.
Proof.
  rewrite !forallb_forall. intros H c Hc.
  now apply is_lower_name_char, H.
Qed.

Lemma randomDigits_loop_run (remaining : nat) :
  forall (digits : JSString) (w : World),
    forallb is_digit digits = true ->
    exists ds w',
      randomDigits_loop remaining digits w = (Returned ds, w')
      /\ forallb is_digit ds = true
      /\ length ds = (length digits + remaining)%nat.
Proof.
  induction remaining as [|remaining IH]; intros digits w Hdigits.
  - exists digits, w. repeat split; [exact Hdigits | simpl; lia].
  - destruct (Math_random_run w) as (r & Hrun & Hr).
    simpl. unfold bind at 1. rewrite Hrun.
    destruct (IH (digits ++ digit_toString (floor_times r 10))
                 (advance_random w)) as (ds & w' & Hloop & Hds & Hlen).
    + rewrite forallb_app, Hdigits.
      pose proof (floor_times_lt r 10 Hr ltac:(lia)) as Hlt.
      unfold digit_toString. cbn [forallb andb].
      unfold is_digit. rewrite andb_true_r.
      apply andb_true_iff. split; apply N.leb_le; lia.
    + exists ds, w'. repeat split; [exact Hloop | exact Hds |].
      rewrite Hlen, length_app. simpl. lia.
Qed.

Lemma generateRandomDigits_run (w : World) :
  exists ds w',
    generateRandomDigits w = (Returned ds, w')
    /\ forallb is_digit ds = true
    /\ (2 <= length ds <= 3)%nat.
Proof.
  destruct (Math_random_run w) as (r & Hrun & Hr).
  unfold generateRandomDigits, bind. rewrite Hrun.
  destruct (randomDigits_loop_run (if below_half r then 2 else 3)%nat []
              (advance_random w) eq_refl) as (ds & w' & Hloop & Hds & Hlen).
  exists ds, w'. repeat split; try assumption;
    destruct (below_half r); simpl in Hlen; lia.
Qed.

Lemma bind_run {A B : Type} (c : M A) (k : A -> M B) (w w' : World) (a : A) :
  c w = (Returned a, w') -> bind c k w = k a w'.
Proof. intros H. unfold bind. now rewrite H. Qed.

Lemma formatNameAddress_run (f l : JSString) (format : AddressFormat)
    (w : World) :
  forallb is_lower f = true -> forallb is_lower l = true ->
  exists a w',
    formatNameAddress (Some f) (Some l) (Some format) w = (Returned a, w')
    /\ forallb name_char a = true
    /\ (length f + length l <= length a <= length f + length l + 3)%nat
    /\ (format = plain -> a = f ++ l).
Proof.
  intros Hf Hl. unfold formatNameAddress, lowered.
  rewrite (toLowerCase_lower f Hf), (toLowerCase_lower l Hl).
  pose proof (forallb_lower_name_char f Hf) as Hfc.
  pose proof (forallb_lower_name_char l Hl) as Hlc.
  destruct format.
  - exists (f ++ [DOT] ++ l), w. split; [reflexivity|]. split; [|split].
    + now rewrite !forallb_app, Hfc, Hlc.
    + rewrite !length_app. simpl. lia.
    + discriminate.
  - exists (f ++ [UNDERSCORE] ++ l), w. split; [reflexivity|].
    split; [|split].
    + now rewrite !forallb_app, Hfc, Hlc.
    + rewrite !length_app. simpl. lia.
    + discriminate.
  - exists (f ++ l), w. split; [reflexivity|]. split; [|split].
    + now rewrite !forallb_app, Hfc, Hlc.
    + rewrite !length_app. lia.
    + reflexivity.
  - destruct (generateRandomDigits_run w) as (ds & w' & Hrun & Hds & Hlen).
    exists (f ++ l ++ ds), w'. split; [|split; [|split]].
    + change (bind generateRandomDigits
                   (fun digits => ret (f ++ l ++ digits)) w
              = (Returned (f ++ l ++ ds), w')).
      now rewrite (bind_run _ _ _ _ _ Hrun).
    + rewrite !forallb_app, Hfc, Hlc. simpl.
      rewrite forallb_forall in Hds |- *. intros c Hc.
      unfold name_char. now rewrite (Hds c Hc), orb_true_r.
    + rewrite !length_app. lia.
    + discriminate.
Qed.

Lemma firstNames_ok (f : JSString) :
  In f firstNames ->
  forallb is_lower f = true /\ (3 <= length f <= 11)%nat.
Proof.
  assert (H : forallb (fun n => forallb is_lower n
                                && (3 <=? length n)%nat
                                && (length n <=? 11)%nat) firstNames = true)
    by (vm_compute; reflexivity).
  rewrite forallb_forall in H. intros Hin. specialize (H f Hin).
  rewrite !andb_true_iff, !Nat.leb_le in H. tauto.
Qed.

Lemma lastNames_ok (l : JSString) :
  In l lastNames ->
  forallb is_lower l = true /\ (3 <= length l <= 9)%nat.
Proof.
  assert (H : forallb (fun n => forallb is_lower n
                                && (3 <=? length n)%nat
                                && (length n <=? 9)%nat) lastNames = true)
    by (vm_compute; reflexivity).
  rewrite forallb_forall in H. intros Hin. specialize (H l Hin).
  rewrite !andb_true_iff, !Nat.leb_le in H. tauto.
Qed.

Lemma isValidLength_iff (a : JSString) :
  isValidLength a = true <-> (6 <= length a <= 20)%nat.
Proof.
  unfold isValidLength, MIN_ADDRESS_LENGTH, MAX_ADDRESS_LENGTH.
  rewrite andb_true_iff, !Nat.leb_le. tauto.
Qed.

(** With the names of the pool, every turn of the loop returns. *)
Lemma nameAddress_attempt_run (w : World) :
  exists a w',
    nameAddress_attempt w = (Returned (Some a), w')
    /\ isValidLength a = true
    /\ forallb name_char a = true.
Proof.
  unfold nameAddress_attempt, getRandomFirstName, getRandomLastName,
    getRandomFormat.
  destruct (pick_run firstNames w ltac:(vm_compute; lia))
    as (f & Hpickf & Hinf).
  destruct (pick_run lastNames (advance_random w) ltac:(vm_compute; lia))
    as (l & Hpickl & Hinl).
  destruct (pick_run formats (advance_random (advance_random w))
              ltac:(vm_compute; lia)) as (format & Hpickfmt & _).
  destruct (firstNames_ok f Hinf) as [Hflower Hflen].
  destruct (lastNames_ok l Hinl) as [Hllower Hllen].
  destruct (formatNameAddress_run f l format
              (advance_random (advance_random (advance_random w)))
              Hflower Hllower) as (a & w1 & Hfmt & Hchars & Hlen & _).
  rewrite (bind_run _ _ _ _ _ Hpickf), (bind_run _ _ _ _ _ Hpickl),
    (bind_run _ _ _ _ _ Hpickfmt), (bind_run _ _ _ _ _ Hfmt).
  destruct (isValidLength a) eqn:Hvalid.
  - exists a, w1. auto.
  - assert (Hlong : (20 < length a)%nat).
    { destruct (Nat.le_gt_cases (length a) 20) as [Hle|Hgt]; [|exact Hgt].
      assert (isValidLength a = true) by (apply isValidLength_iff; lia).
      congruence. }
    unfold MIN_ADDRESS_LENGTH, MAX_ADDRESS_LENGTH.
    destruct (Nat.ltb_spec (length a) 6) as [Hshort|_]; [lia|].
    unfold bind at 1. unfold ret at 1.
    destruct (Nat.ltb_spec 20 (length a)) as [_|Hno]; [|lia].
    destruct (formatNameAddress_run f l plain w1 Hflower Hllower)
      as (p & w2 & Hplain & Hpchars & Hplen & Heq).
    rewrite (bind_run _ _ _ _ _ Hplain).
    assert (Hpvalid : isValidLength p = true).
    { apply isValidLength_iff. rewrite (Heq eq_refl), length_app. lia. }
    rewrite Hpvalid. exists p, w2. auto.
Qed.

Lemma name_char_class (c : CodeUnit) :
  name_char c = true <-> in_name_class c.
Proof.
  unfold name_char, in_name_class, is_lower, is_digit, DOT, UNDERSCORE.
  rewrite !orb_true_iff, !andb_true_iff, !N.leb_le, !N.eqb_eq.
  intuition lia.
Qed.

Lemma short_pool_name (pool : list JSString) (dflt n : JSString)
    (bound : nat) :
  (forall x, In x pool ->
             forallb is_lower x = true /\ (3 <= length x <= bound)%nat) ->
  forallb is_lower dflt = true -> (3 <= length dflt <= 6)%nat ->
  In n (filter (fun x => (length x <=? 6)%nat) pool) \/ n = dflt ->
  forallb is_lower n = true /\ (3 <= length n <= 6)%nat.
Proof.
  intros Hpool Hdl Hdlen [Hin | ->]; [|tauto].
  apply filter_In in Hin. destruct Hin as [Hin Hle].
  apply Nat.leb_le in Hle. destruct (Hpool n Hin). split; [assumption|lia].
Qed.

(** The statements after the loop return an address of 6 to 12 units. *)
Lemma nameAddress_fallback_run (w : World) :
  exists a w',
    nameAddress_fallback w = (Returned a, w')
    /\ (6 <= length a <= 12)%nat
    /\ forallb name_char a = true.
Proof.
  unfold nameAddress_fallback. cbv zeta.
  destruct (pick_or_run (filter (fun n => (length n <=? 6)%nat) firstNames)
              (js "john") w) as (f & Hpickf & Hf).
  destruct (pick_or_run (filter (fun n => (length n <=? 6)%nat) lastNames)
              (js "doe") (advance_random w)) as (l & Hpickl & Hl).
  destruct (short_pool_name firstNames (js "john") f 11 firstNames_ok
              eq_refl ltac:(simpl; lia) Hf) as [Hflower Hflen].
  destruct (short_pool_name lastNames (js "doe") l 9 lastNames_ok
              eq_refl ltac:(simpl; lia) Hl) as [Hllower Hllen].
  destruct (formatNameAddress_run f l plain
              (advance_random (advance_random w)) Hflower Hllower)
    as (a & w' & Hfmt & Hchars & _ & Heq).
  rewrite (bind_run _ _ _ _ _ Hpickf), (bind_run _ _ _ _ _ Hpickl).
  exists a, w'. split; [exact Hfmt|]. split; [|exact Hchars].
  rewrite (Heq eq_refl), length_app. lia.
Qed.

(** C8: whatever [Math.random] answers, [generateNameAddress] returns, and
    the address it returns has 6 to 20 code units, all among [[a-z0-9._]].
    The loop is bounded by 50 turns; when no turn returns, the result is
    that of the statements after the loop, which return plain
    concatenations of names of at most 6 letters: these have 6 to 12 code
    units of the same alphabet, within the window. *)
Theorem generateNameAddress_valid (w : World) :
  (exists a w',
     generateNameAddress w = (Returned a, w')
     /\ (6 <= length a <= 20)%nat
     /\ (forall c, In c a -> in_name_class c))
  /\ maxAttempts = 50%nat
  /\ generateNameAddress w
     = match nameAddress_loop maxAttempts w with
       | (Returned (Some a), w') => (Returned a, w')
       | (Returned None, w') => nameAddress_fallback w'
       | (Thrown e, w') => (Thrown e, w')
       end
  /\ (exists a w',
        nameAddress_fallback w = (Returned a, w')
        /\ (6 <= length a <= 20)%nat
        /\ (forall c, In c a -> in_name_class c)).
Proof.
  split; [|split; [reflexivity|split]].
  - destruct (nameAddress_attempt_run w) as (a & w' & Hrun & Hlen & Hchars).
    exists a, w'. split; [|split].
    + unfold generateNameAddress, maxAttempts.
      assert (Hloop : nameAddress_loop 50 w = (Returned (Some a), w')).
      { change (nameAddress_loop 50 w)
          with (bind nameAddress_attempt
                  (fun found => match found with
                                | Some a0 => ret (Some a0)
                                | None => nameAddress_loop 49
                                end) w).
        now rewrite (bind_run _ _ _ _ _ Hrun). }
      now rewrite (bind_run _ _ _ _ _ Hloop).
    + now apply isValidLength_iff.
    + intros c Hc. apply name_char_class.
      rewrite forallb_forall in Hchars. now apply Hchars.
  - unfold generateNameAddress, bind.
    destruct (nameAddress_loop maxAttempts w) as [[[a|]|e] w'];
      reflexivity.
  - destruct (nameAddress_fallback_run w) as (a & w' & Hrun & Hlen & Hchars).
    exists a, w'. split; [exact Hrun|]. split; [lia|].
    intros c Hc. apply name_char_class.
    rewrite forallb_forall in Hchars. now apply Hchars.
Qed.

(** C8 run with every draw of [Math.random()] equal to 0: the address is
    "james.smith". *)
Lemma generateNameAddress_valid_witness :
  exists a w',
    generateNameAddress (sample_world [] 1000) = (Returned a, w')
    /\ a = js "james.smith"
    /\ (6 <= length a <= 20)%nat.
Proof.
  destruct (generateNameAddress_valid (sample_world [] 1000))
    as ((a & w' & Hrun & Hlen & _) & _).
  exists a, w'. split; [exact Hrun|]. split; [|exact Hlen].
  assert (Hfst : fst (generateNameAddress (sample_world [] 1000))
                 = Returned (js "james.smith")) by (vm_compute; reflexivity).
  rewrite Hrun in Hfst. simpl in Hfst. congruence.
Defined.

(** ** The creation handler *)

Lemma createMailbox_run (addr : JSString) (ty : AddressType) (hours : Z)
    (ip : JSString) (flag : option bool) (w : World) :
  fresh addr (uuids w (uuid_pos w)) (mailboxes w) ->
  let wants := truthy_flag flag && isPermanentAllowedForAddressType ty in
  let now := clock w (clock_pos w) in
  let expiry := if wants then PERMANENT_MAILBOX_SENTINEL
                else (clock w (S (clock_pos w)) + hours * 60 * 60)%Z in
  createMailbox (mkParams addr ty hours ip flag) w
  = (Returned (mkMailbox (uuids w (uuid_pos w)) addr ty now expiry ip now
                         (isPermanentMailbox expiry)),
     set_mailboxes
       (mailboxes w ++ [mkRow (uuids w (uuid_pos w)) addr ty now expiry
                              ip now])
       (advance_uuid (if wants then advance_clock w
                      else advance_clock (advance_clock w)))).
Proof.
  intros Hfresh wants now expiry. subst wants now expiry.
  unfold_store. cbn.
  destruct (truthy_flag flag && isPermanentAllowedForAddressType ty); cbn;
    rewrite (fresh_existsb _ _ _ Hfresh); reflexivity.
Qed.

Lemma parseAddressType_random : parseAddressType (js "random") = Some Random.
Proof. reflexivity. Qed.

Lemma defaults_to_random (field : option JSString) :
  field = Some (js "random") \/ field = None \/ field = Some [] ->
  parseAddressType (or_else field (js "random")) = Some Random.
Proof. intros [-> | [-> | ->]]; reflexivity. Qed.

(** C6: a creation request of class random (named, or left out and so
    defaulted) with [isPermanent: true] is answered 400 'Random mailboxes
    cannot be permanent'; nothing is created and the state of the worker
    is exactly what it was: no temporary mailbox is made in its place. *)
Theorem post_mailboxes_rejects_permanent_random (request : CreateRequest)
    (ip : option JSString) (w : World) :
  body_addressType request = Some (js "random")
  \/ body_addressType request = None
  \/ body_addressType request = Some [] ->
  body_isPermanent request = Some true ->
  post_mailboxes request ip w
  = (Returned (json_status
                 (Failure (Some Random_mailboxes_cannot_be_permanent)) 400),
     w).
Proof.
  intros Hclass Hperm. unfold post_mailboxes, try_catch.
  rewrite (defaults_to_random _ Hclass), Hperm. reflexivity.
Qed.

(** C6 on the sample table at time 2000, for the class named and for the
    class left out. *)
Lemma post_mailboxes_rejects_permanent_random_witness :
  post_mailboxes (mkRequest (Some (js "random")) (Some true) None) None
                 sample_early
  = (Returned (json_status
                 (Failure (Some Random_mailboxes_cannot_be_permanent)) 400),
     sample_early)
  /\ post_mailboxes (mkRequest None (Some true) (Some (js "mine"))) None
                    sample_early
     = (Returned (json_status
                    (Failure (Some Random_mailboxes_cannot_be_permanent)) 400),
        sample_early).
Proof.
  split.
  - apply post_mailboxes_rejects_permanent_random.
    + left. reflexivity.
    + reflexivity.
  - apply post_mailboxes_rejects_permanent_random.
    + right. left. reflexivity.
    + reflexivity.
Defined.

(** Below the handler, [createMailbox] itself does not refuse: asked for a
    permanent random mailbox it stores a temporary one. *)
Remark createMailbox_random_is_temporary :
  fst (createMailbox (mkParams (js "k3x9qa7bb") Random 24 (js "unknown")
                               (Some true)) (sample_world [] 1000))
  = Returned (mkMailbox (js "uuid-0") (js "k3x9qa7bb") Random 1000 87401
                        (js "unknown") 1000 false).
Proof. vm_compute. reflexivity. Qed.

Lemma validChar_lower_unit (c : CodeUnit) :
  validChar c = true -> validChar (lower_unit c) = true.
Proof.
  intros Hc. unfold lower_unit. destruct (is_upper c) eqn:Hup; [|exact Hc].
  unfold is_upper in Hup. apply andb_true_iff in Hup.
  destruct Hup as [H1 H2]. apply N.leb_le in H1. apply N.leb_le in H2.
  apply validChar_class. unfold in_address_class. lia.
Qed.

Lemma validateCustomAddress_valid_iff (a : JSString) :
  valid (validateCustomAddress a) = true
  <-> (3 <= length a <= 30)%nat /\ forallb validChar a = true.
Proof.
  unfold validateCustomAddress.
  destruct (Nat.ltb_spec (length a) 3); [simpl; split; [discriminate|lia]|].
  destruct (Nat.ltb_spec 30 (length a)); [simpl; split; [discriminate|lia]|].
  destruct a as [|c a]; [simpl in *; lia|].
  unfold validCharsRegex_test.
  destruct (forallb validChar (c :: a)); simpl; split;
    try discriminate; try tauto.
Qed.

Lemma validateCustomAddress_toLowerCase (a : JSString) :
  valid (validateCustomAddress a) = true ->
  valid (validateCustomAddress (toLowerCase a)) = true.
Proof.
  rewrite !validateCustomAddress_valid_iff, toLowerCase_length.
  intros [Hlen Hchars]. split; [exact Hlen|].
  unfold toLowerCase. rewrite forallb_forall in Hchars |- *.
  intros c Hc. apply in_map_iff in Hc. destruct Hc as (c0 & <- & Hc0).
  now apply validChar_lower_unit, Hchars.
Qed.

Lemma charAt_run (s : JSString) (i : nat) :
  (i < length s)%nat -> exists c, charAt s i = [c] /\ In c s.
Proof.
  intros Hi. unfold charAt.
  destruct (nth_error s i) as [c|] eqn:Hnth.
  - exists c. split; [reflexivity|]. eapply nth_error_In; eassumption.
  - apply nth_error_None in Hnth. lia.
Qed.

Lemma randomAddress_loop_run (remaining : nat) :
  forall (result : JSString) (w : World),
    exists suffix w',
      randomAddress_loop remaining result w
      = (Returned (result ++ suffix), w')
      /\ length suffix = remaining
      /\ forallb random_char suffix = true.
Proof.
  induction remaining as [|remaining IH]; intros result w.
  - exists [], w. rewrite app_nil_r. repeat split.
  - destruct (Math_random_run w) as (r & Hrun & Hr).
    destruct (charAt_run alphanumeric (floor_times r (length alphanumeric)))
      as (c & Hc & Hin).
    { apply floor_times_lt; [exact Hr | vm_compute; lia]. }
    destruct (IH (result ++ [c]) (advance_random w))
      as (suffix & w' & Hloop & Hlen & Hchars).
    exists (c :: suffix), w'. split; [|split].
    + change (randomAddress_loop (S remaining) result w)
        with (bind Math_random
                (fun r' => randomAddress_loop remaining
                   (result ++ charAt alphanumeric
                                (floor_times r' (length alphanumeric)))) w).
      rewrite (bind_run _ _ _ _ _ Hrun), Hc, Hloop.
      now rewrite <- app_assoc.
    + simpl. now rewrite Hlen.
    + simpl. rewrite Hchars, andb_true_r.
      assert (Hall : forallb random_char alphanumeric = true)
        by (vm_compute; reflexivity).
      rewrite forallb_forall in Hall. now apply Hall.
Qed.

(** The postconditions of the random generator: 8 to 12 code units of
    [[a-z0-9]], the first a letter. *)
Lemma generateRandomAddress_run (w : World) :
  exists c rest w',
    generateRandomAddress w = (Returned (c :: rest), w')
    /\ (8 <= length (c :: rest) <= 12)%nat
    /\ is_lower c = true
    /\ forallb random_char rest = true.
Proof.
  destruct (Math_random_run w) as (r0 & Hrun0 & Hr0).
  destruct (Math_random_run (advance_random w)) as (r1 & Hrun1 & Hr1).
  destruct (charAt_run letters (floor_times r1 (length letters)))
    as (c & Hc & Hin).
  { apply floor_times_lt; [exact Hr1 | vm_compute; lia]. }
  destruct (randomAddress_loop_run (floor_times r0 5 + 8 - 1) [c]
              (advance_random (advance_random w)))
    as (suffix & w' & Hloop & Hlen & Hchars).
  exists c, suffix, w'. split; [|split; [|split]].
  - unfold generateRandomAddress.
    rewrite (bind_run _ _ _ _ _ Hrun0), (bind_run _ _ _ _ _ Hrun1), Hc.
    exact Hloop.
  - pose proof (floor_times_lt r0 5 Hr0 ltac:(lia)). simpl. lia.
  - assert (Hall : forallb is_lower letters = true)
      by (vm_compute; reflexivity).
    rewrite forallb_forall in Hall. now apply Hall.
  - exact Hchars.
Qed.

Lemma Math_random_rows (w w' : World) (r : N) :
  Math_random w = (Returned r, w') -> mailboxes w' = mailboxes w.
Proof. unfold Math_random. intros H. inversion H. reflexivity. Qed.

Lemma randomAddress_loop_rows (remaining : nat) :
  forall (result a : JSString) (w w' : World),
    randomAddress_loop remaining result w = (Returned a, w') ->
    mailboxes w' = mailboxes w.
Proof.
  induction remaining as [|remaining IH]; intros result a w w' Hrun.
  - inversion Hrun. reflexivity.
  - destruct (Math_random_run w) as (r & Hr & _).
    change (randomAddress_loop (S remaining) result w)
      with (bind Math_random
              (fun r' => randomAddress_loop remaining
                 (result ++ charAt alphanumeric
                              (floor_times r' (length alphanumeric)))) w)
      in Hrun.
    rewrite (bind_run _ _ _ _ _ Hr) in Hrun.
    now rewrite (IH _ _ _ _ Hrun).
Qed.

Lemma generateRandomAddress_rows (a : JSString) (w w' : World) :
  generateRandomAddress w = (Returned a, w') -> mailboxes w' = mailboxes w.
Proof.
  intros Hrun. unfold generateRandomAddress in Hrun.
  destruct (Math_random_run w) as (r0 & Hr0 & _).
  destruct (Math_random_run (advance_random w)) as (r1 & Hr1 & _).
  rewrite (bind_run _ _ _ _ _ Hr0), (bind_run _ _ _ _ _ Hr1) in Hrun.
  now rewrite (randomAddress_loop_rows _ _ _ _ _ Hrun).
Qed.

Lemma fresh_find_none (addr newId : JSString) (now : Z) (rows : list Row) :
  fresh addr newId rows -> find (live_row addr now) rows = None.
Proof.
  intros Hfresh.
  destruct (find (live_row addr now) rows) as [r|] eqn:Hfind; [|reflexivity].
  apply find_some in Hfind. destruct Hfind as [Hin Hlive].
  apply live_row_iff in Hlive. destruct (Hfresh r Hin). tauto.
Qed.

(** Whatever the class, when the lookup of the chosen address finds a live
    mailbox the handler answers at once. *)
Lemma post_mailboxes_collision (request : CreateRequest)
    (ip : option JSString) (ty : AddressType) (a : JSString) (m : Mailbox)
    (w w1 w2 : World) :
  parseAddressType (or_else (body_addressType request) (js "random"))
  = Some ty ->
  truthy_flag (body_isPermanent request) && AddressType_eqb ty Random
  = false ->
  chooseAddress ty request w = (Returned (inr a), w1) ->
  getMailbox a w1 = (Returned (Some m), w2) ->
  post_mailboxes request ip w
  = (Returned (json_status (Failure (Some Address_already_exists)) 400), w2).
Proof.
  intros Hty Hperm Hchoose Hget. unfold post_mailboxes, try_catch.
  rewrite Hty, Hperm, (bind_run _ _ _ _ _ Hchoose),
    (bind_run _ _ _ _ _ Hget).
  reflexivity.
Qed.

(** C7, as the code has it for the classes random and custom: when the
    lookup of the chosen address (generated, or supplied by the caller)
    finds a live mailbox, the handler answers 400 "the mailbox address
    already exists" at once; the state is the one left by the single
    choice of address and the single lookup: nothing is generated again,
    nothing is created, and no other error is raised. *)
Theorem post_mailboxes_collision_direct (request : CreateRequest)
    (ip : option JSString) (ty : AddressType) (a : JSString) (m : Mailbox)
    (w w1 w2 : World) :
  ty = Random \/ ty = Custom ->
  parseAddressType (or_else (body_addressType request) (js "random"))
  = Some ty ->
  truthy_flag (body_isPermanent request) && AddressType_eqb ty Random
  = false ->
  chooseAddress ty request w = (Returned (inr a), w1) ->
  getMailbox a w1 = (Returned (Some m), w2) ->
  post_mailboxes request ip w
  = (Returned (json_status (Failure (Some Address_already_exists)) 400), w2)
  /\ random_pos w2 = random_pos w1
  /\ length (mailboxes w2) = length (mailboxes w).
Proof.
  intros Hclass Hty Hperm Hchoose Hget.
  split; [now apply (post_mailboxes_collision request ip ty a m w w1 w2)|].
  assert (Hrows : mailboxes w1 = mailboxes w).
  { destruct Hclass as [-> | ->]; unfold chooseAddress in Hchoose.
    - destruct (body_address request) as [[|c s]|].
      + destruct (generateRandomAddress_run w)
          as (c' & rest & w' & Hrun & _).
        rewrite (bind_run _ _ _ _ _ Hrun) in Hchoose.
        inversion Hchoose; subst.
        clear - Hrun. revert Hrun. apply generateRandomAddress_rows.
      + destruct (negb (valid (validateCustomAddress (c :: s))));
          inversion Hchoose; reflexivity.
      + destruct (generateRandomAddress_run w)
          as (c' & rest & w' & Hrun & _).
        rewrite (bind_run _ _ _ _ _ Hrun) in Hchoose.
        inversion Hchoose; subst.
        clear - Hrun. revert Hrun. apply generateRandomAddress_rows.
    - destruct (body_address request) as [[|c s]|];
        try (inversion Hchoose; fail).
      destruct (negb (valid (validateCustomAddress (c :: s))));
        inversion Hchoose; reflexivity. }
  destruct (find (live_row a (clock w1 (clock_pos w1))) (mailboxes w1))
    as [row|] eqn:Hfind.
  - rewrite (getMailbox_hit a w1 row Hfind) in Hget.
    inversion Hget; subst. cbn [random_pos mailboxes set_mailboxes
                                advance_clock].
    split; [reflexivity|].
    unfold touched. now rewrite length_map, Hrows.
  - rewrite (getMailbox_miss a w1 Hfind) in Hget. discriminate.
Qed.

(** C7 on a table where "aaaaaaaa" and "taken" are live: the random
    address generated from draws that are all 0, and the custom address
    "Taken", are answered 400 at once. *)
Lemma post_mailboxes_collision_direct_witness :
  fst (post_mailboxes (mkRequest (Some (js "random")) None None) None
                      sample_collision)
  = Returned (json_status (Failure (Some Address_already_exists)) 400)
  /\ fst (post_mailboxes (mkRequest (Some (js "custom")) None
                                    (Some (js "Taken"))) None
                         sample_collision)
     = Returned (json_status (Failure (Some Address_already_exists)) 400).
Proof.
  split.
  - destruct (generateRandomAddress_run sample_collision)
      as (c & rest & w1 & Hrun & _).
    assert (Ha : c :: rest = js "aaaaaaaa").
    { assert (H : fst (generateRandomAddress sample_collision)
                  = Returned (js "aaaaaaaa")) by (vm_compute; reflexivity).
      rewrite Hrun in H. simpl in H. congruence. }
    assert (Hrows : mailboxes w1 = mailboxes sample_collision)
      by (exact (generateRandomAddress_rows _ _ _ Hrun)).
    assert (Hclock : clock w1 (clock_pos w1) = 2000%Z).
    { assert (H : (let w' := snd (generateRandomAddress sample_collision) in
                   clock w' (clock_pos w')) = 2000%Z)
        by (vm_compute; reflexivity).
      rewrite Hrun in H. exact H. }
    assert (Hfind : find (live_row (js "aaaaaaaa") (clock w1 (clock_pos w1)))
                         (mailboxes w1) = Some row_aaaaaaaa).
    { rewrite Hrows, Hclock. vm_compute. reflexivity. }
    rewrite (proj1 (post_mailboxes_collision_direct
               (mkRequest (Some (js "random")) None None) None Random
               (js "aaaaaaaa") _ sample_collision w1 _
               (or_introl eq_refl) eq_refl eq_refl
               ltac:(unfold chooseAddress; cbn [body_address];
                     rewrite (bind_run _ _ _ _ _ Hrun), Ha; reflexivity)
               (getMailbox_hit (js "aaaaaaaa") w1 row_aaaaaaaa Hfind))).
    reflexivity.
  - rewrite (proj1 (post_mailboxes_collision_direct
               (mkRequest (Some (js "custom")) None (Some (js "Taken")))
               None Custom (js "taken") _ sample_collision sample_collision _
               (or_intror eq_refl) eq_refl eq_refl eq_refl
               (getMailbox_hit (js "taken") sample_collision row_taken
                  eq_refl))).
    reflexivity.
Defined.

(** C7 as stated fails for the class random: on a table where the address
    generated from draws that are all 0 is live, the request is answered
    400 "the mailbox address already exists" after one generation (9
    draws of [Math.random]) and one lookup; no second candidate is
    generated and the table gets no row. *)
Lemma post_mailboxes_random_collision_not_retried :
  fst (post_mailboxes (mkRequest (Some (js "random")) None None) None
                      sample_collision)
  = Returned (json_status (Failure (Some Address_already_exists)) 400)
  /\ random_pos (snd (post_mailboxes
                        (mkRequest (Some (js "random")) None None)
                        None sample_collision)) = 9%nat
  /\ clock_pos (snd (post_mailboxes
                       (mkRequest (Some (js "random")) None None)
                       None sample_collision)) = 1%nat
  /\ length (mailboxes
               (snd (post_mailboxes
                       (mkRequest (Some (js "random")) None None)
                       None sample_collision))) = 3%nat.
Proof. vm_compute. repeat split; reflexivity. Qed.

(** The class name is handled by the same statements: a live
    "james.smith" is answered 400 after one generation (3 draws) and is
    not generated again either. *)
Remark post_mailboxes_name_collision_not_retried :
  fst (post_mailboxes (mkRequest (Some (js "name")) None None) None
                      sample_collision)
  = Returned (json_status (Failure (Some Address_already_exists)) 400)
  /\ random_pos (snd (post_mailboxes
                        (mkRequest (Some (js "name")) None None)
                        None sample_collision)) = 3%nat
  /\ clock_pos (snd (post_mailboxes
                       (mkRequest (Some (js "name")) None None)
                       None sample_collision)) = 1%nat.
Proof. vm_compute. repeat split; reflexivity. Qed.

(** C10: in a creation request of class random (named, or left out and so
    defaulted) that does not ask for permanence, a non-empty [address] of
    the body replaces the random generator, which is not called (no draw
    of [Math.random] is consumed): the address is checked by
    [validateCustomAddress] and refused with 400 when invalid; otherwise
    its lower-cased form, which has the same length and passes the same
    rules, is looked up and, when free, stored as the address of a mailbox
    of class random. *)
Theorem post_mailboxes_random_supplied_address (c : CodeUnit) (s : JSString)
    (class : option JSString) (flag : option bool) (ip : option JSString)
    (w : World) :
  class = Some (js "random") \/ class = None \/ class = Some [] ->
  truthy_flag flag = false ->
  let supplied := c :: s in
  let stored := toLowerCase supplied in
  let out := post_mailboxes (mkRequest class flag (Some supplied)) ip w in
  (valid (validateCustomAddress supplied) = false ->
   out = (Returned
            (json_status
               (Failure (Some (Invalid_address_format
                                 (error (validateCustomAddress supplied)))))
               400), w))
  /\ (valid (validateCustomAddress supplied) = true ->
      random_pos (snd out) = random_pos w
      /\ length stored = length supplied
      /\ valid (validateCustomAddress stored) = true
      /\ ((exists r, In r (mailboxes w)
                     /\ live_row stored (clock w (clock_pos w)) r = true) ->
          fst out
          = Returned (json_status (Failure (Some Address_already_exists))
                                  400))
      /\ (fresh stored (uuids w (uuid_pos w)) (mailboxes w) ->
          exists m,
            fst out = Returned (json (SuccessMailbox None (Some m)))
            /\ mailbox_address m = stored
            /\ addressType m = Random
            /\ mailboxes (snd out)
               = mailboxes w
                 ++ [mkRow (mailbox_id m) stored Random (createdAt m)
                           (expiresAt m) (or_else ip (js "unknown"))
                           (lastAccessed m)])).
Proof.
  intros Hclass Hflag supplied stored out.
  assert (Hout : out
    = try_catch
        (chosen <- chooseAddress Random
                                 (mkRequest class flag (Some supplied)) ;;
         match chosen with
         | inl response => ret response
         | inr address =>
             existingMailbox <- getMailbox address ;;
             match existingMailbox with
             | Some _ =>
                 ret (json_status (Failure (Some Address_already_exists)) 400)
             | None =>
                 mailbox <- createMailbox
                              (mkParams address Random 24
                                        (or_else ip (js "unknown"))
                                        (Some false)) ;;
                 ret (json (SuccessMailbox None (Some mailbox)))
             end
         end)
        (fun _ => ret (json_status (Failure (Some Create_mailbox_failed)) 400))
        w).
  { subst out. unfold post_mailboxes. cbn [body_addressType body_isPermanent].
    rewrite (defaults_to_random _ Hclass), Hflag. reflexivity. }
  assert (Hchoose : chooseAddress Random (mkRequest class flag (Some supplied))
                    = if negb (valid (validateCustomAddress supplied))
                      then ret (inl (json_status
                             (Failure (Some (Invalid_address_format
                                (error (validateCustomAddress supplied)))))
                             400))
                      else ret (inr stored)).
  { reflexivity. }
  rewrite Hchoose in Hout. clear Hchoose.
  split.
  - intros Hinvalid. rewrite Hout, Hinvalid. reflexivity.
  - intros Hvalid. rewrite Hvalid in Hout. cbn [negb] in Hout.
    unfold try_catch in Hout. unfold bind at 1 in Hout.
    unfold ret at 1 in Hout.
    destruct (find (live_row stored (clock w (clock_pos w))) (mailboxes w))
      as [row|] eqn:Hfind.
    + rewrite (bind_run _ _ _ _ _ (getMailbox_hit stored w row Hfind)) in Hout.
      unfold ret in Hout. rewrite Hout. cbn [fst snd].
      split; [reflexivity|]. split; [apply toLowerCase_length|].
      split; [now apply validateCustomAddress_toLowerCase|].
      split; [reflexivity|].
      intros Hfresh. rewrite (fresh_find_none _ _ _ _ Hfresh) in Hfind.
      discriminate.
    + rewrite (bind_run _ _ _ _ _ (getMailbox_miss stored w Hfind)) in Hout.
      split; [|split; [apply toLowerCase_length|
               split; [now apply validateCustomAddress_toLowerCase|split]]].
      * rewrite Hout. unfold bind.
        destruct (createMailbox _ (advance_clock w)) as [[m|e] w'] eqn:Hcreate.
        -- unfold createMailbox, bind, getCurrentTimestamp,
             calculateMailboxExpiry, generateId, sql_insert, ret in Hcreate.
           cbn in Hcreate.
           destruct (existsb _ _) in Hcreate; inversion Hcreate; reflexivity.
        -- unfold createMailbox, bind, getCurrentTimestamp,
             calculateMailboxExpiry, generateId, sql_insert, ret in Hcreate.
           cbn in Hcreate.
           destruct (existsb _ _) in Hcreate; inversion Hcreate; reflexivity.
      * intros (r & Hin & Hlive).
        pose proof (find_none _ _ Hfind r Hin). congruence.
      * intros Hfresh.
        pose proof (createMailbox_run stored Random 24
                      (or_else ip (js "unknown")) (Some false)
                      (advance_clock w) Hfresh) as Hcreate.
        cbv zeta in Hcreate. cbn [truthy_flag andb] in Hcreate.
        rewrite (bind_run _ _ _ _ _ Hcreate) in Hout.
        rewrite Hout. eexists. split; [reflexivity|].
        split; [reflexivity|]. split; reflexivity.
Qed.

(** C10 on the sample table at time 2000: a request without class that
    supplies "9Ab" creates the random-class mailbox "9ab", of 3 code units
    and with a leading digit, where the generator gives 8 to 12 units
    after a letter; and "a b" is refused. *)
Lemma post_mailboxes_random_supplied_address_witness :
  (exists m,
     fst (post_mailboxes (mkRequest None None (Some (js "9Ab"))) None
                         sample_early)
     = Returned (json (SuccessMailbox None (Some m)))
     /\ mailbox_address m = js "9ab"
     /\ addressType m = Random)
  /\ post_mailboxes (mkRequest (Some (js "random")) (Some false)
                               (Some (js "a b"))) None sample_early
     = (Returned (json_status
                    (Failure (Some (Invalid_address_format
                                      (Some InvalidCharacters)))) 400),
        sample_early).
Proof.
  split.
  - destruct (post_mailboxes_random_supplied_address 57%N (js "Ab") None None
                None sample_early (or_intror (or_introl eq_refl)) eq_refl)
      as [_ Hvalid].
    destruct (Hvalid eq_refl) as (_ & _ & _ & _ & Hfresh).
    destruct Hfresh as (m & Hm & Haddr & Hty & _).
    + intros r Hr. vm_compute in Hr.
      destruct Hr as [<- | [<- | [<- | []]]]; split; discriminate.
    + exists m. auto.
  - apply (post_mailboxes_random_supplied_address 97%N (js " b")
             (Some (js "random")) (Some false) None sample_early).
    + left. reflexivity.
    + reflexivity.
    + reflexivity.
Defined.

(** ** The uniqueness constraint is an invariant of the store *)

Lemma unique_filter (p : Row -> bool) (rows : list Row) :
  unique_addresses rows -> unique_addresses (filter p rows).
Proof.
  unfold unique_addresses. induction rows as [|r rows IH]; [trivial|].
  simpl. intros Hnd. inversion Hnd as [|? ? Hnotin Hnd']; subst.
  destruct (p r); [|now apply IH].
  simpl. constructor; [|now apply IH].
  intros Hin. apply Hnotin. apply in_map_iff in Hin.
  destruct Hin as (x & Hx & Hin). apply filter_In in Hin.
  apply in_map_iff. exists x. tauto.
Qed.

Lemma unique_insert (r : Row) (rows : list Row) :
  unique_addresses rows ->
  existsb (fun r' => JS.eqb (id r') (id r) || JS.eqb (address r') (address r))
          rows = false ->
  unique_addresses (rows ++ [r]).
Proof.
  unfold unique_addresses. intros Hnd Hnew.
  rewrite map_app. simpl.
  apply NoDup_app; [exact Hnd | repeat constructor; intros [] |].
  intros a Ha [<- | []]. apply in_map_iff in Ha.
  destruct Ha as (x & Hx & Hin).
  assert (Hex : existsb (fun r' => JS.eqb (id r') (id r)
                                   || JS.eqb (address r') (address r)) rows
                = true).
  { apply existsb_exists. exists x. split; [exact Hin|].
    rewrite (proj2 (eqb_eq _ _) Hx). apply orb_true_r. }
  congruence.
Qed.

(** Every operation of the store keeps the addresses of the table
    pairwise distinct, as the schema's [UNIQUE] demands: the hypothesis of
    the case analyses above holds in every state the worker reaches from
    an empty table. *)
Lemma store_keeps_unique_addresses (w : World) :
  unique_addresses (mailboxes w) ->
  (forall params,
     unique_addresses (mailboxes (snd (createMailbox params w))))
  /\ (forall addr, unique_addresses (mailboxes (snd (getMailbox addr w))))
  /\ (forall addr,
        unique_addresses (mailboxes (snd (convertMailboxToPermanent addr w))))
  /\ (forall addr, unique_addresses (mailboxes (snd (deleteMailbox addr w))))
  /\ unique_addresses (mailboxes (snd (cleanupExpiredMailboxes w))).
Proof.
  intros Huniq. split; [|split; [|split; [|split]]].
  - intros [addr ty hours ip flag]. unfold_store. cbn.
    destruct (truthy_flag flag && isPermanentAllowedForAddressType ty); cbn.
    + match goal with
      | |- context [existsb ?p ?l] => destruct (existsb p l) eqn:Hex
      end; cbn; [exact Huniq|].
      now apply (unique_insert
                   (mkRow (uuids w (uuid_pos w)) addr ty
                          (clock w (clock_pos w)) PERMANENT_MAILBOX_SENTINEL
                          ip (clock w (clock_pos w)))).
    + match goal with
      | |- context [existsb ?p ?l] => destruct (existsb p l) eqn:Hex
      end; cbn; [exact Huniq|].
      now apply (unique_insert
                   (mkRow (uuids w (uuid_pos w)) addr ty
                          (clock w (clock_pos w))
                          (clock w (S (clock_pos w)) + hours * 60 * 60)
                          ip (clock w (clock_pos w)))).
  - intros addr.
    destruct (find (live_row addr (clock w (clock_pos w))) (mailboxes w))
      as [row|] eqn:Hfind.
    + rewrite (getMailbox_hit addr w row Hfind). now apply unique_touched.
    + rewrite (getMailbox_miss addr w Hfind). exact Huniq.
  - intros addr. rewrite convertMailboxToPermanent_run.
    now apply unique_converted.
  - intros addr. rewrite deleteMailbox_run.
    destruct (find (live_row addr (clock w (clock_pos w))) (mailboxes w))
      as [row|]; [|exact Huniq].
    destruct (isPermanentMailbox (expires_at row)).
    + now apply unique_touched.
    + now apply unique_filter, unique_touched.
  - destruct (cleanupExpiredMailboxes_run w) as (w' & Hrun & Hrows).
    rewrite Hrun. cbn [snd]. rewrite Hrows. now apply unique_filter.
Qed.

(** * Further properties of the worker *)

(** ** The random generators of [utils.ts] *)

Lemma random_char_validChar (c : CodeUnit) :
  random_char c = true -> validChar c = true.
Proof.
  unfold random_char, validChar. intros H.
  apply orb_true_iff in H. destruct H as [-> | ->]; simpl;
    rewrite ?orb_true_r; reflexivity.
Qed.

Lemma random_char_lower_unit (c : CodeUnit) :
  random_char c = true -> lower_unit c = c.
Proof.
  unfold random_char, lower_unit, is_lower, is_digit, is_upper. intros H.
  destruct ((65 <=? c)%N && (c <=? 90)%N) eqn:Hup; [|reflexivity].
  apply andb_true_iff in Hup. destruct Hup as [H1 H2].
  apply N.leb_le in H1. apply N.leb_le in H2.
  apply orb_true_iff in H. destruct H as [H | H];
    apply andb_true_iff in H; destruct H as [H3 H4];
    apply N.leb_le in H3; apply N.leb_le in H4; lia.
Qed.

Lemma random_char_class (c : CodeUnit) :
  random_char c = true <-> (97 <= c <= 122 \/ 48 <= c <= 57)%N.
Proof.
  unfold random_char, is_lower, is_digit.
  rewrite orb_true_iff, !andb_true_iff, !N.leb_le. tauto.
Qed.

(** X1: [generateRandomAddress] always returns; its address has 8 to 12
    code units, the first a lower-case letter and all of them lower-case
    letters or digits; it passes [validateCustomAddress], lower-casing
    leaves it as it is, and the table is not touched. *)
Theorem generateRandomAddress_postconditions (w : World) :
  exists c rest w',
    generateRandomAddress w = (Returned (c :: rest), w')
    /\ (8 <= length (c :: rest) <= 12)%nat
    /\ (97 <= c <= 122)%N
    /\ (forall x, In x (c :: rest) ->
                  (97 <= x <= 122 \/ 48 <= x <= 57)%N)
    /\ validateCustomAddress (c :: rest) = mkValidation true None
    /\ toLowerCase (c :: rest) = c :: rest
    /\ mailboxes w' = mailboxes w.
Proof.
  destruct (generateRandomAddress_run w)
    as (c & rest & w' & Hrun & Hlen & Hc & Hrest).
  assert (Hall : forallb random_char (c :: rest) = true).
  { simpl. rewrite Hrest, andb_true_r. unfold random_char. now rewrite Hc. }
  exists c, rest, w'. split; [exact Hrun|]. split; [exact Hlen|].
  split; [|split; [|split; [|split]]].
  - unfold is_lower in Hc. apply andb_true_iff in Hc.
    rewrite !N.leb_le in Hc. exact Hc.
  - intros x Hx. apply random_char_class.
    rewrite forallb_forall in Hall. now apply Hall.
  - assert (Hv : valid (validateCustomAddress (c :: rest)) = true).
    { apply validateCustomAddress_valid_iff. split; [lia|].
      rewrite forallb_forall in Hall |- *. intros x Hx.
      now apply random_char_validChar, Hall. }
    revert Hv. unfold validateCustomAddress.
    destruct (length (c :: rest) <? 3)%nat; [discriminate|].
    destruct (30 <? length (c :: rest))%nat; [discriminate|].
    destruct (negb (validCharsRegex_test (c :: rest))); [discriminate|].
    reflexivity.
  - unfold toLowerCase. rewrite <- (map_id (c :: rest)) at 2.
    apply map_ext_in. intros x Hx. apply random_char_lower_unit.
    rewrite forallb_forall in Hall. now apply Hall.
  - exact (generateRandomAddress_rows _ _ _ Hrun).
Qed.

Lemma randomString_loop_run (remaining : nat) :
  forall (result : JSString) (w : World),
    exists suffix w',
      randomString_loop remaining result w
      = (Returned (result ++ suffix), w')
      /\ length suffix = remaining
      /\ forallb random_char suffix = true
      /\ random_pos w' = (random_pos w + remaining)%nat
      /\ mailboxes w' = mailboxes w.
Proof.
  induction remaining as [|remaining IH]; intros result w.
  - exists [], w. rewrite app_nil_r. repeat split. lia.
  - destruct (Math_random_run w) as (r & Hrun & Hr).
    destruct (charAt_run alphanumeric (floor_times r (length alphanumeric)))
      as (c & Hc & Hin).
    { apply floor_times_lt; [exact Hr | vm_compute; lia]. }
    destruct (IH (result ++ [c]) (advance_random w))
      as (suffix & w' & Hloop & Hlen & Hchars & Hpos & Hrows).
    exists (c :: suffix), w'. split; [|split; [|split; [|split]]].
    + change (randomString_loop (S remaining) result w)
        with (bind Math_random
                (fun r' => randomString_loop remaining
                   (result ++ charAt alphanumeric
                                (floor_times r' (length alphanumeric)))) w).
      rewrite (bind_run _ _ _ _ _ Hrun), Hc, Hloop.
      now rewrite <- app_assoc.
    + simpl. now rewrite Hlen.
    + simpl. rewrite Hchars, andb_true_r.
      assert (Hall : forallb random_char alphanumeric = true)
        by (vm_compute; reflexivity).
      rewrite forallb_forall in Hall. now apply Hall.
    + rewrite Hpos. cbn [random_pos advance_random]. lia.
    + rewrite Hrows. reflexivity.
Qed.

(** X2: [generateRandomString(length)] returns exactly [length] code
    units, each a lower-case letter or a digit, after exactly [length]
    draws of [Math.random]; for a length of zero or less it returns the
    empty string without drawing. *)
Theorem generateRandomString_exact (len : Z) (w : World) :
  exists a w',
    generateRandomString len w = (Returned a, w')
    /\ length a = Z.to_nat len
    /\ (forall x, In x a -> (97 <= x <= 122 \/ 48 <= x <= 57)%N)
    /\ random_pos w' = (random_pos w + Z.to_nat len)%nat
    /\ ((len <= 0)%Z -> a = [] /\ w' = w).
Proof.
  destruct (randomString_loop_run (Z.to_nat len) [] w)
    as (a & w' & Hrun & Hlen & Hchars & Hpos & _).
  exists a, w'. split; [exact Hrun|]. split; [exact Hlen|].
  split; [|split; [exact Hpos|]].
  - intros x Hx. apply random_char_class.
    rewrite forallb_forall in Hchars. now apply Hchars.
  - intros Hneg. unfold generateRandomString in Hrun.
    assert (Hz : Z.to_nat len = 0%nat) by lia.
    rewrite Hz in Hrun. simpl in Hrun. unfold ret in Hrun.
    inversion Hrun. auto.
Qed.

(** ** Addresses with a domain *)

Lemma split_head (sep : CodeUnit) (s : JSString) :
  exists first pieces, split sep s = first :: pieces.
Proof.
  induction s as [|c s (first & pieces & IH)]; simpl; [eauto|].
  destruct (N.eqb c sep); [eauto|]. rewrite IH. eauto.
Qed.

Lemma extractMailboxName_cons (c : CodeUnit) (s : JSString) :
  extractMailboxName (c :: s)
  = if N.eqb c AT then [] else c :: extractMailboxName s.
Proof.
  unfold extractMailboxName. simpl.
  destruct (N.eqb c AT); [reflexivity|].
  destruct (split_head AT s) as (first & pieces & ->). reflexivity.
Qed.

Lemma extractMailboxName_before_at (name domain : JSString) :
  ~ In AT name -> extractMailboxName (name ++ AT :: domain) = name.
Proof.
  induction name as [|c name IH]; intros Hnot; [reflexivity|].
  simpl. rewrite extractMailboxName_cons.
  destruct (N.eqb_spec c AT) as [-> | Hne].
  - exfalso. apply Hnot. now left.
  - f_equal. apply IH. intros Hin. apply Hnot. now right.
Qed.

(** X3: [extractMailboxName] returns the part of the address before its
    first '@': a prefix of the address without any '@', the whole address
    when it has no '@' (the empty string for the empty string), and [name]
    again for [name@domain] whenever [name] has no '@'. *)
Theorem extractMailboxName_prefix (address : JSString) :
  (exists rest, address = extractMailboxName address ++ rest
                /\ (rest = [] \/ exists domain, rest = AT :: domain))
  /\ ~ In AT (extractMailboxName address)
  /\ (~ In AT address -> extractMailboxName address = address)
  /\ (forall name domain,
        ~ In AT name -> address = name ++ AT :: domain ->
        extractMailboxName address = name).
Proof.
  split; [|split; [|split]].
  - induction address as [|c s (rest & IH & Hrest)].
    + exists []. split; [reflexivity|]. now left.
    + rewrite extractMailboxName_cons.
      destruct (N.eqb_spec c AT) as [-> | Hne].
      * exists (AT :: s). split; [reflexivity|]. right. eauto.
      * exists rest. split; [|exact Hrest]. simpl. now rewrite <- IH.
  - induction address as [|c s IH]; [intros []|].
    rewrite extractMailboxName_cons.
    destruct (N.eqb_spec c AT) as [-> | Hne]; [intros []|].
    intros [Hc | Hin]; [congruence | now apply IH].
  - induction address as [|c s IH]; [reflexivity|].
    intros Hnot. rewrite extractMailboxName_cons.
    destruct (N.eqb_spec c AT) as [-> | Hne].
    + exfalso. apply Hnot. now left.
    + rewrite IH; [reflexivity|]. intros Hin. apply Hnot. now right.
  - intros name domain Hnot ->. now apply extractMailboxName_before_at.
Qed.

(** The name before the domain of "amy.lee@mail.example.com". *)
Lemma extractMailboxName_prefix_witness :
  extractMailboxName (js "amy.lee@mail.example.com") = js "amy.lee".
Proof.
  apply (proj2 (proj2 (proj2
           (extractMailboxName_prefix (js "amy.lee@mail.example.com"))))
           (js "amy.lee") (js "mail.example.com")).
  - cbv. intuition discriminate.
  - reflexivity.
Defined.

(** *** Matching by derivatives is matching *)

Lemma nullable_Matches (r : Regex) : nullable r = true <-> Matches r [].
Proof.
  split.
  - induction r; simpl; intros H; try discriminate.
    + constructor.
    + apply andb_true_iff in H. destruct H as [H1 H2].
      change (@nil CodeUnit) with (@nil CodeUnit ++ []).
      constructor; auto.
    + apply orb_true_iff in H. destruct H as [H | H];
        [apply M_AltL | apply M_AltR]; auto.
    + constructor.
  - intros H. remember [] as s eqn:Hs.
    induction H; subst; simpl; try discriminate; try reflexivity.
    + apply app_eq_nil in Hs. destruct Hs as [-> ->].
      now rewrite IHMatches1, IHMatches2.
    + now rewrite IHMatches.
    + rewrite IHMatches; [apply orb_true_r | reflexivity].
Qed.

Lemma deriv_Matches (r : Regex) :
  forall (c : CodeUnit) (s : JSString),
    Matches (deriv c r) s <-> Matches r (c :: s).
Proof.
  intros c s. split.
  - revert s. induction r; simpl; intros s H.
    + inversion H.
    + inversion H.
    + destruct (p c) eqn:Hp; inversion H; subst. now constructor.
    + assert (Hseq : Matches (Seq (deriv c r1) r2) s ->
                     Matches (Seq r1 r2) (c :: s)).
      { intros Hs. inversion Hs; subst.
        change (c :: s1 ++ s2) with ((c :: s1) ++ s2). constructor; auto. }
      destruct (nullable r1) eqn:Hnull; [|now apply Hseq].
      inversion H; subst; [now apply Hseq|].
      change (c :: s) with ([] ++ c :: s). constructor; auto.
      now apply nullable_Matches.
    + inversion H; subst; [apply M_AltL | apply M_AltR]; auto.
    + inversion H; subst.
      change (c :: s1 ++ s2) with ((c :: s1) ++ s2). constructor; auto.
  - intros H. remember (c :: s) as cs eqn:Hcs. revert c s Hcs.
    induction H; intros c0 s0 Hcs; try discriminate.
    + inversion Hcs; subst. simpl. rewrite H. constructor.
    + simpl. destruct s1 as [|c1 s1].
      * simpl in Hcs. subst s2.
        assert (Hnull : nullable r1 = true) by now apply nullable_Matches.
        rewrite Hnull. apply M_AltR. now apply IHMatches2.
      * simpl in Hcs. inversion Hcs; subst.
        assert (Hseq : Matches (Seq (deriv c0 r1) r2) (s1 ++ s2)).
        { constructor; [now apply IHMatches1 | exact H0]. }
        destruct (nullable r1); [now apply M_AltL | exact Hseq].
    + simpl. apply M_AltL. now apply IHMatches.
    + simpl. apply M_AltR. now apply IHMatches.
    + destruct s1 as [|c1 s1].
      * simpl in Hcs. now apply IHMatches2.
      * simpl in Hcs. inversion Hcs; subst. simpl.
        constructor; [now apply IHMatches1 | exact H0].
Qed.

Lemma test_Matches (s : JSString) :
  forall r : Regex, test r s = true <-> Matches r s.
Proof.
  induction s as [|c s IH]; intros r; simpl.
  - apply nullable_Matches.
  - rewrite IH. apply deriv_Matches.
Qed.

Lemma Matches_Seq (r1 r2 : Regex) (s : JSString) :
  Matches (Seq r1 r2) s
  <-> exists s1 s2, s = s1 ++ s2 /\ Matches r1 s1 /\ Matches r2 s2.
Proof.
  split.
  - intros H. inversion H; subst. eauto.
  - intros (s1 & s2 & -> & H1 & H2). now constructor.
Qed.

Lemma Matches_Class (p : CodeUnit -> bool) (s : JSString) :
  Matches (Class p) s <-> exists c, s = [c] /\ p c = true.
Proof.
  split.
  - intros H. inversion H; subst. eauto.
  - intros (c & -> & Hc). now constructor.
Qed.

Lemma Matches_Star_Class (p : CodeUnit -> bool) (s : JSString) :
  Matches (Star (Class p)) s <-> forallb p s = true.
Proof.
  split.
  - intros H. remember (Star (Class p)) as r eqn:Hr.
    induction H; inversion Hr; subst; [reflexivity|].
    inversion H; subst. simpl.
    match goal with Hp : p _ = true |- _ => rewrite Hp end.
    now apply IHMatches2.
  - induction s as [|c s IH]; simpl; intros H; [constructor|].
    apply andb_true_iff in H. destruct H as [Hc Hs].
    change (c :: s) with ([c] ++ s).
    constructor; [now constructor | now apply IH].
Qed.

Lemma Matches_Plus_Class (p : CodeUnit -> bool) (s : JSString) :
  Matches (Plus (Class p)) s <-> s <> [] /\ forallb p s = true.
Proof.
  unfold Plus. rewrite Matches_Seq. split.
  - intros (s1 & s2 & -> & H1 & H2).
    apply Matches_Class in H1. destruct H1 as (c & -> & Hc).
    apply Matches_Star_Class in H2. simpl. rewrite Hc, H2.
    split; [discriminate | reflexivity].
  - intros [Hne Hall]. destruct s as [|c s]; [congruence|].
    simpl in Hall. apply andb_true_iff in Hall. destruct Hall as [Hc Hs].
    exists [c], s. split; [reflexivity|].
    split; [now constructor | now apply Matches_Star_Class].
Qed.

Lemma Matches_AtLeast2_Class (p : CodeUnit -> bool) (s : JSString) :
  Matches (AtLeast2 (Class p)) s
  <-> (2 <= length s)%nat /\ forallb p s = true.
Proof.
  unfold AtLeast2. rewrite Matches_Seq. split.
  - intros (s1 & s2 & -> & H1 & H2).
    apply Matches_Class in H1. destruct H1 as (c & -> & Hc).
    apply Matches_Plus_Class in H2. destruct H2 as [Hne Hall].
    simpl. rewrite Hc, Hall. split; [|reflexivity].
    destruct s2; [congruence | simpl; lia].
  - intros [Hlen Hall]. destruct s as [|c s]; [simpl in Hlen; lia|].
    simpl in Hall. apply andb_true_iff in Hall. destruct Hall as [Hc Hs].
    exists [c], s. split; [reflexivity|]. split; [now constructor|].
    apply Matches_Plus_Class. split; [|exact Hs].
    destruct s; [simpl in Hlen; lia | discriminate].
Qed.

Lemma validChar_not_at (s : JSString) :
  forallb validChar s = true -> ~ In AT s.
Proof.
  rewrite forallb_forall. intros H Hin. specialize (H AT Hin). discriminate.
Qed.

Lemma domainChar_not_at (s : JSString) :
  forallb domainChar s = true -> ~ In AT s.
Proof.
  rewrite forallb_forall. intros H Hin. specialize (H AT Hin). discriminate.
Qed.

Lemma letterChar_domainChar (s : JSString) :
  forallb letterChar s = true -> forallb domainChar s = true.
Proof.
  rewrite !forallb_forall. intros H c Hc. specialize (H c Hc).
  unfold letterChar in H. unfold domainChar.
  apply orb_true_iff in H. destruct H as [-> | ->]; simpl;
    rewrite ?orb_true_r; reflexivity.
Qed.

Lemma isValidEmailAddress_iff (address : JSString) :
  isValidEmailAddress address = true
  <-> exists name domain tld,
        address = name ++ AT :: domain ++ DOT :: tld
        /\ name <> [] /\ forallb validChar name = true
        /\ domain <> [] /\ forallb domainChar domain = true
        /\ (2 <= length tld)%nat /\ forallb letterChar tld = true.
Proof.
  unfold isValidEmailAddress, emailRegex. rewrite test_Matches. split.
  - intros H.
    apply Matches_Seq in H. destruct H as (name & s1 & -> & Hname & H).
    apply Matches_Seq in H. destruct H as (at1 & s2 & -> & Hat & H).
    apply Matches_Seq in H. destruct H as (domain & s3 & -> & Hdom & H).
    apply Matches_Seq in H. destruct H as (dot1 & tld & -> & Hdot & Htld).
    apply Matches_Plus_Class in Hname. apply Matches_Plus_Class in Hdom.
    apply Matches_AtLeast2_Class in Htld.
    apply Matches_Class in Hat. destruct Hat as (c1 & -> & Hc1).
    apply Matches_Class in Hdot. destruct Hdot as (c2 & -> & Hc2).
    apply N.eqb_eq in Hc1. apply N.eqb_eq in Hc2. subst c1 c2.
    exists name, domain, tld. simpl. tauto.
  - intros (name & domain & tld & -> & Hne & Hname & Hdne & Hdom & Hlen
            & Htld).
    apply Matches_Seq. exists name, (AT :: domain ++ DOT :: tld).
    split; [reflexivity|]. split; [now apply Matches_Plus_Class|].
    apply Matches_Seq. exists [AT], (domain ++ DOT :: tld).
    split; [reflexivity|]. split; [now constructor|].
    apply Matches_Seq. exists domain, (DOT :: tld).
    split; [reflexivity|]. split; [now apply Matches_Plus_Class|].
    apply Matches_Seq. exists [DOT], tld.
    split; [reflexivity|]. split; [now constructor|].
    now apply Matches_AtLeast2_Class.
Qed.

(** X4: [isValidEmailAddress] accepts exactly the strings
    [name@domain.tld] where [name] is a non-empty run of
    [[a-zA-Z0-9._-]], [domain] a non-empty run of [[a-zA-Z0-9.-]] and
    [tld] at least two letters; so it refuses the empty string, a string
    without '@' and a string with two '@'. *)
Theorem isValidEmailAddress_shape (address : JSString) :
  (isValidEmailAddress address = true
   <-> exists name domain tld,
         address = name ++ AT :: domain ++ DOT :: tld
         /\ name <> [] /\ forallb validChar name = true
         /\ domain <> [] /\ forallb domainChar domain = true
         /\ (2 <= length tld)%nat /\ forallb letterChar tld = true)
  /\ (~ In AT address -> isValidEmailAddress address = false)
  /\ (forall a b c, address = a ++ AT :: b ++ AT :: c ->
                    isValidEmailAddress address = false)
  /\ isValidEmailAddress [] = false.
Proof.
  split; [apply isValidEmailAddress_iff|]. split; [|split; [|reflexivity]].
  - intros Hnot. destruct (isValidEmailAddress address) eqn:Hv;
      [|reflexivity].
    apply isValidEmailAddress_iff in Hv.
    destruct Hv as (name & domain & tld & -> & _). exfalso. apply Hnot.
    apply in_or_app. right. now left.
  - intros a b c ->. destruct (isValidEmailAddress _) eqn:Hv; [|reflexivity].
    apply isValidEmailAddress_iff in Hv.
    destruct Hv as (name & domain & tld & Heq & _ & Hname & _ & Hdom & _
                    & Htld).
    exfalso.
    assert (Hn : extractMailboxName (a ++ AT :: b ++ AT :: c) = name).
    { rewrite Heq. apply extractMailboxName_before_at.
      now apply validChar_not_at. }
    assert (Hrest : ~ In AT (domain ++ DOT :: tld)).
    { intros Hin. apply in_app_or in Hin. destruct Hin as [Hin | Hin].
      - now apply (domainChar_not_at domain).
      - destruct Hin as [Hin | Hin]; [discriminate|].
        now apply (domainChar_not_at tld (letterChar_domainChar tld Htld)). }
    (* the first '@' of the address ends [name], and another follows *)
    assert (Hcount : forall x y : JSString,
               ~ In AT x -> ~ In AT y ->
               x ++ AT :: y <> a ++ AT :: b ++ AT :: c).
    { clear. intros x. revert a. induction x as [|cx x IH]; intros a y Hx Hy.
      - destruct a as [|ca a]; simpl; intros Heq; inversion Heq; subst.
        + apply Hy. apply in_or_app. right. now left.
        + apply Hy. apply in_or_app. right. now left.
      - destruct a as [|ca a]; simpl; intros Heq; inversion Heq; subst.
        + apply Hx. now left.
        + apply (IH a y); auto. intros Hin. apply Hx. now right. }
    apply (Hcount name (domain ++ DOT :: tld)); auto.
    now apply validChar_not_at.
Qed.

(** X5: for an address that [isValidEmailAddress] accepts,
    [extractMailboxName] returns a non-empty name made of the code units
    [validateCustomAddress] allows, followed in the address by '@' and a
    domain without '@'; and every name that [validateCustomAddress]
    accepts, put before '@', a domain and a top-level domain of the right
    shape, gives an address that is accepted and whose extracted name is
    that name. *)
Theorem extractMailboxName_of_valid_email (address : JSString) :
  (isValidEmailAddress address = true ->
   extractMailboxName address <> []
   /\ forallb validChar (extractMailboxName address) = true
   /\ exists rest, address = extractMailboxName address ++ AT :: rest
                   /\ ~ In AT rest)
  /\ (forall domain tld,
        valid (validateCustomAddress address) = true ->
        domain <> [] -> forallb domainChar domain = true ->
        (2 <= length tld)%nat -> forallb letterChar tld = true ->
        isValidEmailAddress (address ++ AT :: domain ++ DOT :: tld) = true
        /\ extractMailboxName (address ++ AT :: domain ++ DOT :: tld)
           = address).
Proof.
  split.
  - intros Hv. apply isValidEmailAddress_iff in Hv.
    destruct Hv as (name & domain & tld & -> & Hne & Hname & _ & Hdom & _
                    & Htld).
    rewrite (extractMailboxName_before_at name _
               (validChar_not_at name Hname)).
    split; [exact Hne|]. split; [exact Hname|].
    exists (domain ++ DOT :: tld). split; [reflexivity|].
    intros Hin. apply in_app_or in Hin. destruct Hin as [Hin | Hin].
    + now apply (domainChar_not_at domain).
    + destruct Hin as [Hin | Hin]; [discriminate|].
      now apply (domainChar_not_at tld (letterChar_domainChar tld Htld)).
  - intros domain tld Hvalid Hdne Hdom Hlen Htld.
    apply validateCustomAddress_valid_iff in Hvalid.
    destruct Hvalid as [Hl Hchars]. split.
    + apply isValidEmailAddress_iff. exists address, domain, tld.
      repeat split; auto; try lia.
      intros ->. simpl in Hl. lia.
    + apply extractMailboxName_before_at. now apply validChar_not_at.
Qed.

(** X5 on "Amy.Lee@mail.example.com" and on the name "amy.lee". *)
Lemma extractMailboxName_of_valid_email_witness :
  extractMailboxName (js "Amy.Lee@mail.example.com") <> []
  /\ (isValidEmailAddress (js "amy.lee" ++ AT :: js "mail.example"
                             ++ DOT :: js "com") = true
      /\ extractMailboxName (js "amy.lee" ++ AT :: js "mail.example"
                               ++ DOT :: js "com") = js "amy.lee").
Proof.
  split.
  - apply (proj1 (extractMailboxName_of_valid_email
                    (js "Amy.Lee@mail.example.com"))).
    reflexivity.
  - apply (proj2 (extractMailboxName_of_valid_email (js "amy.lee"))
             (js "mail.example") (js "com")); try reflexivity.
    + discriminate.
    + simpl. lia.
Defined.

(** ** The name generator, in detail *)

Lemma randomDigits_loop_shape (remaining : nat) :
  forall (digits : JSString) (w : World),
    exists more w',
      randomDigits_loop remaining digits w = (Returned (digits ++ more), w')
      /\ forallb is_digit more = true
      /\ length more = remaining
      /\ random_pos w' = (random_pos w + remaining)%nat
      /\ mailboxes w' = mailboxes w.
Proof.
  induction remaining as [|remaining IH]; intros digits w.
  - exists [], w. rewrite app_nil_r. repeat split. lia.
  - destruct (Math_random_run w) as (r & Hrun & Hr).
    destruct (IH (digits ++ digit_toString (floor_times r 10))
                 (advance_random w))
      as (more & w' & Hloop & Hmore & Hlen & Hpos & Hrows).
    exists (digit_toString (floor_times r 10) ++ more), w'.
    split; [|split; [|split; [|split]]].
    + change (randomDigits_loop (S remaining) digits w)
        with (bind Math_random
                (fun r' => randomDigits_loop remaining
                   (digits ++ digit_toString (floor_times r' 10))) w).
      rewrite (bind_run _ _ _ _ _ Hrun), Hloop. now rewrite <- app_assoc.
    + rewrite forallb_app, Hmore, andb_true_r.
      pose proof (floor_times_lt r 10 Hr ltac:(lia)) as Hlt.
      unfold digit_toString. cbn [forallb andb].
      unfold is_digit. rewrite andb_true_r.
      apply andb_true_iff. split; apply N.leb_le; lia.
    + rewrite length_app, Hlen. reflexivity.
    + rewrite Hpos. cbn [random_pos advance_random]. lia.
    + rewrite Hrows. reflexivity.
Qed.

Lemma generateRandomDigits_shape (w : World) :
  exists ds w',
    generateRandomDigits w = (Returned ds, w')
    /\ forallb is_digit ds = true
    /\ (2 <= length ds <= 3)%nat
    /\ random_pos w' = (random_pos w + 1 + length ds)%nat
    /\ mailboxes w' = mailboxes w.
Proof.
  destruct (Math_random_run w) as (r & Hrun & Hr).
  unfold generateRandomDigits.
  destruct (randomDigits_loop_shape (if below_half r then 2 else 3)%nat []
              (advance_random w))
    as (ds & w' & Hloop & Hds & Hlen & Hpos & Hrows).
  exists ds, w'. rewrite (bind_run _ _ _ _ _ Hrun).
  split; [exact Hloop|]. split; [exact Hds|].
  split; [destruct (below_half r); lia|].
  split; [|exact Hrows].
  rewrite Hpos, Hlen. cbn [random_pos advance_random]. lia.
Qed.

(** What [formatNameAddress] returns for two names, whatever the
    format. *)
Lemma formatNameAddress_shape (f l : JSString)
    (format : option AddressFormat) (w : World) :
  exists sep digits w',
    formatNameAddress (Some f) (Some l) format w
    = (Returned (toLowerCase f ++ sep ++ toLowerCase l ++ digits), w')
    /\ (sep = [] \/ sep = [DOT] \/ sep = [UNDERSCORE])
    /\ forallb is_digit digits = true
    /\ (digits = [] \/ (sep = [] /\ (2 <= length digits <= 3)%nat))
    /\ (format = Some dot -> sep = [DOT] /\ digits = [])
    /\ (format = Some underscore -> sep = [UNDERSCORE] /\ digits = [])
    /\ (format = Some plain \/ format = None -> sep = [] /\ digits = [])
    /\ (format = Some withDigits -> sep = [] /\ digits <> [])
    /\ (random_pos w <= random_pos w' <= random_pos w + 4)%nat
    /\ mailboxes w' = mailboxes w
    /\ (digits = [] -> w' = w).
Proof.
  unfold formatNameAddress, lowered.
  destruct format as [[| | |]|].
  - exists [DOT], [], w. rewrite app_nil_r.
    split; [reflexivity|].
    repeat split; intros; try lia; try intuition discriminate; auto.
  - exists [UNDERSCORE], [], w. rewrite app_nil_r.
    split; [reflexivity|].
    repeat split; intros; try lia; try intuition discriminate; auto.
  - exists [], [], w. rewrite app_nil_r.
    split; [reflexivity|].
    repeat split; intros; try lia; try intuition discriminate; auto.
  - destruct (generateRandomDigits_shape w)
      as (ds & w' & Hrun & Hds & Hlen & Hpos & Hrows).
    exists [], ds, w'. split.
    + change (bind generateRandomDigits
                (fun digits => ret (toLowerCase f ++ toLowerCase l ++ digits))
                w
              = (Returned (toLowerCase f ++ [] ++ toLowerCase l ++ ds), w')).
      now rewrite (bind_run _ _ _ _ _ Hrun).
    + assert (Hne : ds <> []) by (intros ->; simpl in Hlen; lia).
      repeat split; intros; try lia; try intuition discriminate; auto;
        contradiction.
  - exists [], [], w. rewrite app_nil_r.
    split; [reflexivity|].
    repeat split; intros; try lia; try intuition discriminate; auto.
Qed.

Lemma lower_unit_not_upper (c : CodeUnit) : is_upper (lower_unit c) = false.
Proof.
  unfold lower_unit. destruct (is_upper c) eqn:Hup; [|exact Hup].
  unfold is_upper in *. apply andb_true_iff in Hup.
  destruct Hup as [H1 H2]. apply N.leb_le in H1. apply N.leb_le in H2.
  apply andb_false_iff. right. apply N.leb_gt. lia.
Qed.

Lemma lower_unit_idempotent (c : CodeUnit) :
  lower_unit (lower_unit c) = lower_unit c.
Proof.
  pose proof (lower_unit_not_upper c) as Hno.
  unfold lower_unit at 1. now rewrite Hno.
Qed.

Lemma toLowerCase_idempotent (s : JSString) :
  toLowerCase (toLowerCase s) = toLowerCase s.
Proof.
  unfold toLowerCase. rewrite map_map. apply map_ext.
  apply lower_unit_idempotent.
Qed.


Lemma nameAddress_attempt_shape (w : World) :
  exists first last sep digits w',
    nameAddress_attempt w
    = (Returned (Some (first ++ sep ++ last ++ digits)), w')
    /\ In first firstNames /\ In last lastNames
    /\ (sep = [] \/ sep = [DOT] \/ sep = [UNDERSCORE])
    /\ forallb is_digit digits = true
    /\ (digits = [] \/ (sep = [] /\ (2 <= length digits <= 3)%nat))
    /\ (random_pos w + 3 <= random_pos w' <= random_pos w + 7)%nat
    /\ mailboxes w' = mailboxes w.
Proof.
  unfold nameAddress_attempt, getRandomFirstName, getRandomLastName,
    getRandomFormat.
  destruct (pick_run firstNames w ltac:(vm_compute; lia))
    as (f & Hpickf & Hinf).
  destruct (pick_run lastNames (advance_random w) ltac:(vm_compute; lia))
    as (l & Hpickl & Hinl).
  destruct (pick_run formats (advance_random (advance_random w))
              ltac:(vm_compute; lia)) as (format & Hpickfmt & _).
  destruct (firstNames_ok f Hinf) as [Hflower Hflen].
  destruct (lastNames_ok l Hinl) as [Hllower Hllen].
  destruct (formatNameAddress_shape f l (Some format)
              (advance_random (advance_random (advance_random w))))
    as (sep & digits & w1 & Hfmt & Hsep & Hdigits & Hshape & _ & _ & _ & _
        & Hpos & Hrows & _).
  rewrite (toLowerCase_lower f Hflower), (toLowerCase_lower l Hllower)
    in Hfmt.
  rewrite (bind_run _ _ _ _ _ Hpickf), (bind_run _ _ _ _ _ Hpickl),
    (bind_run _ _ _ _ _ Hpickfmt), (bind_run _ _ _ _ _ Hfmt).
  cbn [random_pos advance_random] in Hpos.
  cbn [mailboxes advance_random] in Hrows.
  assert (Hlen : (length f + length l
                  <= length (f ++ sep ++ l ++ digits))%nat).
  { rewrite !length_app. lia. }
  destruct (isValidLength (f ++ sep ++ l ++ digits)) eqn:Hvalid.
  - exists f, l, sep, digits, w1. repeat split; auto; lia.
  - assert (Hlong : (20 < length (f ++ sep ++ l ++ digits))%nat).
    { destruct (Nat.le_gt_cases (length (f ++ sep ++ l ++ digits)) 20)
        as [Hle|Hgt]; [|exact Hgt].
      assert (isValidLength (f ++ sep ++ l ++ digits) = true)
        by (apply isValidLength_iff; lia).
      congruence. }
    unfold MIN_ADDRESS_LENGTH, MAX_ADDRESS_LENGTH.
    destruct (Nat.ltb_spec (length (f ++ sep ++ l ++ digits)) 6)
      as [Hshort|_]; [lia|].
    unfold bind at 1. unfold ret at 1.
    destruct (Nat.ltb_spec 20 (length (f ++ sep ++ l ++ digits)))
      as [_|Hno]; [|lia].
    destruct (formatNameAddress_shape f l (Some plain) w1)
      as (sep2 & digits2 & w2 & Hplain & _ & _ & _ & _ & _ & Hp & _ & _ & _
          & Hsame).
    destruct (Hp (or_introl eq_refl)) as [-> ->].
    rewrite (Hsame eq_refl) in Hplain.
    rewrite (toLowerCase_lower f Hflower), (toLowerCase_lower l Hllower)
      in Hplain.
    rewrite (bind_run _ _ _ _ _ Hplain).
    assert (Hpvalid : isValidLength (f ++ [] ++ l ++ []) = true).
    { apply isValidLength_iff. rewrite !length_app. simpl. lia. }
    rewrite Hpvalid. exists f, l, [], [], w1.
    repeat split; auto; lia.
Qed.

(** X6: whatever [Math.random] answers, [generateNameAddress] returns in
    the first turn of its loop, after 3 to 7 draws, a first name of the
    pool followed by nothing, a dot or an underscore, a last name of the
    pool and, only when there is no separator, 2 or 3 digits; the table is
    not touched. *)
Theorem generateNameAddress_shape (w : World) :
  exists first last sep digits w',
    generateNameAddress w = (Returned (first ++ sep ++ last ++ digits), w')
    /\ In first firstNames /\ In last lastNames
    /\ (sep = [] \/ sep = [DOT] \/ sep = [UNDERSCORE])
    /\ (forall c, In c digits -> (48 <= c <= 57)%N)
    /\ (digits = [] \/ (sep = [] /\ (2 <= length digits <= 3)%nat))
    /\ (random_pos w + 3 <= random_pos w' <= random_pos w + 7)%nat
    /\ mailboxes w' = mailboxes w.
Proof.
  destruct (nameAddress_attempt_shape w)
    as (first & last & sep & digits & w' & Hrun & Hf & Hl & Hsep & Hdigits
        & Hshape & Hpos & Hrows).
  exists first, last, sep, digits, w'.
  split; [|repeat split; auto; try lia].
  - unfold generateNameAddress, maxAttempts.
    assert (Hloop : nameAddress_loop 50 w
                    = (Returned (Some (first ++ sep ++ last ++ digits)), w')).
    { change (nameAddress_loop 50 w)
        with (bind nameAddress_attempt
                (fun found => match found with
                              | Some a0 => ret (Some a0)
                              | None => nameAddress_loop 49
                              end) w).
      now rewrite (bind_run _ _ _ _ _ Hrun). }
    now rewrite (bind_run _ _ _ _ _ Hloop).
  - rewrite forallb_forall in Hdigits. specialize (Hdigits c H).
    unfold is_digit in Hdigits. apply andb_true_iff in Hdigits.
    rewrite !N.leb_le in Hdigits. lia.
  - rewrite forallb_forall in Hdigits. specialize (Hdigits c H).
    unfold is_digit in Hdigits. apply andb_true_iff in Hdigits.
    rewrite !N.leb_le in Hdigits. lia.
Qed.

(** ** What a life of store operations keeps *)

Lemma evolves_refl (r : Row) : evolves r r.
Proof. unfold evolves. tauto. Qed.

Lemma evolves_trans (a b c : Row) : evolves a b -> evolves b c -> evolves a c.
Proof.
  unfold evolves. intros (H1 & H2 & H3 & H4 & H5 & H6)
    (K1 & K2 & K3 & K4 & K5 & K6).
  repeat split; try congruence.
  destruct K6 as [K6 | K6]; [|now right].
  rewrite K6. exact H6.
Qed.

Lemma touched_evolves (row : Row) (now : Z) (rows : list Row) (r' : Row) :
  In r' (touched row now rows) -> exists r, In r rows /\ evolves r r'.
Proof.
  unfold touched. intros Hin. apply in_map_iff in Hin.
  destruct Hin as (r & <- & Hin). exists r. split; [exact Hin|].
  destruct (JS.eqb (id r) (id row)); [|apply evolves_refl].
  unfold evolves. simpl. tauto.
Qed.

Lemma converted_evolves (addr : JSString) (rows : list Row) (r' : Row) :
  In r' (converted addr rows) -> exists r, In r rows /\ evolves r r'.
Proof.
  unfold converted. intros Hin. apply in_map_iff in Hin.
  destruct Hin as (r & <- & Hin). exists r. split; [exact Hin|].
  destruct (convertible_row addr r); [|apply evolves_refl].
  unfold evolves. simpl. tauto.
Qed.

(** The table after [createMailbox]: as before when the [INSERT] is
    refused, and with the new row at the end otherwise. *)
Lemma createMailbox_rows (params : CreateMailboxParams) (w : World) :
  let wants := truthy_flag (param_isPermanent params)
               && isPermanentAllowedForAddressType
                    (param_addressType params) in
  let row :=
    mkRow (uuids w (uuid_pos w)) (param_address params)
          (param_addressType params) (clock w (clock_pos w))
          (if wants then PERMANENT_MAILBOX_SENTINEL
           else (clock w (S (clock_pos w))
                 + param_expiresInHours params * 60 * 60)%Z)
          (param_ipAddress params) (clock w (clock_pos w)) in
  mailboxes (snd (createMailbox params w))
  = if existsb (fun r' => JS.eqb (id r') (id row)
                          || JS.eqb (address r') (address row))
               (mailboxes w)
    then mailboxes w else mailboxes w ++ [row].
Proof.
  destruct params as [addr ty hours ip flag]. cbv zeta.
  cbn [param_address param_addressType param_expiresInHours
       param_ipAddress param_isPermanent id address].
  unfold_store. cbn.
  destruct (truthy_flag flag && isPermanentAllowedForAddressType ty); cbn;
    match goal with
    | |- context [existsb ?p ?l] => destruct (existsb p l)
    end; reflexivity.
Qed.

Lemma run_op_rows (op : StoreOp) (w : World) (r' : Row) :
  In r' (mailboxes (run_op op w)) ->
  (exists r, In r (mailboxes w) /\ evolves r r')
  \/ (exists params,
        op = OpCreate params
        /\ address r' = param_address params
        /\ address_type r' = param_addressType params
        /\ ip_address r' = param_ipAddress params
        /\ expires_at r'
           = (if truthy_flag (param_isPermanent params)
                 && isPermanentAllowedForAddressType
                      (param_addressType params)
              then PERMANENT_MAILBOX_SENTINEL
              else (clock w (S (clock_pos w))
                    + param_expiresInHours params * 60 * 60)%Z)).
Proof.
  destruct op as [params | addr | addr | addr |]; unfold run_op; intros Hin.
  - rewrite createMailbox_rows in Hin.
    destruct (existsb _ _) in Hin.
    + left. exists r'. split; [exact Hin | apply evolves_refl].
    + apply in_app_or in Hin. destruct Hin as [Hin | [<- | []]].
      * left. exists r'. split; [exact Hin | apply evolves_refl].
      * right. exists params. repeat split.
  - left.
    destruct (find (live_row addr (clock w (clock_pos w))) (mailboxes w))
      as [row|] eqn:Hfind.
    + rewrite (getMailbox_hit addr w row Hfind) in Hin.
      now apply (touched_evolves row (clock w (clock_pos w))).
    + rewrite (getMailbox_miss addr w Hfind) in Hin.
      exists r'. split; [exact Hin | apply evolves_refl].
  - left. rewrite convertMailboxToPermanent_run in Hin.
    now apply (converted_evolves addr).
  - left. rewrite deleteMailbox_run in Hin.
    destruct (find (live_row addr (clock w (clock_pos w))) (mailboxes w))
      as [row|].
    + destruct (isPermanentMailbox (expires_at row)).
      * now apply (touched_evolves row (clock w (clock_pos w))).
      * cbn [snd mailboxes set_mailboxes] in Hin.
        apply without_spec in Hin. destruct Hin as [Hin _].
        now apply (touched_evolves row (clock w (clock_pos w))).
    + exists r'. split; [exact Hin | apply evolves_refl].
  - left. destruct (cleanupExpiredMailboxes_run w) as (w' & Hrun & Hrows).
    rewrite Hrun in Hin. cbn [snd] in Hin. rewrite Hrows in Hin.
    apply filter_In in Hin. exists r'. split; [tauto | apply evolves_refl].
Qed.

Lemma run_op_clock (op : StoreOp) (w : World) :
  clock (run_op op w) = clock w.
Proof.
  destruct op as [[addr ty hours ip flag] | addr | addr | addr |];
    unfold run_op.
  - unfold_store. cbn.
    destruct (truthy_flag flag && isPermanentAllowedForAddressType ty); cbn;
      match goal with
      | |- context [existsb ?p ?l] => destruct (existsb p l)
      end; reflexivity.
  - destruct (find (live_row addr (clock w (clock_pos w))) (mailboxes w))
      as [row|] eqn:Hfind.
    + now rewrite (getMailbox_hit addr w row Hfind).
    + now rewrite (getMailbox_miss addr w Hfind).
  - reflexivity.
  - rewrite deleteMailbox_run.
    destruct (find (live_row addr (clock w (clock_pos w))) (mailboxes w))
      as [row|]; [destruct (isPermanentMailbox (expires_at row))|];
      reflexivity.
  - reflexivity.
Qed.

(** X8: through any sequence of store operations (create, get, convert,
    delete, sweep, whatever they return), a row that is in the table at
    the end either was in the table at the start, with the same id,
    address, class, creation time and IP address and with an expiry
    that is the same or the sentinel, or was inserted by one of the
    creations of the sequence, with its address, class and IP address:
    no operation renames a mailbox, changes its class or gives it an
    expiry other than the sentinel. *)
Theorem store_rows_only_evolve (ops : list StoreOp) :
  forall (w : World) (r' : Row),
    In r' (mailboxes (run_ops ops w)) ->
    (exists r, In r (mailboxes w) /\ evolves r r')
    \/ (exists params,
          In (OpCreate params) ops
          /\ address r' = param_address params
          /\ address_type r' = param_addressType params
          /\ ip_address r' = param_ipAddress params).
Proof.
  induction ops as [|op ops IH]; intros w r' Hin.
  - left. exists r'. split; [exact Hin | apply evolves_refl].
  - simpl in Hin. destruct (IH _ _ Hin) as [(r1 & Hr1 & Hev) | Hnew].
    + destruct (run_op_rows op w r1 Hr1) as [(r & Hr & Hev0) | Hcreated].
      * left. exists r. split; [exact Hr|]. now apply (evolves_trans r r1).
      * right. destruct Hcreated as (params & -> & Ha & Ht & Hi & _).
        exists params. split; [now left|].
        destruct Hev as (_ & E2 & E3 & _ & E5 & _).
        repeat split; congruence.
    + right. destruct Hnew as (params & Hp & Hrest).
      exists params. split; [now right | exact Hrest].
Qed.

(** X8 on the sample table: after a lookup, a conversion, a sweep and a
    deletion, the row of "archive" is still the one of the start. *)
Lemma store_rows_only_evolve_witness :
  exists r,
    In r (mailboxes sample_early)
    /\ evolves r (set_last_accessed 2000 row_permanent).
Proof.
  destruct (store_rows_only_evolve
              [OpGet (js "archive"); OpConvert (js "amy.lee"); OpSweep;
               OpDelete (js "k3x9qa7bb")]
              sample_early (set_last_accessed 2000 row_permanent))
    as [Hold | (params & Hin & _)].
  - vm_compute. tauto.
  - exact Hold.
  - exfalso. simpl in Hin.
    destruct Hin as [H | [H | [H | [H | []]]]]; discriminate.
Defined.

Lemma touched_expiry (row : Row) (now : Z) (rows : list Row) (r' : Row) :
  In r' (touched row now rows) ->
  exists r, In r rows /\ address_type r' = address_type r
            /\ expires_at r' = expires_at r /\ id r' = id r.
Proof.
  unfold touched. intros Hin. apply in_map_iff in Hin.
  destruct Hin as (r & <- & Hin). exists r. split; [exact Hin|].
  now destruct (JS.eqb (id r) (id row)).
Qed.

Lemma run_op_random_rows (op : StoreOp) (w : World) :
  random_rows_temporary (mailboxes w) ->
  (forall params, op = OpCreate params ->
     param_addressType params = Random ->
     (clock w (S (clock_pos w)) + param_expiresInHours params * 60 * 60)%Z
     <> PERMANENT_MAILBOX_SENTINEL) ->
  random_rows_temporary (mailboxes (run_op op w)).
Proof.
  intros Hinv Hclock r' Hin Hty.
  destruct op as [params | addr | addr | addr |]; unfold run_op in Hin.
  - rewrite createMailbox_rows in Hin.
    destruct (existsb _ _) in Hin; [now apply Hinv|].
    apply in_app_or in Hin. destruct Hin as [Hin | [<- | []]];
      [now apply Hinv|].
    cbn [address_type] in Hty. cbn [expires_at]. rewrite Hty.
    cbn [isPermanentAllowedForAddressType AddressType_eqb orb].
    rewrite andb_false_r. now apply Hclock.
  - destruct (find (live_row addr (clock w (clock_pos w))) (mailboxes w))
      as [row|] eqn:Hfind.
    + rewrite (getMailbox_hit addr w row Hfind) in Hin.
      apply touched_expiry in Hin.
      destruct Hin as (r & Hr & Ht & He & _). rewrite He.
      apply Hinv; congruence.
    + rewrite (getMailbox_miss addr w Hfind) in Hin. now apply Hinv.
  - rewrite convertMailboxToPermanent_run in Hin.
    cbn [snd mailboxes set_mailboxes] in Hin. unfold converted in Hin.
    apply in_map_iff in Hin. destruct Hin as (r & Heq & Hr).
    destruct (convertible_row addr r) eqn:Hconv.
    + subst r'. cbn [address_type set_expires_at] in Hty.
      unfold convertible_row in Hconv. rewrite Hty in Hconv.
      cbn in Hconv. rewrite andb_false_r in Hconv. discriminate.
    + subst r'. now apply Hinv.
  - rewrite deleteMailbox_run in Hin.
    destruct (find (live_row addr (clock w (clock_pos w))) (mailboxes w))
      as [row|]; [|now apply Hinv].
    assert (Ht : In r' (touched row (clock w (clock_pos w)) (mailboxes w))).
    { destruct (isPermanentMailbox (expires_at row)); [exact Hin|].
      cbn [snd mailboxes set_mailboxes] in Hin.
      apply without_spec in Hin. tauto. }
    apply touched_expiry in Ht. destruct Ht as (r & Hr & Ht & He & _).
    rewrite He. apply Hinv; congruence.
  - destruct (cleanupExpiredMailboxes_run w) as (w' & Hrun & Hrows).
    rewrite Hrun in Hin. cbn [snd] in Hin. rewrite Hrows in Hin.
    apply filter_In in Hin. apply Hinv; tauto.
Qed.

Lemma run_op_clock_pos (op : StoreOp) (w : World) :
  (clock_pos w <= clock_pos (run_op op w) <= clock_pos w + 2)%nat.
Proof.
  destruct op as [[addr ty hours ip flag] | addr | addr | addr |];
    unfold run_op.
  - unfold_store. cbn.
    destruct (truthy_flag flag && isPermanentAllowedForAddressType ty); cbn;
      match goal with
      | |- context [existsb ?p ?l] => destruct (existsb p l)
      end; cbn; lia.
  - destruct (find (live_row addr (clock w (clock_pos w))) (mailboxes w))
      as [row|] eqn:Hfind.
    + rewrite (getMailbox_hit addr w row Hfind). cbn. lia.
    + rewrite (getMailbox_miss addr w Hfind). cbn. lia.
  - cbn. lia.
  - rewrite deleteMailbox_run.
    destruct (find (live_row addr (clock w (clock_pos w))) (mailboxes w))
      as [row|]; [destruct (isPermanentMailbox (expires_at row))|];
      cbn; lia.
  - cbn. lia.
Qed.

(** X9: through any sequence of store operations no mailbox of class
    random becomes permanent: if no random row holds the sentinel at the
    start, none does at the end, provided no clock reading of the run
    (each operation takes at most two), plus the validity of a random
    mailbox created in it, is exactly the sentinel. *)
Theorem random_mailboxes_stay_temporary (ops : list StoreOp) :
  forall w : World,
    random_rows_temporary (mailboxes w) ->
    (forall params k,
       In (OpCreate params) ops -> param_addressType params = Random ->
       (clock_pos w <= k <= clock_pos w + 2 * length ops)%nat ->
       (clock w k + param_expiresInHours params * 60 * 60)%Z
       <> PERMANENT_MAILBOX_SENTINEL) ->
    random_rows_temporary (mailboxes (run_ops ops w)).
Proof.
  induction ops as [|op ops IH]; intros w Hinv Hclock; [exact Hinv|].
  pose proof (run_op_clock_pos op w) as Hpos.
  simpl. apply IH.
  - apply run_op_random_rows; [exact Hinv|].
    intros params Heq Hty. subst op.
    apply Hclock; [now left | exact Hty | simpl; lia].
  - intros params k Hin Hty Hk. rewrite run_op_clock.
    apply Hclock; [now right | exact Hty | simpl; lia].
Qed.

(** X9 on the sample table at time 2000: creating a random mailbox for 24
    hours and trying to convert the random mailboxes leaves them all
    temporary. *)
Lemma random_mailboxes_stay_temporary_witness :
  random_rows_temporary
    (mailboxes
       (run_ops [OpCreate (mkParams (js "zz9zz9zz") Random 24 (js "unknown")
                                    (Some true));
                 OpConvert (js "zz9zz9zz"); OpConvert (js "k3x9qa7bb")]
                sample_early)).
Proof.
  apply random_mailboxes_stay_temporary.
  - intros r Hr Hty. vm_compute in Hr.
    destruct Hr as [<- | [<- | [<- | []]]]; try discriminate.
  - intros params k [H | [H | [H | []]]] _ Hk; try discriminate.
    inversion H; subst. cbn in Hk.
    change ((2000 + Z.of_nat k + 24 * 60 * 60)%Z
            <> PERMANENT_MAILBOX_SENTINEL).
    unfold PERMANENT_MAILBOX_SENTINEL. lia.
Defined.

Lemma unique_ids_filter (keep : Row -> bool) (rows : list Row) :
  unique_ids rows -> unique_ids (filter keep rows).
Proof.
  unfold unique_ids. induction rows as [|r rows IH]; [trivial|].
  simpl. intros Hnd. inversion Hnd as [|? ? Hnotin Hnd']; subst.
  destruct (keep r); [|now apply IH].
  simpl. constructor; [|now apply IH].
  intros Hin. apply Hnotin. apply in_map_iff in Hin.
  destruct Hin as (x & Hx & Hin). apply filter_In in Hin.
  apply in_map_iff. exists x. tauto.
Qed.

Lemma touched_ids (row : Row) (now : Z) (rows : list Row) :
  map id (touched row now rows) = map id rows.
Proof.
  unfold touched. rewrite map_map. apply map_ext.
  intros r. now destruct (JS.eqb (id r) (id row)).
Qed.

Lemma converted_ids (addr : JSString) (rows : list Row) :
  map id (converted addr rows) = map id rows.
Proof.
  unfold converted. rewrite map_map. apply map_ext.
  intros r. now destruct (convertible_row addr r).
Qed.

Lemma insert_unique_ids (r : Row) (rows : list Row) :
  unique_ids rows ->
  existsb (fun r' => JS.eqb (id r') (id r) || JS.eqb (address r') (address r))
          rows = false ->
  unique_ids (rows ++ [r]).
Proof.
  unfold unique_ids. intros Hnd Hnew.
  rewrite map_app. simpl.
  apply NoDup_app; [exact Hnd | repeat constructor; intros [] |].
  intros a Ha [<- | []]. apply in_map_iff in Ha.
  destruct Ha as (x & Hx & Hin).
  assert (Hex : existsb (fun r' => JS.eqb (id r') (id r)
                                   || JS.eqb (address r') (address r)) rows
                = true).
  { apply existsb_exists. exists x. split; [exact Hin|].
    now rewrite (proj2 (eqb_eq _ _) Hx). }
  congruence.
Qed.

Lemma run_op_unique (op : StoreOp) (w : World) :
  unique_addresses (mailboxes w) /\ unique_ids (mailboxes w) ->
  unique_addresses (mailboxes (run_op op w))
  /\ unique_ids (mailboxes (run_op op w)).
Proof.
  intros [Ha Hi].
  destruct op as [params | addr | addr | addr |]; unfold run_op.
  - rewrite createMailbox_rows.
    match goal with
    | |- context [existsb ?p ?l] => destruct (existsb p l) eqn:Hex
    end; [tauto|].
    split; [now apply unique_insert | now apply insert_unique_ids].
  - destruct (find (live_row addr (clock w (clock_pos w))) (mailboxes w))
      as [row|] eqn:Hfind.
    + rewrite (getMailbox_hit addr w row Hfind).
      cbn [snd mailboxes set_mailboxes]. split.
      * now apply unique_touched.
      * unfold unique_ids. now rewrite touched_ids.
    + rewrite (getMailbox_miss addr w Hfind). tauto.
  - rewrite convertMailboxToPermanent_run.
    cbn [snd mailboxes set_mailboxes]. split.
    + now apply unique_converted.
    + unfold unique_ids. now rewrite converted_ids.
  - rewrite deleteMailbox_run.
    destruct (find (live_row addr (clock w (clock_pos w))) (mailboxes w))
      as [row|]; [|tauto].
    destruct (isPermanentMailbox (expires_at row));
      cbn [snd mailboxes set_mailboxes].
    + split; [now apply unique_touched|].
      unfold unique_ids. now rewrite touched_ids.
    + split; [now apply unique_filter, unique_touched|].
      unfold without. apply unique_ids_filter.
      unfold unique_ids. now rewrite touched_ids.
  - destruct (cleanupExpiredMailboxes_run w) as (w' & Hrun & Hrows).
    rewrite Hrun. cbn [snd]. rewrite Hrows. split.
    + now apply unique_filter.
    + now apply unique_ids_filter.
Qed.

Lemma run_ops_unique (ops : list StoreOp) :
  forall w : World,
    unique_addresses (mailboxes w) /\ unique_ids (mailboxes w) ->
    unique_addresses (mailboxes (run_ops ops w))
    /\ unique_ids (mailboxes (run_ops ops w)).
Proof.
  induction ops as [|op ops IH]; intros w H; [exact H|].
  simpl. apply IH. now apply run_op_unique.
Qed.

(** X10: through any sequence of store operations the table keeps its
    two keys: if the addresses, and the ids, of the rows are pairwise
    distinct at the start, they are at the end; a creation that would
    repeat an address or an id is refused by the [INSERT] and changes
    nothing. *)
Theorem store_keeps_keys_unique (ops : list StoreOp) (w : World) :
  unique_addresses (mailboxes w) -> unique_ids (mailboxes w) ->
  (unique_addresses (mailboxes (run_ops ops w))
   /\ unique_ids (mailboxes (run_ops ops w)))
  /\ (forall params,
        (exists r, In r (mailboxes w)
                   /\ (address r = param_address params
                       \/ id r = uuids w (uuid_pos w))) ->
        fst (createMailbox params w) = Thrown ConstraintViolation
        /\ mailboxes (snd (createMailbox params w)) = mailboxes w).
Proof.
  intros Ha Hi. split; [now apply run_ops_unique|].
  intros [addr ty hours ip flag] (r & Hin & Hdup).
  cbn [param_address] in Hdup.
  assert (Hex : existsb (fun r' => JS.eqb (id r') (uuids w (uuid_pos w))
                                   || JS.eqb (address r') addr) (mailboxes w)
                = true).
  { apply existsb_exists. exists r. split; [exact Hin|].
    destruct Hdup as [<- | <-]; rewrite eqb_refl;
      [apply orb_true_r | reflexivity]. }
  unfold_store. cbn.
  destruct (truthy_flag flag && isPermanentAllowedForAddressType ty); cbn;
    rewrite Hex; split; reflexivity.
Qed.

(** X10 on the sample table: the keys stay distinct through a run, and a
    second "archive" is refused. *)
Lemma store_keeps_keys_unique_witness :
  unique_addresses
    (mailboxes (run_ops [OpGet (js "archive"); OpSweep;
                         OpConvert (js "amy.lee")] sample_late))
  /\ fst (createMailbox (mkParams (js "archive") Custom 24 (js "unknown")
                                  None) sample_late)
     = Thrown ConstraintViolation.
Proof.
  assert (Hids : unique_ids (mailboxes sample_late)).
  { unfold unique_ids. repeat constructor; cbv; intuition discriminate. }
  destruct (store_keeps_keys_unique
              [OpGet (js "archive"); OpSweep; OpConvert (js "amy.lee")]
              sample_late sample_rows_unique Hids) as [[Ha _] Hrefuse].
  split; [exact Ha|].
  apply (Hrefuse (mkParams (js "archive") Custom 24 (js "unknown") None)).
  exists row_permanent. split; [simpl; tauto | left; reflexivity].
Defined.

(** ** Round trips and compositions on the store *)

Lemma fresh_insert_ok (addr newId : JSString) (rows : list Row) (r : Row) :
  fresh addr newId rows -> id r = newId -> address r = addr ->
  existsb (fun r' => JS.eqb (id r') (id r) || JS.eqb (address r') (address r))
          rows = false.
Proof. intros Hfresh -> ->. now apply fresh_existsb. Qed.

(** X11: a mailbox just created is found again: after [createMailbox]
    returns, [getMailbox] on its address returns the same mailbox (with
    [lastAccessed] set to the time of the lookup) if that time is before
    its expiry or the mailbox is permanent, and [null] if the expiry,
    not the sentinel, has been reached. *)
Theorem createMailbox_then_getMailbox (addr : JSString) (ty : AddressType)
    (hours : Z) (ip : JSString) (flag : option bool) (w : World) :
  unique_addresses (mailboxes w) ->
  fresh addr (uuids w (uuid_pos w)) (mailboxes w) ->
  exists m w1,
    createMailbox (mkParams addr ty hours ip flag) w = (Returned m, w1)
    /\ ((clock w1 (clock_pos w1) < expiresAt m)%Z
        \/ expiresAt m = PERMANENT_MAILBOX_SENTINEL ->
        fst (getMailbox addr w1)
        = Returned (Some (mkMailbox (mailbox_id m) addr ty (createdAt m)
                                    (expiresAt m) ip
                                    (clock w1 (clock_pos w1))
                                    (isPermanent m))))
    /\ ((expiresAt m <= clock w1 (clock_pos w1))%Z ->
        expiresAt m <> PERMANENT_MAILBOX_SENTINEL ->
        fst (getMailbox addr w1) = Returned None).
Proof.
  intros Huniq Hfresh.
  pose proof (createMailbox_run addr ty hours ip flag w Hfresh) as Hrun.
  cbv zeta in Hrun.
  set (expiry := if truthy_flag flag && isPermanentAllowedForAddressType ty
                 then PERMANENT_MAILBOX_SENTINEL
                 else (clock w (S (clock_pos w)) + hours * 60 * 60)%Z) in *.
  set (row := mkRow (uuids w (uuid_pos w)) addr ty (clock w (clock_pos w))
                    expiry ip (clock w (clock_pos w))) in *.
  eexists. eexists. split; [exact Hrun|].
  set (w1 := set_mailboxes (mailboxes w ++ [row]) _).
  cbn [expiresAt mailbox_id createdAt isPermanent].
  assert (Hu1 : unique_addresses (mailboxes w1)).
  { apply (unique_insert row); [exact Huniq|].
    now apply (fresh_insert_ok addr (uuids w (uuid_pos w))). }
  assert (Hin : In row (mailboxes w1)).
  { apply in_or_app. right. now left. }
  split.
  - intros Hlive.
    assert (Hl : live_row addr (clock w1 (clock_pos w1)) row = true).
    { apply live_row_iff. split; [reflexivity | exact Hlive]. }
    rewrite (getMailbox_hit addr w1 row
               (find_live_unique _ _ _ _ Hu1 Hin Hl)).
    reflexivity.
  - intros Hdead Htemp.
    rewrite (getMailbox_miss addr w1); [reflexivity|].
    apply find_live_none. intros r Hr Haddr.
    apply in_app_or in Hr. destruct Hr as [Hr | [<- | []]].
    + destruct (Hfresh r Hr). contradiction.
    + split; assumption.
Qed.

(** X11 on an empty table: a mailbox created for 24 hours when the clock
    reads 1000 is found when the clock next reads 1002. *)
Lemma createMailbox_then_getMailbox_witness :
  exists m w1,
    createMailbox (mkParams (js "john.doe") Name 24 (js "unknown") None)
                  (sample_world [] 1000) = (Returned m, w1)
    /\ fst (getMailbox (js "john.doe") w1)
       = Returned (Some (mkMailbox (mailbox_id m) (js "john.doe") Name
                                   (createdAt m) (expiresAt m) (js "unknown")
                                   (clock w1 (clock_pos w1)) (isPermanent m))).
Proof.
  destruct (createMailbox_then_getMailbox (js "john.doe") Name 24
              (js "unknown") None (sample_world [] 1000))
    as (m & w1 & Hrun & Hfound & _).
  - constructor.
  - intros r [].
  - exists m, w1. split; [exact Hrun|]. apply Hfound. left.
    assert (Hm : fst (createMailbox
                        (mkParams (js "john.doe") Name 24 (js "unknown") None)
                        (sample_world [] 1000))
                 = Returned (mkMailbox (js "uuid-0") (js "john.doe") Name 1000
                                       87401 (js "unknown") 1000 false))
      by (vm_compute; reflexivity).
    assert (Hc : (let w' := snd (createMailbox
                        (mkParams (js "john.doe") Name 24 (js "unknown") None)
                        (sample_world [] 1000)) in
                  clock w' (clock_pos w')) = 1002%Z)
      by (vm_compute; reflexivity).
    rewrite Hrun in Hm, Hc. cbn [fst snd] in Hm, Hc.
    inversion Hm; subst m. cbv zeta in Hc. rewrite Hc. cbn. lia.
Defined.

Lemma find_filter_same {A : Type} (p q : A -> bool) (l : list A) :
  (forall x, In x l -> p x = true -> q x = true) ->
  find p (filter q l) = find p l.
Proof.
  induction l as [|x l IH]; intros H; [reflexivity|].
  simpl. destruct (q x) eqn:Hq; simpl.
  - destruct (p x); [reflexivity|]. apply IH. intros y Hy. apply H. now right.
  - destruct (p x) eqn:Hp.
    + rewrite (H x (or_introl eq_refl) Hp) in Hq. discriminate.
    + apply IH. intros y Hy. apply H. now right.
Qed.

(** X12: the sweep only removes what a lookup no longer shows: if the
    clock does not go backwards, [getMailbox] right after
    [cleanupExpiredMailboxes] returns what it would have returned at that
    moment without the sweep. *)
Theorem sweep_invisible_to_lookup (addr : JSString) (w : World) :
  (clock w (clock_pos w) <= clock w (S (clock_pos w)))%Z ->
  fst (getMailbox addr (snd (cleanupExpiredMailboxes w)))
  = fst (getMailbox addr (advance_clock w)).
Proof.
  intros Hmono.
  destruct (cleanupExpiredMailboxes_run w) as (w1 & Hrun & Hrows).
  assert (Hw1 : snd (cleanupExpiredMailboxes w)
                = set_mailboxes
                    (filter (fun r => negb (reclaimable_row
                                              (clock w (clock_pos w)) r))
                            (mailboxes w)) (advance_clock w))
    by reflexivity.
  rewrite Hw1. clear Hrun Hrows w1 Hw1.
  set (now' := clock w (S (clock_pos w))) in *.
  assert (Hfind : find (live_row addr now')
                    (filter (fun r => negb (reclaimable_row
                                              (clock w (clock_pos w)) r))
                            (mailboxes w))
                  = find (live_row addr now') (mailboxes w)).
  { apply find_filter_same. intros r _ Hlive.
    apply live_row_iff in Hlive. destruct Hlive as [_ Hlive].
    apply negb_true_iff.
    destruct (reclaimable_row (clock w (clock_pos w)) r) eqn:Hrec;
      [|reflexivity].
    apply reclaimable_row_iff in Hrec. lia. }
  destruct (find (live_row addr now') (mailboxes w)) as [row|] eqn:Hf.
  - rewrite (getMailbox_hit addr (advance_clock w) row Hf).
    erewrite getMailbox_hit; [reflexivity|]. exact Hfind.
  - rewrite (getMailbox_miss addr (advance_clock w) Hf).
    erewrite getMailbox_miss; [reflexivity|]. exact Hfind.
Qed.

(** X12 on the sample table at time 6000, for the expired "amy.lee". *)
Lemma sweep_invisible_to_lookup_witness :
  fst (getMailbox (js "amy.lee") (snd (cleanupExpiredMailboxes sample_late)))
  = fst (getMailbox (js "amy.lee") (advance_clock sample_late)).
Proof.
  apply sweep_invisible_to_lookup. cbn. lia.
Defined.

Lemma filter_all {A : Type} (p : A -> bool) (l : list A) :
  (forall x, In x l -> p x = true) -> filter p l = l.
Proof.
  induction l as [|x l IH]; intros H; [reflexivity|].
  simpl. rewrite (H x (or_introl eq_refl)). f_equal.
  apply IH. intros y Hy. apply H. now right.
Qed.

Lemma filter_none {A : Type} (p : A -> bool) (l : list A) :
  (forall x, In x l -> p x = false) -> filter p l = [].
Proof.
  induction l as [|x l IH]; intros H; [reflexivity|].
  simpl. rewrite (H x (or_introl eq_refl)).
  apply IH. intros y Hy. apply H. now right.
Qed.

(** X13: after a sweep at time [now] every row left expires after [now]
    or is permanent, and a second sweep whose clock reading is not later
    than the first removes nothing and reports 0. *)
Theorem cleanupExpiredMailboxes_idempotent (w : World) :
  let now := clock w (clock_pos w) in
  let w1 := snd (cleanupExpiredMailboxes w) in
  (forall r, In r (mailboxes w1) ->
             (now < expires_at r)%Z
             \/ expires_at r = PERMANENT_MAILBOX_SENTINEL)
  /\ ((clock w (S (clock_pos w)) <= now)%Z ->
      fst (cleanupExpiredMailboxes w1) = Returned 0%nat
      /\ mailboxes (snd (cleanupExpiredMailboxes w1)) = mailboxes w1).
Proof.
  intros now w1.
  assert (Hw1 : mailboxes w1
                = filter (fun r => negb (reclaimable_row now r))
                         (mailboxes w)) by reflexivity.
  assert (Hleft : forall r, In r (mailboxes w1) ->
                            (now < expires_at r)%Z
                            \/ expires_at r = PERMANENT_MAILBOX_SENTINEL).
  { intros r Hr. rewrite Hw1 in Hr. apply filter_In in Hr.
    destruct Hr as [_ Hr]. apply negb_true_iff in Hr.
    destruct (Z.eq_dec (expires_at r) PERMANENT_MAILBOX_SENTINEL)
      as [Heq|Hne]; [now right|]. left.
    destruct (Z.lt_ge_cases now (expires_at r)) as [Hlt|Hge]; [exact Hlt|].
    assert (reclaimable_row now r = true)
      by (apply reclaimable_row_iff; split; [lia | exact Hne]).
    congruence. }
  split; [exact Hleft|]. intros Hback.
  destruct (cleanupExpiredMailboxes_run w1) as (w2 & Hrun & Hrows).
  assert (Hclock : clock w1 (clock_pos w1) = clock w (S (clock_pos w)))
    by reflexivity.
  rewrite Hclock in Hrun, Hrows.
  assert (Hnone : forall r, In r (mailboxes w1) ->
             reclaimable_row (clock w (S (clock_pos w))) r = false).
  { intros r Hr. destruct (Hleft r Hr) as [Hlt | Heq];
      destruct (reclaimable_row (clock w (S (clock_pos w))) r) eqn:Hrec;
      try reflexivity; apply reclaimable_row_iff in Hrec;
      [lia | tauto]. }
  rewrite Hrun. cbn [fst snd]. split.
  - now rewrite (filter_none _ _ Hnone).
  - rewrite Hrows. apply filter_all. intros r Hr.
    now rewrite (Hnone r Hr).
Qed.

Lemma filter_length_existsb {A : Type} (p : A -> bool) (l : list A) :
  (0 <? length (filter p l))%nat = existsb p l.
Proof.
  induction l as [|x l IH]; [reflexivity|].
  simpl. destruct (p x); [reflexivity | exact IH].
Qed.

Lemma convertible_row_iff (addr : JSString) (r : Row) :
  convertible_row addr r = true
  <-> address r = addr /\ address_type r <> Random
      /\ expires_at r <> PERMANENT_MAILBOX_SENTINEL.
Proof.
  unfold convertible_row.
  rewrite !andb_true_iff, negb_true_iff, eqb_eq, Z.eqb_neq.
  destruct (address_type r); simpl; intuition congruence.
Qed.

(** X14: the store function [convertMailboxToPermanent] returns [true]
    exactly when the table has a row with the address, of class name or
    custom, that does not hold the sentinel yet; it then gives that row
    the sentinel, also when the row has already expired, so that the
    mailbox is found again; it returns [false], changing nothing, for an
    absent address, a random mailbox and a mailbox that is already
    permanent. *)
Theorem convertMailboxToPermanent_exact (addr : JSString) (w : World) :
  let eligible (r : Row) :=
    address r = addr /\ address_type r <> Random
    /\ expires_at r <> PERMANENT_MAILBOX_SENTINEL in
  let out := convertMailboxToPermanent addr w in
  (fst out = Returned true <-> exists r, In r (mailboxes w) /\ eligible r)
  /\ (fst out = Returned false
      <-> ~ exists r, In r (mailboxes w) /\ eligible r)
  /\ (fst out = Returned false -> snd out = w)
  /\ (forall r, In r (mailboxes w) -> eligible r ->
        In (set_expires_at PERMANENT_MAILBOX_SENTINEL r)
           (mailboxes (snd out)))
  /\ (forall r, In r (mailboxes w) -> ~ eligible r ->
        In r (mailboxes (snd out)))
  /\ (forall r, unique_addresses (mailboxes w) ->
        In r (mailboxes w) -> eligible r ->
        fst (getMailbox addr (snd out))
        = Returned
            (Some (mailbox_of_row
                     (set_expires_at PERMANENT_MAILBOX_SENTINEL r)
                     (clock w (clock_pos w))))).
Proof.
  intros eligible out. subst out.
  rewrite convertMailboxToPermanent_run. cbn [fst snd].
  rewrite filter_length_existsb.
  assert (Hex : existsb (convertible_row addr) (mailboxes w) = true
                <-> exists r, In r (mailboxes w) /\ eligible r).
  { rewrite existsb_exists. split; intros (r & Hr & Hc); exists r;
      (split; [exact Hr|]); now apply convertible_row_iff. }
  split; [|split; [|split; [|split; [|split]]]].
  - rewrite <- Hex. split; [now intros [= ->] | now intros ->].
  - rewrite <- Hex.
    destruct (existsb (convertible_row addr) (mailboxes w));
      split; try discriminate; auto. intros H. now destruct H.
  - intros Hfalse.
    assert (Hno : forall r, In r (mailboxes w) ->
                            convertible_row addr r = false).
    { intros r Hr. destruct (convertible_row addr r) eqn:Hc; [|reflexivity].
      assert (existsb (convertible_row addr) (mailboxes w) = true)
        by (apply existsb_exists; eauto).
      congruence. }
    assert (Hsame : converted addr (mailboxes w) = mailboxes w).
    { unfold converted. rewrite <- (map_id (mailboxes w)) at 2.
      apply map_ext_in. intros r Hr. now rewrite (Hno r Hr). }
    rewrite Hsame. now destruct w.
  - intros r Hr Hel. apply converted_In; [exact Hr|].
    now apply convertible_row_iff.
  - intros r Hr Hnot. cbn [mailboxes set_mailboxes]. unfold converted.
    apply in_map_iff. exists r. split; [|exact Hr].
    destruct (convertible_row addr r) eqn:Hc; [|reflexivity].
    apply convertible_row_iff in Hc. contradiction.
  - intros r Huniq Hr Hel.
    set (w1 := set_mailboxes (converted addr (mailboxes w)) w).
    assert (Hin : In (set_expires_at PERMANENT_MAILBOX_SENTINEL r)
                     (mailboxes w1)).
    { apply converted_In; [exact Hr | now apply convertible_row_iff]. }
    assert (Hl : live_row addr (clock w1 (clock_pos w1))
                   (set_expires_at PERMANENT_MAILBOX_SENTINEL r) = true).
    { apply live_row_iff. destruct Hel as [Ha _]. cbn. tauto. }
    rewrite (getMailbox_hit addr w1 _
               (find_live_unique _ _ _ _
                  (unique_converted addr _ Huniq) Hin Hl)).
    reflexivity.
Qed.

(** X14 on the sample table at time 6000: "amy.lee", which expired at
    5000, is converted and found again; the random mailbox is not. *)
Lemma convertMailboxToPermanent_exact_witness :
  fst (convertMailboxToPermanent (js "amy.lee") sample_late) = Returned true
  /\ fst (getMailbox (js "amy.lee")
            (snd (convertMailboxToPermanent (js "amy.lee") sample_late)))
     = Returned (Some (mailbox_of_row
                         (set_expires_at PERMANENT_MAILBOX_SENTINEL
                                         row_temporary) 6000))
  /\ fst (convertMailboxToPermanent (js "k3x9qa7bb") sample_late)
     = Returned false.
Proof.
  assert (Hel : address row_temporary = js "amy.lee"
                /\ address_type row_temporary <> Random
                /\ expires_at row_temporary <> PERMANENT_MAILBOX_SENTINEL).
  { repeat split; cbv; discriminate. }
  split; [|split].
  - apply (proj1 (convertMailboxToPermanent_exact (js "amy.lee")
                    sample_late)).
    exists row_temporary. split; [simpl; tauto | exact Hel].
  - apply (proj2 (proj2 (proj2 (proj2 (proj2
             (convertMailboxToPermanent_exact (js "amy.lee") sample_late)))))
             row_temporary sample_rows_unique).
    + simpl. tauto.
    + exact Hel.
  - apply (proj1 (proj2 (convertMailboxToPermanent_exact (js "k3x9qa7bb")
                           sample_late))).
    intros (r & Hr & Ha & Ht & _). vm_compute in Hr.
    destruct Hr as [<- | [<- | [<- | []]]];
      try (vm_compute in Ha; discriminate). now apply Ht.
Defined.

(** X13 with a clock that reads 6000 twice: the second sweep reports 0. *)
Lemma cleanupExpiredMailboxes_idempotent_witness :
  fst (cleanupExpiredMailboxes
         (snd (cleanupExpiredMailboxes
                 (mkWorld sample_rows (fun _ => 0%N) 0 (fun _ => 6000%Z) 0
                          sample_uuid 0))))
  = Returned 0%nat.
Proof.
  apply (proj2 (cleanupExpiredMailboxes_idempotent
                  (mkWorld sample_rows (fun _ => 0%N) 0 (fun _ => 6000%Z) 0
                           sample_uuid 0))).
  cbn. lia.
Defined.

(** X15: a successful [deleteMailbox] frees the address: afterwards
    [getMailbox] does not find it, whatever the clock reads, and
    [createMailbox] on the same address returns as soon as the new id is
    not in the table. *)
Theorem deleteMailbox_frees_address (addr : JSString) (w : World) (r : Row) :
  unique_addresses (mailboxes w) ->
  In r (mailboxes w) -> address r = addr ->
  (clock w (clock_pos w) < expires_at r)%Z ->
  expires_at r <> PERMANENT_MAILBOX_SENTINEL ->
  let w1 := snd (deleteMailbox addr w) in
  fst (deleteMailbox addr w) = Returned (mkDeleteResult true None)
  /\ fst (getMailbox addr w1) = Returned None
  /\ (forall ty hours ip flag,
        (forall r', In r' (mailboxes w) -> id r' <> uuids w (uuid_pos w)) ->
        exists m w2,
          createMailbox (mkParams addr ty hours ip flag) w1
          = (Returned m, w2)
          /\ mailbox_address m = addr
          /\ In (mkRow (mailbox_id m) addr ty (createdAt m) (expiresAt m) ip
                       (lastAccessed m)) (mailboxes w2)).
Proof.
  intros Huniq Hin Haddr Hfuture Htemp w1. subst w1.
  rewrite deleteMailbox_run.
  assert (Hl : live_row addr (clock w (clock_pos w)) r = true)
    by (apply live_row_iff; tauto).
  rewrite (find_live_unique _ _ _ _ Huniq Hin Hl).
  destruct (isPermanentMailbox (expires_at r)) eqn:Hperm.
  { apply isPermanentMailbox_iff in Hperm. contradiction. }
  cbn [fst snd].
  set (w1 := set_mailboxes _ (advance_clock w)).
  assert (Hgone : forall r', In r' (mailboxes w1) -> address r' <> addr).
  { intros r' Hr'. apply without_spec in Hr'. tauto. }
  split; [reflexivity|]. split.
  - rewrite (getMailbox_miss addr w1); [reflexivity|].
    destruct (find (live_row addr (clock w1 (clock_pos w1))) (mailboxes w1))
      as [r'|] eqn:Hfind; [|reflexivity].
    apply find_some in Hfind. destruct Hfind as [Hr' Hlive].
    apply live_row_iff in Hlive. destruct (Hgone r' Hr'). tauto.
  - intros ty hours ip flag Hid.
    assert (Hfresh : fresh addr (uuids w1 (uuid_pos w1)) (mailboxes w1)).
    { intros r' Hr'. split; [|now apply Hgone].
      apply without_spec in Hr'. destruct Hr' as [Hr' _].
      apply touched_expiry in Hr'. destruct Hr' as (r0 & Hr0 & _ & _ & Hi).
      rewrite Hi. now apply Hid. }
    pose proof (createMailbox_run addr ty hours ip flag w1 Hfresh) as Hrun.
    cbv zeta in Hrun. eexists. eexists. split; [exact Hrun|].
    split; [reflexivity|].
    cbn [mailboxes set_mailboxes]. apply in_or_app. right. now left.
Qed.

(** X15 on the sample table at time 2000: "amy.lee" is deleted and can be
    created again. *)
Lemma deleteMailbox_frees_address_witness :
  fst (getMailbox (js "amy.lee")
         (snd (deleteMailbox (js "amy.lee") sample_early)))
  = Returned None
  /\ exists m w2,
       createMailbox (mkParams (js "amy.lee") Custom 24 (js "unknown") None)
                     (snd (deleteMailbox (js "amy.lee") sample_early))
       = (Returned m, w2)
       /\ mailbox_address m = js "amy.lee".
Proof.
  destruct (deleteMailbox_frees_address (js "amy.lee") sample_early
              row_temporary sample_rows_unique)
    as (_ & Hgone & Hagain).
  - simpl. tauto.
  - reflexivity.
  - cbn. lia.
  - cbv. discriminate.
  - split; [exact Hgone|].
    destruct (Hagain Custom 24%Z (js "unknown") None)
      as (m & w2 & Hrun & Ha & _).
    + intros r' Hr'. vm_compute in Hr'.
      destruct Hr' as [<- | [<- | [<- | []]]]; vm_compute; discriminate.
    + exists m, w2. auto.
Defined.

(** ** The creation handler, composed *)

Lemma createMailbox_refused (params : CreateMailboxParams) (w : World)
    (r : Row) :
  In r (mailboxes w) -> address r = param_address params ->
  createMailbox params w
  = (Thrown ConstraintViolation,
     advance_uuid
       (if truthy_flag (param_isPermanent params)
           && isPermanentAllowedForAddressType (param_addressType params)
        then advance_clock w else advance_clock (advance_clock w))).
Proof.
  destruct params as [addr ty hours ip flag]. cbn [param_address
    param_isPermanent param_addressType]. intros Hin Haddr.
  assert (Hex : existsb (fun r' => JS.eqb (id r') (uuids w (uuid_pos w))
                                   || JS.eqb (address r') addr) (mailboxes w)
                = true).
  { apply existsb_exists. exists r. split; [exact Hin|].
    rewrite Haddr, eqb_refl. apply orb_true_r. }
  unfold_store. cbn.
  destruct (truthy_flag flag && isPermanentAllowedForAddressType ty); cbn;
    rewrite Hex; reflexivity.
Qed.

(** The handler once an address is chosen and the lookup finds nothing:
    the answer depends on the [INSERT] alone. *)
Lemma post_mailboxes_free (request : CreateRequest) (ip : option JSString)
    (ty : AddressType) (a : JSString) (w w1 : World) :
  parseAddressType (or_else (body_addressType request) (js "random"))
  = Some ty ->
  truthy_flag (body_isPermanent request) && AddressType_eqb ty Random
  = false ->
  chooseAddress ty request w = (Returned (inr a), w1) ->
  find (live_row a (clock w1 (clock_pos w1))) (mailboxes w1) = None ->
  post_mailboxes request ip w
  = match createMailbox
            (mkParams a ty 24 (or_else ip (js "unknown"))
                      (Some (truthy_flag (body_isPermanent request))))
            (advance_clock w1) with
    | (Returned m, w2) =>
        (Returned (json (SuccessMailbox None (Some m))), w2)
    | (Thrown _, w2) =>
        (Returned (json_status (Failure (Some Create_mailbox_failed)) 400),
         w2)
    end.
Proof.
  intros Hty Hperm Hchoose Hfind. unfold post_mailboxes, try_catch.
  rewrite Hty, Hperm, (bind_run _ _ _ _ _ Hchoose),
    (bind_run _ _ _ _ _ (getMailbox_miss a w1 Hfind)).
  unfold bind.
  destruct (createMailbox _ (advance_clock w1)) as [[m|e] w2]; reflexivity.
Qed.

Lemma chooseAddress_custom (c : CodeUnit) (s : JSString)
    (class : option JSString) (flag : option bool) (w : World) :
  valid (validateCustomAddress (c :: s)) = true ->
  chooseAddress Custom (mkRequest class flag (Some (c :: s))) w
  = (Returned (inr (toLowerCase (c :: s))), w).
Proof.
  intros Hvalid. unfold chooseAddress. cbn [body_address].
  now rewrite Hvalid.
Qed.

(** X16: a custom address whose row has expired but was not swept yet
    cannot be created again: the lookup does not see the row, the
    [INSERT] meets it, and the handler answers 400 "creating the mailbox
    failed" with the table as it was; once [cleanupExpiredMailboxes] has
    run, the same request creates the mailbox. *)
Theorem post_mailboxes_blocked_until_swept (c : CodeUnit) (s : JSString)
    (flag : option bool) (ip : option JSString) (w : World) (r : Row) :
  let supplied := c :: s in
  let request := mkRequest (Some (js "custom")) flag (Some supplied) in
  valid (validateCustomAddress supplied) = true ->
  unique_addresses (mailboxes w) ->
  In r (mailboxes w) -> address r = toLowerCase supplied ->
  (expires_at r <= clock w (clock_pos w))%Z ->
  expires_at r <> PERMANENT_MAILBOX_SENTINEL ->
  (fst (post_mailboxes request ip w)
   = Returned (json_status (Failure (Some Create_mailbox_failed)) 400)
   /\ mailboxes (snd (post_mailboxes request ip w)) = mailboxes w)
  /\ ((forall r', In r' (mailboxes w) -> id r' <> uuids w (uuid_pos w)) ->
      exists m,
        fst (post_mailboxes request ip (snd (cleanupExpiredMailboxes w)))
        = Returned (json (SuccessMailbox None (Some m)))
        /\ mailbox_address m = toLowerCase supplied
        /\ addressType m = Custom).
Proof.
  intros supplied request Hvalid Huniq Hin Haddr Hexp Htemp.
  assert (Hty : parseAddressType
                  (or_else (body_addressType request) (js "random"))
                = Some Custom) by reflexivity.
  assert (Hperm : truthy_flag (body_isPermanent request)
                  && AddressType_eqb Custom Random = false)
    by apply andb_false_r.
  split.
  - assert (Hfind : find (live_row (toLowerCase supplied)
                            (clock w (clock_pos w))) (mailboxes w) = None).
    { apply find_live_none. intros r' Hr' Ha'.
      assert (r' = r)
        by (apply (unique_addresses_eq (mailboxes w)); auto; congruence).
      subst r'. tauto. }
    rewrite (post_mailboxes_free request ip Custom (toLowerCase supplied)
               w w Hty Hperm (chooseAddress_custom c s _ flag w Hvalid)
               Hfind).
    rewrite (createMailbox_refused
               (mkParams (toLowerCase supplied) Custom 24
                         (or_else ip (js "unknown"))
                         (Some (truthy_flag (body_isPermanent request))))
               (advance_clock w) r Hin Haddr).
    split; [reflexivity|].
    cbn [param_isPermanent param_addressType].
    destruct (truthy_flag (Some _) && isPermanentAllowedForAddressType _);
      reflexivity.
  - intros Hids.
    destruct (cleanupExpiredMailboxes_run w) as (w1 & Hrun & Hrows).
    rewrite Hrun. cbn [snd].
    assert (Hw1 : uuids w1 (uuid_pos w1) = uuids w (uuid_pos w)).
    { assert (H : snd (cleanupExpiredMailboxes w) = w1) by now rewrite Hrun.
      rewrite <- H. reflexivity. }
    assert (Hfresh : fresh (toLowerCase supplied) (uuids w1 (uuid_pos w1))
                           (mailboxes w1)).
    { intros r' Hr'. rewrite Hrows in Hr'. apply filter_In in Hr'.
      destruct Hr' as [Hr' Hkeep]. rewrite Hw1. split; [now apply Hids|].
      intros Ha'.
      assert (r' = r)
        by (apply (unique_addresses_eq (mailboxes w)); auto; congruence).
      subst r'. apply negb_true_iff in Hkeep.
      assert (reclaimable_row (clock w (clock_pos w)) r = true)
        by (apply reclaimable_row_iff; tauto).
      congruence. }
    rewrite (post_mailboxes_free request ip Custom (toLowerCase supplied)
               w1 w1 Hty Hperm (chooseAddress_custom c s _ flag w1 Hvalid)
               (fresh_find_none _ _ _ _ Hfresh)).
    pose proof (createMailbox_run (toLowerCase supplied) Custom 24
                  (or_else ip (js "unknown"))
                  (Some (truthy_flag (body_isPermanent request)))
                  (advance_clock w1) Hfresh) as Hcreate.
    cbv zeta in Hcreate. rewrite Hcreate.
    eexists. split; [reflexivity|]. split; reflexivity.
Qed.

(** X16 on the sample table at time 6000, for "Amy.Lee": refused before
    the sweep, created after it. *)
Lemma post_mailboxes_blocked_until_swept_witness :
  fst (post_mailboxes (mkRequest (Some (js "custom")) None
                                 (Some (js "Amy.Lee"))) None sample_late)
  = Returned (json_status (Failure (Some Create_mailbox_failed)) 400)
  /\ exists m,
       fst (post_mailboxes (mkRequest (Some (js "custom")) None
                                      (Some (js "Amy.Lee"))) None
                           (snd (cleanupExpiredMailboxes sample_late)))
       = Returned (json (SuccessMailbox None (Some m)))
       /\ mailbox_address m = js "amy.lee".
Proof.
  destruct (post_mailboxes_blocked_until_swept 65%N (js "my.Lee") None None
              sample_late row_temporary eq_refl sample_rows_unique)
    as [[Hblocked _] Hafter].
  - simpl. tauto.
  - reflexivity.
  - cbn. lia.
  - cbv. discriminate.
  - split; [exact Hblocked|].
    destruct Hafter as (m & Hm & Ha & _).
    + intros r' Hr'. vm_compute in Hr'.
      destruct Hr' as [<- | [<- | [<- | []]]]; vm_compute; discriminate.
    + exists m. split; [exact Hm | exact Ha].
Defined.

(** ** What the creation handler stores *)

Lemma name_char_stored (c : CodeUnit) :
  name_char c = true -> validChar c = true /\ lower_unit c = c.
Proof.
  intros H. apply name_char_class in H. unfold in_name_class in H. split.
  - apply validChar_class. unfold in_address_class. lia.
  - unfold lower_unit, is_upper.
    destruct ((65 <=? c)%N && (c <=? 90)%N) eqn:Hup; [|reflexivity].
    apply andb_true_iff in Hup. rewrite !N.leb_le in Hup. lia.
Qed.

Lemma stored_address_chars (a : JSString) :
  (3 <= length a <= 30)%nat ->
  (forall c, In c a -> validChar c = true /\ lower_unit c = c) ->
  stored_address a.
Proof.
  intros Hlen Hchars. split.
  - apply validateCustomAddress_valid_iff. split; [exact Hlen|].
    apply forallb_forall. intros c Hc. now apply Hchars.
  - unfold toLowerCase. rewrite <- (map_id a) at 2.
    apply map_ext_in. intros c Hc. now apply Hchars.
Qed.

Lemma stored_address_toLowerCase (a : JSString) :
  valid (validateCustomAddress a) = true -> stored_address (toLowerCase a).
Proof.
  intros H. split; [now apply validateCustomAddress_toLowerCase|].
  apply toLowerCase_idempotent.
Qed.

Lemma generateNameAddress_stored (w : World) :
  exists a w',
    generateNameAddress w = (Returned a, w')
    /\ stored_address a /\ mailboxes w' = mailboxes w.
Proof.
  destruct (nameAddress_attempt_run w) as (a & w' & Hrun & Hlen & Hchars).
  destruct (nameAddress_attempt_shape w)
    as (f & l & sep & d & w2 & Hrun2 & _ & _ & _ & _ & _ & _ & Hrows).
  assert (Hw : w2 = w') by congruence. subst w2.
  exists a, w'. split; [|split; [|exact Hrows]].
  - unfold generateNameAddress, maxAttempts.
    assert (Hloop : nameAddress_loop 50 w = (Returned (Some a), w')).
    { change (nameAddress_loop 50 w)
        with (bind nameAddress_attempt
                (fun found => match found with
                              | Some a0 => ret (Some a0)
                              | None => nameAddress_loop 49
                              end) w).
      now rewrite (bind_run _ _ _ _ _ Hrun). }
    now rewrite (bind_run _ _ _ _ _ Hloop).
  - apply isValidLength_iff in Hlen.
    apply stored_address_chars; [lia|].
    intros c Hc. apply name_char_stored.
    rewrite forallb_forall in Hchars. now apply Hchars.
Qed.

Lemma generateRandomAddress_stored (w : World) :
  exists a w',
    generateRandomAddress w = (Returned a, w')
    /\ stored_address a /\ mailboxes w' = mailboxes w.
Proof.
  destruct (generateRandomAddress_run w)
    as (c & rest & w' & Hrun & Hlen & Hc & Hrest).
  assert (Hall : forallb random_char (c :: rest) = true).
  { simpl. rewrite Hrest, andb_true_r. unfold random_char. now rewrite Hc. }
  exists (c :: rest), w'. split; [exact Hrun|].
  split; [|exact (generateRandomAddress_rows _ _ _ Hrun)].
  apply stored_address_chars; [lia|].
  intros x Hx. rewrite forallb_forall in Hall.
  split; [apply random_char_validChar | apply random_char_lower_unit];
    now apply Hall.
Qed.

(** The [switch] always returns, does not touch the table, and what it
    chooses is an early 400 or an address that passes the validator and
    is in lower case. *)
Lemma chooseAddress_run (ty : AddressType) (request : CreateRequest)
    (w : World) :
  exists x w1,
    chooseAddress ty request w = (Returned x, w1)
    /\ mailboxes w1 = mailboxes w
    /\ match x with
       | inl response =>
           exists msg, response = json_status (Failure (Some msg)) 400
       | inr a => stored_address a
       end.
Proof.
  assert (Hsupplied :
            forall c s,
              exists x : Response + JSString,
                (let validation := validateCustomAddress (c :: s) in
                 if negb (valid validation)
                 then ret (inl (json_status
                                  (Failure
                                     (Some (Invalid_address_format
                                              (error validation))))
                                  400))
                 else ret (inr (toLowerCase (c :: s)))) w
                = (Returned x, w)
                /\ match x with
                   | inl response =>
                       exists msg,
                         response = json_status (Failure (Some msg)) 400
                   | inr a => stored_address a
                   end).
  { intros c s. cbv zeta.
    destruct (valid (validateCustomAddress (c :: s))) eqn:Hvalid.
    - eexists. split; [reflexivity|].
      now apply stored_address_toLowerCase.
    - eexists. split; [reflexivity|]. eexists. reflexivity. }
  destruct ty; unfold chooseAddress.
  - destruct (generateNameAddress_stored w) as (a & w' & Hrun & Hs & Hrows).
    exists (inr a), w'. rewrite (bind_run _ _ _ _ _ Hrun). auto.
  - destruct (body_address request) as [[|c s]|].
    + destruct (generateRandomAddress_stored w)
        as (a & w' & Hrun & Hs & Hrows).
      exists (inr a), w'. rewrite (bind_run _ _ _ _ _ Hrun). auto.
    + destruct (Hsupplied c s) as (x & Hrun & Hx). exists x, w. auto.
    + destruct (generateRandomAddress_stored w)
        as (a & w' & Hrun & Hs & Hrows).
      exists (inr a), w'. rewrite (bind_run _ _ _ _ _ Hrun). auto.
  - destruct (body_address request) as [[|c s]|].
    + exists (inl (json_status (Failure (Some Custom_address_required)) 400)),
        w.
      split; [reflexivity|]. split; [reflexivity|]. eexists. reflexivity.
    + destruct (Hsupplied c s) as (x & Hrun & Hx). exists x, w. auto.
    + exists (inl (json_status (Failure (Some Custom_address_required)) 400)),
        w.
      split; [reflexivity|]. split; [reflexivity|]. eexists. reflexivity.
Qed.

Lemma existsb_fresh (addr newId : JSString) (rows : list Row) :
  existsb (fun r' => JS.eqb (id r') newId || JS.eqb (address r') addr) rows
  = false ->
  fresh addr newId rows.
Proof.
  intros Hex r Hr.
  destruct (JS.eqb (id r) newId) eqn:Hid;
    [|destruct (JS.eqb (address r) addr) eqn:Haddr].
  - assert (existsb (fun r' => JS.eqb (id r') newId
                               || JS.eqb (address r') addr) rows = true).
    { apply existsb_exists. exists r. now rewrite Hid. }
    congruence.
  - assert (existsb (fun r' => JS.eqb (id r') newId
                               || JS.eqb (address r') addr) rows = true).
    { apply existsb_exists. exists r. now rewrite Hid, Haddr. }
    congruence.
  - apply eqb_neq in Hid. apply eqb_neq in Haddr. tauto.
Qed.

(** Every way out of the creation handler: a 400 with the table as it
    was up to [last_accessed], or a 200 with one row appended. *)
Lemma post_mailboxes_outcome (request : CreateRequest)
    (ip : option JSString) (w : World) :
  let out := post_mailboxes request ip w in
  ((exists msg, fst out = Returned (json_status (Failure (Some msg)) 400))
   /\ same_but_last_accessed (mailboxes w) (mailboxes (snd out)))
  \/ (exists ty a w1,
        parseAddressType (or_else (body_addressType request) (js "random"))
        = Some ty
        /\ truthy_flag (body_isPermanent request)
           && AddressType_eqb ty Random = false
        /\ chooseAddress ty request w = (Returned (inr a), w1)
        /\ mailboxes w1 = mailboxes w
        /\ stored_address a
        /\ fresh a (uuids w1 (uuid_pos w1)) (mailboxes w)
        /\ let wants := truthy_flag (body_isPermanent request)
                        && isPermanentAllowedForAddressType ty in
           let now := clock w1 (S (clock_pos w1)) in
           let expiry :=
             if wants then PERMANENT_MAILBOX_SENTINEL
             else (clock w1 (S (S (clock_pos w1))) + 24 * 60 * 60)%Z in
           let ip' := or_else ip (js "unknown") in
           fst out
           = Returned (json (SuccessMailbox None
                               (Some (mkMailbox (uuids w1 (uuid_pos w1)) a ty
                                                now expiry ip' now
                                                (isPermanentMailbox
                                                   expiry)))))
           /\ mailboxes (snd out)
              = mailboxes w
                ++ [mkRow (uuids w1 (uuid_pos w1)) a ty now expiry ip' now]
           /\ clock (snd out) = clock w1
           /\ (clock_pos (snd out)
               = if wants then S (S (clock_pos w1))
                 else S (S (S (clock_pos w1))))).
Proof.
  intros out. subst out.
  destruct (parseAddressType
              (or_else (body_addressType request) (js "random")))
    as [ty|] eqn:Hty.
  2: { left. unfold post_mailboxes, try_catch. rewrite Hty.
       split; [eexists|]; reflexivity. }
  destruct (truthy_flag (body_isPermanent request)
            && AddressType_eqb ty Random) eqn:Hperm.
  { left. unfold post_mailboxes, try_catch. rewrite Hty, Hperm.
    split; [eexists|]; reflexivity. }
  destruct (chooseAddress_run ty request w)
    as (x & w1 & Hchoose & Hrows & Hx).
  destruct x as [response | a].
  { left. destruct Hx as (msg & ->).
    unfold post_mailboxes, try_catch.
    rewrite Hty, Hperm, (bind_run _ _ _ _ _ Hchoose). cbn [fst snd].
    split; [eexists; reflexivity|]. unfold ret. cbn [fst snd].
    now rewrite Hrows. }
  destruct (find (live_row a (clock w1 (clock_pos w1))) (mailboxes w1))
    as [row|] eqn:Hfind.
  { left.
    rewrite (post_mailboxes_collision request ip ty a _ w w1 _ Hty Hperm
               Hchoose (getMailbox_hit a w1 row Hfind)).
    cbn [fst snd]. split; [eexists; reflexivity|].
    cbn [mailboxes set_mailboxes]. rewrite Hrows. apply touched_same. }
  rewrite (post_mailboxes_free request ip ty a w w1 Hty Hperm Hchoose Hfind).
  destruct (existsb (fun r' => JS.eqb (id r') (uuids w1 (uuid_pos w1))
                               || JS.eqb (address r') a) (mailboxes w1))
    eqn:Hex.
  - left. apply existsb_exists in Hex. destruct Hex as (r & Hr & Hdup).
    pose proof (createMailbox_rows
                  (mkParams a ty 24 (or_else ip (js "unknown"))
                            (Some (truthy_flag (body_isPermanent request))))
                  (advance_clock w1)) as Htable.
    cbv zeta in Htable.
    cbn [param_address param_addressType param_expiresInHours
         param_ipAddress param_isPermanent id address
         mailboxes advance_clock uuids uuid_pos] in Htable.
    assert (Hex : existsb (fun r' => JS.eqb (id r') (uuids w1 (uuid_pos w1))
                                     || JS.eqb (address r') a)
                          (mailboxes w1) = true).
    { apply existsb_exists. exists r. tauto. }
    rewrite Hex in Htable.
    destruct (createMailbox _ (advance_clock w1)) as [[m|e] w2] eqn:Hrun.
    + exfalso. revert Hrun. unfold_store. cbn.
      destruct (truthy_flag (body_isPermanent request)
                && isPermanentAllowedForAddressType ty); cbn;
        rewrite Hex; discriminate.
    + cbn [fst snd] in Htable |- *. split; [eexists; reflexivity|].
      rewrite Htable, Hrows. reflexivity.
  - right. exists ty, a, w1.
    assert (Hfresh : fresh a (uuids w1 (uuid_pos w1)) (mailboxes w1))
      by now apply existsb_fresh.
    pose proof (createMailbox_run a ty 24 (or_else ip (js "unknown"))
                  (Some (truthy_flag (body_isPermanent request)))
                  (advance_clock w1) Hfresh) as Hrun.
    cbv zeta in Hrun. rewrite Hrun. cbn [truthy_flag].
    split; [reflexivity|]. split; [exact Hperm|]. split; [exact Hchoose|].
    split; [exact Hrows|]. split; [exact Hx|].
    split; [now rewrite <- Hrows|]. cbv zeta. cbn [fst snd].
    split; [reflexivity|]. split; [now rewrite <- Hrows|].
    destruct (truthy_flag (body_isPermanent request)
              && isPermanentAllowedForAddressType ty); split; reflexivity.
Qed.

(** X17: the creation handler answers 400 with an error message and
    leaves every row as it was up to [last_accessed], or answers 200 with
    the new mailbox and appends exactly its row, whose address passes
    [validateCustomAddress], is in lower case, and whose address and
    identifier are those of no row that was there; it never removes or
    rewrites a row and never answers otherwise. *)
Theorem post_mailboxes_appends_at_most_one (request : CreateRequest)
    (ip : option JSString) (w : World) :
  let out := post_mailboxes request ip w in
  ((exists msg, fst out = Returned (json_status (Failure (Some msg)) 400))
   /\ same_but_last_accessed (mailboxes w) (mailboxes (snd out)))
  \/ (exists m row,
        fst out = Returned (json (SuccessMailbox None (Some m)))
        /\ mailboxes (snd out) = mailboxes w ++ [row]
        /\ mailbox_of_row row (last_accessed row) = m
        /\ stored_address (address row)
        /\ (forall r, In r (mailboxes w) ->
                      id r <> id row /\ address r <> address row)
        /\ (address_type row = Random ->
            truthy_flag (body_isPermanent request) = false)).
Proof.
  intros out.
  destruct (post_mailboxes_outcome request ip w)
    as [Hfail | (ty & a & w1 & Hty & Hperm & Hchoose & Hrows & Hs & Hfresh
                 & Hout)].
  - left. exact Hfail.
  - right. cbv zeta in Hout. destruct Hout as (Hfst & Htable & _).
    eexists. eexists. split; [exact Hfst|]. split; [exact Htable|].
    split; [reflexivity|]. split; [exact Hs|]. split; [exact Hfresh|].
    cbn [address_type]. intros ->.
    now rewrite andb_true_r in Hperm.
Qed.

Lemma response_400_not_200 (msg : Text) (data : ResponseBody) :
  Returned (json_status (Failure (Some msg)) 400) <> Returned (json data).
Proof. unfold json, json_status. intros H. inversion H. Qed.

Lemma chooseAddress_supplied (ty : AddressType) (request : CreateRequest)
    (c : CodeUnit) (s : JSString) (w w' w1 : World) (a : JSString) :
  body_address request = Some (c :: s) -> ty <> Name ->
  chooseAddress ty request w = (Returned (inr a), w1) ->
  chooseAddress ty request w' = (Returned (inr a), w').
Proof.
  intros Hbody Hty. unfold chooseAddress. rewrite Hbody.
  destruct ty; [congruence| |];
    destruct (negb (valid (validateCustomAddress (c :: s))));
    unfold ret; intros H; inversion H; reflexivity.
Qed.

(** X18: a creation with a supplied address (class custom, or random or
    none with an address in the body) that succeeded, when asked again
    while the mailbox is live, answers 400 "the mailbox address already
    exists" and leaves every row as it was up to [last_accessed]. *)
Theorem post_mailboxes_twice (request : CreateRequest)
    (ip ip2 : option JSString) (c : CodeUnit) (s : JSString) (m : Mailbox)
    (w : World) :
  unique_addresses (mailboxes w) ->
  body_address request = Some (c :: s) ->
  addressType m <> Name ->
  fst (post_mailboxes request ip w)
  = Returned (json (SuccessMailbox None (Some m))) ->
  let w1 := snd (post_mailboxes request ip w) in
  (clock w1 (clock_pos w1) < expiresAt m)%Z
  \/ expiresAt m = PERMANENT_MAILBOX_SENTINEL ->
  mailbox_address m = toLowerCase (c :: s)
  /\ fst (post_mailboxes request ip2 w1)
     = Returned (json_status (Failure (Some Address_already_exists)) 400)
  /\ same_but_last_accessed (mailboxes w1)
       (mailboxes (snd (post_mailboxes request ip2 w1))).
Proof.
  intros Huniq Hbody Hclass Hsuccess w1 Hlive. subst w1.
  destruct (post_mailboxes_outcome request ip w)
    as [[(msg & Hfail) _]
       | (ty & a & w0 & Hty & Hperm & Hchoose & Hrows & Hs & Hfresh & Hout)].
  { rewrite Hfail in Hsuccess.
    now apply response_400_not_200 in Hsuccess. }
  cbv zeta in Hout. destruct Hout as (Hfst & Htable & _).
  rewrite Hfst in Hsuccess. unfold json in Hsuccess.
  injection Hsuccess as Hm. subst m.
  cbn [expiresAt addressType mailbox_address] in Hlive, Hclass |- *.
  set (w1 := snd (post_mailboxes request ip w)) in *.
  match type of Htable with
  | _ = _ ++ [?r] => set (row := r) in *
  end.
  assert (Hu1 : unique_addresses (mailboxes w1)).
  { rewrite Htable. apply (unique_insert row); [exact Huniq|].
    now apply fresh_existsb. }
  assert (Hin : In row (mailboxes w1)).
  { rewrite Htable. apply in_or_app. right. now left. }
  assert (Hl : live_row a (clock w1 (clock_pos w1)) row = true).
  { apply live_row_iff. split; [reflexivity | exact Hlive]. }
  pose proof (chooseAddress_supplied ty request c s w w1 w0 a Hbody Hclass
                Hchoose) as Hchoose1.
  rewrite (post_mailboxes_collision request ip2 ty a _ w1 w1 _ Hty Hperm
             Hchoose1
             (getMailbox_hit a w1 row
                (find_live_unique _ _ _ _ Hu1 Hin Hl))).
  cbn [fst snd mailboxes set_mailboxes].
  split; [|split; [reflexivity | apply touched_same]].
  revert Hchoose. unfold chooseAddress. rewrite Hbody.
  destruct ty; [congruence| |];
    destruct (negb (valid (validateCustomAddress (c :: s))));
    unfold ret; intros H; inversion H; reflexivity.
Qed.

(** X18 on the sample table at time 2000: "Team.Inbox" is created, and
    the same request again is refused. *)
Lemma post_mailboxes_twice_witness :
  let request :=
    mkRequest (Some (js "custom")) None (Some (js "Team.Inbox")) in
  fst (post_mailboxes request None
         (snd (post_mailboxes request None sample_early)))
  = Returned (json_status (Failure (Some Address_already_exists)) 400).
Proof.
  intros request.
  destruct (post_mailboxes_twice request None None 84%N (js "eam.Inbox")
              (mkMailbox (js "uuid-0") (js "team.inbox") Custom 2001 88402
                         (js "unknown") 2001 false)
              sample_early sample_rows_unique eq_refl)
    as (_ & Hagain & _).
  - cbn. discriminate.
  - vm_compute. reflexivity.
  - left. vm_compute. reflexivity.
  - exact Hagain.
Defined.

(** ** From creation to conversion and deletion *)

Lemma touched_keeps (row : Row) (now : Z) (rows : list Row) (r : Row) :
  In r rows ->
  exists r', In r' (touched row now rows)
             /\ address r' = address r /\ expires_at r' = expires_at r
             /\ address_type r' = address_type r.
Proof.
  intros Hin. unfold touched.
  exists (if JS.eqb (id r) (id row) then set_last_accessed now r else r).
  split.
  - apply (in_map (fun r0 => if JS.eqb (id r0) (id row)
                             then set_last_accessed now r0 else r0)).
    exact Hin.
  - destruct (JS.eqb (id r) (id row)); repeat split; reflexivity.
Qed.

Lemma converted_keeps (addr : JSString) (rows : list Row) (r : Row) :
  In r rows -> address r = addr -> address_type r <> Random ->
  exists r', In r' (converted addr rows)
             /\ address r' = addr
             /\ expires_at r' = PERMANENT_MAILBOX_SENTINEL
             /\ address_type r' = address_type r.
Proof.
  intros Hin Haddr Hty. unfold converted.
  exists (if convertible_row addr r
          then set_expires_at PERMANENT_MAILBOX_SENTINEL r else r).
  split.
  - apply (in_map (fun r0 => if convertible_row addr r0
                             then set_expires_at PERMANENT_MAILBOX_SENTINEL r0
                             else r0)).
    exact Hin.
  - destruct (convertible_row addr r) eqn:Hconv.
    + repeat split; assumption.
    + split; [exact Haddr|]. split; [|reflexivity].
      destruct (Z.eq_dec (expires_at r) PERMANENT_MAILBOX_SENTINEL)
        as [Heq|Hne]; [exact Heq|].
      assert (convertible_row addr r = true)
        by (apply convertible_row_iff; tauto).
      congruence.
Qed.

Lemma sweeps_unique (times : nat) :
  forall w : World,
    unique_addresses (mailboxes w) ->
    unique_addresses (mailboxes (snd (sweeps times w))).
Proof.
  induction times as [|times IH]; intros w Huniq; [exact Huniq|].
  destruct (cleanupExpiredMailboxes_run w) as (w1 & Hrun & Hrows).
  assert (Hstep : sweeps (S times) w = sweeps times w1).
  { simpl. unfold bind. now rewrite Hrun. }
  rewrite Hstep. apply IH. rewrite Hrows. now apply unique_filter.
Qed.

Lemma permanent_row_found (addr : JSString) (now : Z) (rows : list Row)
    (r : Row) :
  unique_addresses rows -> In r rows ->
  address r = addr -> expires_at r = PERMANENT_MAILBOX_SENTINEL ->
  find (live_row addr now) rows = Some r.
Proof.
  intros Huniq Hin Haddr Hperm. apply find_live_unique; auto.
  apply live_row_iff. tauto.
Qed.

(** X19: a mailbox of class name or custom that the creation handler has
    just returned, if still live when the conversion is asked, is answered
    by [PATCH .../convert-to-permanent] with a mailbox holding the
    sentinel; a [DELETE] after that is refused with 403, and the mailbox
    is found by [getMailbox], permanent, after any number of sweeps,
    whatever the clock reads by then. *)
Theorem created_then_converted_is_kept (request : CreateRequest)
    (ip : option JSString) (m : Mailbox) (sweepsRun : nat) (w : World) :
  unique_addresses (mailboxes w) ->
  fst (post_mailboxes request ip w)
  = Returned (json (SuccessMailbox None (Some m))) ->
  addressType m <> Random ->
  let a := mailbox_address m in
  let w1 := snd (post_mailboxes request ip w) in
  (clock w1 (clock_pos w1) < expiresAt m)%Z
  \/ expiresAt m = PERMANENT_MAILBOX_SENTINEL ->
  let w2 := snd (patch_convert_to_permanent a w1) in
  let w3 := snd (delete_mailbox a w2) in
  let w4 := snd (sweeps sweepsRun w3) in
  (exists msg m2,
     fst (patch_convert_to_permanent a w1)
     = Returned (json (SuccessMailbox (Some msg) (Some m2)))
     /\ mailbox_address m2 = a /\ mailbox_id m2 = mailbox_id m
     /\ expiresAt m2 = PERMANENT_MAILBOX_SENTINEL
     /\ isPermanent m2 = true)
  /\ fst (delete_mailbox a w2)
     = Returned (json_status
                   (Failure (Some Cannot_delete_permanent_mailbox)) 403)
  /\ exists m4,
       fst (getMailbox a w4) = Returned (Some m4)
       /\ mailbox_address m4 = a
       /\ expiresAt m4 = PERMANENT_MAILBOX_SENTINEL
       /\ isPermanent m4 = true.
Proof.
  intros Huniq Hsuccess Hclass a w1 Hlive w2 w3 w4.
  destruct (post_mailboxes_outcome request ip w)
    as [[(msg & Hfail) _]
       | (ty & a0 & w0 & Hty & Hperm & Hchoose & Hrows & Hs & Hfresh & Hout)].
  { rewrite Hfail in Hsuccess.
    now apply response_400_not_200 in Hsuccess. }
  cbv zeta in Hout. destruct Hout as (Hfst & Htable & _).
  rewrite Hfst in Hsuccess. unfold json in Hsuccess.
  injection Hsuccess as Hm. subst m.
  cbn [expiresAt addressType mailbox_address mailbox_id] in *.
  subst a. fold w1 in Htable.
  match type of Htable with
  | _ = _ ++ [?r] => set (row := r) in *
  end.
  assert (Hu1 : unique_addresses (mailboxes w1)).
  { rewrite Htable. apply (unique_insert row); [exact Huniq|].
    now apply fresh_existsb. }
  assert (Hin : In row (mailboxes w1)).
  { rewrite Htable. apply in_or_app. right. now left. }
  destruct (patch_convert_to_permanent_step a0 w1 Hu1)
    as (_ & _ & Halready & Hconvert).
  cbv zeta in Halready, Hconvert. fold w2 in Halready, Hconvert.
  assert (Hpatch :
            (exists msg m2,
               fst (patch_convert_to_permanent a0 w1)
               = Returned (json (SuccessMailbox (Some msg) (Some m2)))
               /\ mailbox_address m2 = a0
               /\ mailbox_id m2 = uuids w0 (uuid_pos w0)
               /\ expiresAt m2 = PERMANENT_MAILBOX_SENTINEL
               /\ isPermanent m2 = true)
            /\ unique_addresses (mailboxes w2)
            /\ exists r2, In r2 (mailboxes w2) /\ address r2 = a0
                          /\ expires_at r2 = PERMANENT_MAILBOX_SENTINEL).
  { destruct (Z.eq_dec (expires_at row) PERMANENT_MAILBOX_SENTINEL)
      as [Heq | Hne].
    - destruct (Halready row Hin eq_refl Hclass Heq) as [Hfst2 Htable2].
      split; [|split].
      + eexists. eexists. split; [exact Hfst2|].
        cbn [mailbox_of_row mailbox_address mailbox_id expiresAt
             isPermanent]. rewrite Heq. repeat split; reflexivity.
      + rewrite Htable2. now apply unique_touched.
      + rewrite Htable2.
        destruct (touched_keeps row (clock w1 (clock_pos w1)) (mailboxes w1)
                    row Hin) as (r2 & Hr2 & Ha2 & He2 & _).
        exists r2. rewrite He2, Ha2. auto.
    - assert (Hfuture : (clock w1 (clock_pos w1) < expires_at row)%Z).
      { destruct Hlive as [Hl | Hl]; [exact Hl | contradiction]. }
      destruct (Hconvert row Hin eq_refl Hclass Hfuture Hne)
        as [Hfst2 Htable2].
      split; [|split].
      + eexists. eexists. split; [exact Hfst2|]. repeat split; reflexivity.
      + rewrite Htable2.
        now apply unique_touched, unique_converted, unique_touched.
      + rewrite Htable2.
        destruct (touched_keeps row (clock w1 (clock_pos w1)) (mailboxes w1)
                    row Hin) as (r1 & Hr1 & Ha1 & _ & Ht1).
        destruct (converted_keeps a0 _ r1 Hr1 Ha1) as (r2 & Hr2 & Ha2 & He2
                                                       & _).
        { now rewrite Ht1. }
        match goal with
        | |- exists r, In r (touched ?x ?t ?rows) /\ _ =>
            destruct (touched_keeps x t rows r2 Hr2)
              as (r3 & Hr3 & Ha3 & He3 & _)
        end.
        exists r3. rewrite Ha3, He3. auto. }
  destruct Hpatch as (Hpatch & Hu2 & r2 & Hr2 & Ha2 & He2).
  split; [exact Hpatch|].
  pose proof (delete_mailbox_run a0 w2) as Hdel. cbv zeta in Hdel.
  rewrite (permanent_row_found a0 _ _ r2 Hu2 Hr2 Ha2 He2) in Hdel.
  rewrite (proj2 (isPermanentMailbox_iff _) He2) in Hdel.
  split; [now rewrite Hdel|].
  assert (Htable3 : mailboxes w3
                    = touched r2 (clock w2 (clock_pos w2)) (mailboxes w2)).
  { unfold w3. now rewrite Hdel. }
  destruct (touched_keeps r2 (clock w2 (clock_pos w2)) (mailboxes w2) r2 Hr2)
    as (r3 & Hr3 & Ha3 & He3 & _).
  rewrite <- Htable3 in Hr3. rewrite He2 in He3. rewrite Ha2 in Ha3.
  assert (Hu3 : unique_addresses (mailboxes w3)).
  { rewrite Htable3. now apply unique_touched. }
  destruct (sweeps_keep_permanent sweepsRun w3 r3 Hr3 He3) as [_ Hr4].
  fold w4 in Hr4.
  pose proof (sweeps_unique sweepsRun w3 Hu3) as Hu4. fold w4 in Hu4.
  rewrite (getMailbox_hit a0 w4 r3
             (permanent_row_found a0 _ _ r3 Hu4 Hr4 Ha3 He3)).
  eexists. split; [reflexivity|].
  cbn [mailbox_of_row mailbox_address expiresAt isPermanent].
  rewrite He3. split; [exact Ha3|]. split; reflexivity.
Qed.

(** X19 on the sample table at time 2000, all draws 0: "james.smith" is
    created for a day, converted, not deleted, and still found after
    three sweeps. *)
Lemma created_then_converted_is_kept_witness :
  let request := mkRequest (Some (js "name")) None None in
  let w1 := snd (post_mailboxes request None sample_early) in
  let w2 := snd (patch_convert_to_permanent (js "james.smith") w1) in
  fst (delete_mailbox (js "james.smith") w2)
  = Returned (json_status
                (Failure (Some Cannot_delete_permanent_mailbox)) 403).
Proof.
  intros request w1 w2.
  destruct (created_then_converted_is_kept request None
              (mkMailbox (js "uuid-0") (js "james.smith") Name 2001 88402
                         (js "unknown") 2001 false)
              3 sample_early sample_rows_unique)
    as (_ & Hdelete & _).
  - vm_compute. reflexivity.
  - cbn. discriminate.
  - left. vm_compute. reflexivity.
  - exact Hdelete.
Defined.

(** X20: a mailbox of class random that the creation handler has just
    returned was created without a wish for permanence, and
    [PATCH .../convert-to-permanent] never converts it: the answer is 403
    while it is live and 404 once it has expired, and no row's expiry
    changes. *)
Theorem created_random_is_never_converted (request : CreateRequest)
    (ip : option JSString) (m : Mailbox) (w : World) :
  unique_addresses (mailboxes w) ->
  fst (post_mailboxes request ip w)
  = Returned (json (SuccessMailbox None (Some m))) ->
  addressType m = Random ->
  let a := mailbox_address m in
  let w1 := snd (post_mailboxes request ip w) in
  let out := patch_convert_to_permanent a w1 in
  truthy_flag (body_isPermanent request) = false
  /\ ((clock w1 (clock_pos w1) < expiresAt m)%Z
      \/ expiresAt m = PERMANENT_MAILBOX_SENTINEL ->
      fst out
      = Returned
          (json_status
             (Failure (Some Random_mailboxes_cannot_be_converted_to_permanent))
             403))
  /\ ((expiresAt m <= clock w1 (clock_pos w1))%Z ->
      expiresAt m <> PERMANENT_MAILBOX_SENTINEL ->
      fst out = Returned (json_status (Failure (Some Mailbox_not_found)) 404))
  /\ map expires_at (mailboxes (snd out)) = map expires_at (mailboxes w1).
Proof.
  intros Huniq Hsuccess Hclass a w1 out.
  destruct (post_mailboxes_outcome request ip w)
    as [[(msg & Hfail) _]
       | (ty & a0 & w0 & Hty & Hperm & Hchoose & Hrows & Hs & Hfresh & Hout)].
  { rewrite Hfail in Hsuccess.
    now apply response_400_not_200 in Hsuccess. }
  cbv zeta in Hout. destruct Hout as (Hfst & Htable & _).
  rewrite Hfst in Hsuccess. unfold json in Hsuccess.
  injection Hsuccess as Hm. subst m.
  cbn [expiresAt addressType mailbox_address mailbox_id] in *.
  subst a ty. fold w1 in Htable.
  match type of Htable with
  | _ = _ ++ [?r] => set (row := r) in *
  end.
  assert (Hu1 : unique_addresses (mailboxes w1)).
  { rewrite Htable. apply (unique_insert row); [exact Huniq|].
    now apply fresh_existsb. }
  assert (Hin : In row (mailboxes w1)).
  { rewrite Htable. apply in_or_app. right. now left. }
  destruct (patch_convert_to_permanent_step a0 w1 Hu1)
    as (Hmissing & Hrandom & _).
  cbv zeta in Hmissing, Hrandom. fold out in Hmissing, Hrandom.
  split; [now rewrite andb_true_r in Hperm|].
  assert (Hdead_all :
            (expires_at row <= clock w1 (clock_pos w1))%Z ->
            expires_at row <> PERMANENT_MAILBOX_SENTINEL ->
            forall r, In r (mailboxes w1) -> address r = a0 ->
                      (expires_at r <= clock w1 (clock_pos w1))%Z
                      /\ expires_at r <> PERMANENT_MAILBOX_SENTINEL).
  { intros Hdead Htemp r Hr Ha.
    assert (r = row) by (apply (unique_addresses_eq (mailboxes w1)); auto).
    subst r. tauto. }
  split; [|split].
  - intros Hlive. exact (proj1 (Hrandom row Hin eq_refl Hlive eq_refl)).
  - intros Hdead Htemp. exact (proj1 (Hmissing (Hdead_all Hdead Htemp))).
  - destruct (Z_lt_le_dec (clock w1 (clock_pos w1)) (expires_at row))
      as [Hfuture | Hpast].
    + rewrite (proj2 (Hrandom row Hin eq_refl (or_introl Hfuture) eq_refl)).
      apply touched_expiries.
    + destruct (Z.eq_dec (expires_at row) PERMANENT_MAILBOX_SENTINEL)
        as [Heq | Hne].
      * rewrite (proj2 (Hrandom row Hin eq_refl (or_intror Heq) eq_refl)).
        apply touched_expiries.
      * now rewrite (proj2 (Hmissing (Hdead_all Hpast Hne))).
Qed.

(** X20 on the sample table at time 2000, all draws 0: the random mailbox
    "aaaaaaaa" is created and its conversion is refused. *)
Lemma created_random_is_never_converted_witness :
  let request := mkRequest None None None in
  let w1 := snd (post_mailboxes request None sample_early) in
  fst (patch_convert_to_permanent (js "aaaaaaaa") w1)
  = Returned
      (json_status
         (Failure (Some Random_mailboxes_cannot_be_converted_to_permanent))
         403).
Proof.
  intros request w1.
  destruct (created_random_is_never_converted request None
              (mkMailbox (js "uuid-0") (js "aaaaaaaa") Random 2001 88402
                         (js "unknown") 2001 false)
              sample_early sample_rows_unique)
    as (_ & Hlive & _).
  - vm_compute. reflexivity.
  - reflexivity.
  - apply Hlive. left. vm_compute. reflexivity.
Defined.

(** ** The sweeps of the emails table *)

Lemma id_in_temporary (i : JSString) (rows : list Row) :
  id_in i (map id (filter (fun r =>
                             negb (expires_at r
                                   =? PERMANENT_MAILBOX_SENTINEL)%Z) rows))
  = true
  <-> exists r, In r rows /\ id r = i
                /\ expires_at r <> PERMANENT_MAILBOX_SENTINEL.
Proof.
  unfold id_in. rewrite existsb_exists. split.
  - intros (x & Hx & Heq). apply in_map_iff in Hx.
    destruct Hx as (r & <- & Hr). apply filter_In in Hr.
    destruct Hr as [Hr Htemp]. apply negb_true_iff, Z.eqb_neq in Htemp.
    apply eqb_eq in Heq. exists r. auto.
  - intros (r & Hr & Hid & Htemp). exists (id r). split.
    + apply in_map, filter_In. split; [exact Hr|].
      now apply negb_true_iff, Z.eqb_neq.
    + apply eqb_eq. now symmetry.
Qed.

Lemma delete_emails_count (p : Email -> bool) (emails : list Email) :
  (fst (delete_emails p emails) + length (snd (delete_emails p emails))
   = length emails)%nat.
Proof.
  unfold delete_emails. cbn [fst snd].
  induction emails as [|e emails IH]; [reflexivity|].
  simpl. destruct (p e); simpl; lia.
Qed.

Lemma delete_emails_kept (p : Email -> bool) (emails : list Email)
    (e : Email) :
  In e (snd (delete_emails p emails)) <-> In e emails /\ p e = false.
Proof.
  unfold delete_emails. cbn [snd].
  rewrite filter_In, negb_true_iff. tauto.
Qed.

Lemma same_id_same_row (rows : list Row) (r r' : Row) :
  unique_ids rows -> In r rows -> In r' rows -> id r = id r' -> r = r'.
Proof.
  unfold unique_ids. induction rows as [|x rows IH]; [contradiction|].
  simpl. intros Hnd Hr Hr' Hid. inversion Hnd as [|? ? Hnotin Hnd']; subst.
  destruct Hr as [-> | Hr], Hr' as [-> | Hr'].
  - reflexivity.
  - exfalso. apply Hnotin. rewrite Hid. now apply in_map.
  - exfalso. apply Hnotin. rewrite <- Hid. now apply in_map.
  - now apply IH.
Qed.

(** X21: [cleanupExpiredMails] reads the clock once, leaves the mailboxes
    alone, and deletes exactly the emails received a day or more before
    whose mailbox is in the table without the sentinel; the number it
    returns is the number deleted.  So the mail of a permanent mailbox is
    kept however old it is, and so is mail whose mailbox is no longer in
    the table. *)
Theorem cleanupExpiredMails_exact (emails : list Email) (w : World) :
  let now := clock w (clock_pos w) in
  let doomed (e : Email) :=
    (received_at e <= now - 24 * 60 * 60)%Z
    /\ exists r, In r (mailboxes w) /\ id r = email_mailbox_id e
                 /\ expires_at r <> PERMANENT_MAILBOX_SENTINEL in
  exists n kept,
    cleanupExpiredMails emails w = (Returned (n, kept), advance_clock w)
    /\ (forall e, In e kept <-> In e emails /\ ~ doomed e)
    /\ (n + length kept = length emails)%nat
    /\ (forall e r,
          unique_ids (mailboxes w) -> In e emails -> In r (mailboxes w) ->
          id r = email_mailbox_id e ->
          expires_at r = PERMANENT_MAILBOX_SENTINEL -> In e kept)
    /\ (forall e,
          In e emails ->
          (forall r, In r (mailboxes w) -> id r <> email_mailbox_id e) ->
          In e kept).
Proof.
  intros now doomed.
  set (p := fun e : Email =>
              (received_at e <=? now - 24 * 60 * 60)%Z
              && id_in (email_mailbox_id e)
                   (map id (filter
                              (fun r =>
                                 negb (expires_at r
                                       =? PERMANENT_MAILBOX_SENTINEL)%Z)
                              (mailboxes w)))).
  assert (Hp : forall e, p e = true <-> doomed e).
  { intros e. unfold p, doomed.
    now rewrite andb_true_iff, Z.leb_le, id_in_temporary. }
  assert (Hkept : forall e, In e (snd (delete_emails p emails))
                            <-> In e emails /\ ~ doomed e).
  { intros e. rewrite delete_emails_kept, <- Hp.
    destruct (p e); intuition congruence. }
  exists (fst (delete_emails p emails)), (snd (delete_emails p emails)).
  split; [reflexivity|]. split; [exact Hkept|].
  split; [apply delete_emails_count|]. split.
  - intros e r Huniq He Hr Hid Hperm. apply Hkept. split; [exact He|].
    intros (_ & r' & Hr' & Hid' & Htemp).
    assert (r = r')
      by (apply (same_id_same_row (mailboxes w)); auto; congruence).
    subst r'. contradiction.
  - intros e He Horphan. apply Hkept. split; [exact He|].
    intros (_ & r & Hr & Hid & _). exact (Horphan r Hr Hid).
Qed.

(** X22: [cleanupReadMails] reads no clock, changes nothing but the
    emails, and deletes exactly the emails marked read ([is_read = 1])
    whose mailbox is in the table without the sentinel, whatever their
    age; read mail of a permanent mailbox is kept. *)
Theorem cleanupReadMails_exact (emails : list Email) (w : World) :
  let doomed (e : Email) :=
    is_read e = 1%Z
    /\ exists r, In r (mailboxes w) /\ id r = email_mailbox_id e
                 /\ expires_at r <> PERMANENT_MAILBOX_SENTINEL in
  exists n kept,
    cleanupReadMails emails w = (Returned (n, kept), w)
    /\ (forall e, In e kept <-> In e emails /\ ~ doomed e)
    /\ (n + length kept = length emails)%nat
    /\ (forall e r,
          unique_ids (mailboxes w) -> In e emails -> In r (mailboxes w) ->
          id r = email_mailbox_id e ->
          expires_at r = PERMANENT_MAILBOX_SENTINEL -> In e kept).
Proof.
  intros doomed.
  set (p := fun e : Email =>
              (is_read e =? 1)%Z
              && id_in (email_mailbox_id e)
                   (map id (filter
                              (fun r =>
                                 negb (expires_at r
                                       =? PERMANENT_MAILBOX_SENTINEL)%Z)
                              (mailboxes w)))).
  assert (Hp : forall e, p e = true <-> doomed e).
  { intros e. unfold p, doomed.
    now rewrite andb_true_iff, Z.eqb_eq, id_in_temporary. }
  assert (Hkept : forall e, In e (snd (delete_emails p emails))
                            <-> In e emails /\ ~ doomed e).
  { intros e. rewrite delete_emails_kept, <- Hp.
    destruct (p e); intuition congruence. }
  exists (fst (delete_emails p emails)), (snd (delete_emails p emails)).
  split; [reflexivity|]. split; [exact Hkept|].
  split; [apply delete_emails_count|].
  intros e r Huniq He Hr Hid Hperm. apply Hkept. split; [exact He|].
  intros (_ & r' & Hr' & Hid' & Htemp).
  assert (r = r')
    by (apply (same_id_same_row (mailboxes w)); auto; congruence).
  subst r'. contradiction.
Qed.

(** ** The configured domains *)

Lemma split_no_sep (sep : CodeUnit) (s : JSString) :
  forall piece, In piece (split sep s) -> ~ In sep piece.
Proof.
  induction s as [|c s IH]; simpl.
  - intros piece [<- | []] [].
  - destruct (N.eqb_spec c sep) as [-> | Hne].
    + intros piece [<- | Hin]; [intros [] | now apply IH].
    + destruct (split sep s) as [|first pieces].
      * intros piece [<- | []] [Heq | []]. congruence.
      * intros piece [<- | Hin].
        -- intros [Heq | Hin]; [congruence|].
           exact (IH first (or_introl eq_refl) Hin).
        -- apply IH. now right.
Qed.

Lemma trimStart_head (s : JSString) (c : CodeUnit) (t : JSString) :
  trimStart s = c :: t -> isWhiteSpace c = false.
Proof.
  induction s as [|x s IH]; simpl; [discriminate|].
  destruct (isWhiteSpace x) eqn:Hx; [exact IH|].
  intros H. inversion H. now subst.
Qed.

Lemma trimStart_suffix (s : JSString) : exists ws, s = ws ++ trimStart s.
Proof.
  induction s as [|x s (ws & IH)]; simpl; [now exists []|].
  destruct (isWhiteSpace x); [|now exists []].
  exists (x :: ws). simpl. now f_equal.
Qed.

Lemma trimStart_fixed (s : JSString) :
  (forall c t, s = c :: t -> isWhiteSpace c = false) -> trimStart s = s.
Proof.
  destruct s as [|x s]; [reflexivity|]. intros H. simpl.
  now rewrite (H x s eq_refl).
Qed.

Lemma trim_shape (s : JSString) :
  (forall c t, trim s = c :: t -> isWhiteSpace c = false)
  /\ (forall c front, trim s = front ++ [c] -> isWhiteSpace c = false)
  /\ (forall c, In c (trim s) -> In c s).
Proof.
  unfold trim, trimEnd.
  set (x := trimStart s). set (y := trimStart (rev x)).
  destruct (trimStart_suffix (rev x)) as (ws & Hws). fold y in Hws.
  split; [|split].
  - intros c t Hd.
    assert (Hy : y = rev t ++ [c]).
    { rewrite <- (rev_involutive y), Hd. reflexivity. }
    assert (Hx : x = c :: rev (ws ++ rev t)).
    { rewrite <- (rev_involutive x), Hws, Hy, app_assoc, rev_app_distr.
      reflexivity. }
    exact (trimStart_head s c _ Hx).
  - intros c front Hd.
    assert (Hy : y = c :: rev front).
    { rewrite <- (rev_involutive y), Hd, rev_app_distr. reflexivity. }
    exact (trimStart_head (rev x) c _ Hy).
  - intros c Hc. apply in_rev in Hc.
    assert (Hin : In c (rev x)).
    { rewrite Hws. apply in_or_app. now right. }
    apply in_rev in Hin. destruct (trimStart_suffix s) as (ws' & Hs).
    rewrite Hs. apply in_or_app. now right.
Qed.

Lemma trim_fixed (d : JSString) :
  (forall c t, d = c :: t -> isWhiteSpace c = false) ->
  (forall c front, d = front ++ [c] -> isWhiteSpace c = false) ->
  trim d = d.
Proof.
  intros Hhead Hlast. unfold trim, trimEnd.
  rewrite (trimStart_fixed d Hhead), trimStart_fixed.
  - apply rev_involutive.
  - intros c t Hrev. apply (Hlast c (rev t)).
    rewrite <- (rev_involutive d), Hrev. reflexivity.
Qed.

(** X23: the [emailDomains] of [GET /api/config] are exactly the
    non-empty trimmed pieces of [VITE_EMAIL_DOMAIN] between its commas,
    in order: each is non-empty, holds no comma, neither starts nor ends
    with white space (trimming it again changes nothing), and is made of
    code units of the variable; an unset or empty variable gives no
    domain. *)
Theorem config_emailDomains_clean (VITE_EMAIL_DOMAIN : option JSString) :
  let pieces := split COMMA (or_else VITE_EMAIL_DOMAIN []) in
  config_emailDomains VITE_EMAIL_DOMAIN
  = filter (fun d => negb (JS.eqb d [])) (map trim pieces)
  /\ (forall d,
        In d (config_emailDomains VITE_EMAIL_DOMAIN) ->
        d <> [] /\ ~ In COMMA d /\ trim d = d
        /\ (forall c t, d = c :: t -> isWhiteSpace c = false)
        /\ (forall c front, d = front ++ [c] -> isWhiteSpace c = false)
        /\ (forall c, In c d -> In c (or_else VITE_EMAIL_DOMAIN [])))
  /\ config_emailDomains None = []
  /\ config_emailDomains (Some []) = [].
Proof.
  intros pieces.
  assert (Hfilter :
            config_emailDomains VITE_EMAIL_DOMAIN
            = filter (fun d => negb (JS.eqb d [])) (map trim pieces)).
  { unfold config_emailDomains. cbv zeta. fold pieces.
    apply filter_ext. intros [|c d]; reflexivity. }
  split; [exact Hfilter|]. split; [|split; reflexivity].
  intros d Hd. rewrite Hfilter in Hd. apply filter_In in Hd.
  destruct Hd as [Hd Hne]. apply in_map_iff in Hd.
  destruct Hd as (piece & <- & Hpiece).
  destruct (trim_shape piece) as (Hhead & Hlast & Hsub).
  split; [|split; [|split; [|split; [|split]]]].
  - intros Heq. rewrite Heq in Hne. discriminate.
  - intros Hcomma. exact (split_no_sep COMMA _ piece Hpiece (Hsub _ Hcomma)).
  - now apply trim_fixed.
  - exact Hhead.
  - exact Hlast.
  - intros c Hc. apply Hsub in Hc. revert Hc Hpiece. unfold pieces.
    generalize (or_else VITE_EMAIL_DOMAIN []). clear.
    intros s. revert piece. induction s as [|x s IH]; simpl.
    + intros piece Hc [<- | []]. destruct Hc.
    + intros piece Hc. destruct (N.eqb x COMMA).
      * intros [<- | Hin]; [destruct Hc|]. right. now apply (IH piece).
      * destruct (split COMMA s) as [|first rest].
        -- intros [<- | []]. destruct Hc as [<- | []]. now left.
        -- intros [<- | Hin].
           ++ destruct Hc as [<- | Hc]; [now left|].
              right. apply (IH first Hc). now left.
           ++ right. apply (IH piece Hc). now right.
Qed.

(** ** The preview generators of the frontend *)

Lemma printed_unitAt (s : JSString) (i : nat) :
  (i < length s)%nat -> printed (unitAt s i) = charAt s i.
Proof.
  intros Hi. unfold printed, unitAt, charAt.
  destruct (nth_error s i) eqn:Hnth; [reflexivity|].
  apply nth_error_None in Hnth. lia.
Qed.

Lemma localRandomAddress_loop_agrees (remaining : nat) :
  forall (address : JSString) (w : World),
    localRandomAddress_loop remaining address w
    = randomAddress_loop remaining address w.
Proof.
  induction remaining as [|remaining IH]; intros address w; [reflexivity|].
  destruct (Math_random_run w) as (r & Hrun & Hr).
  change (localRandomAddress_loop (S remaining) address w)
    with (bind Math_random
            (fun r' => localRandomAddress_loop remaining
               (address
                ++ printed (unitAt alphanumeric
                              (floor_times r' (length alphanumeric))))) w).
  change (randomAddress_loop (S remaining) address w)
    with (bind Math_random
            (fun r' => randomAddress_loop remaining
               (address ++ charAt alphanumeric
                             (floor_times r' (length alphanumeric)))) w).
  rewrite !(bind_run _ _ _ _ _ Hrun), printed_unitAt.
  - apply IH.
  - apply floor_times_lt; [exact Hr | vm_compute; lia].
Qed.

(** X24: on the same draws of [Math.random], the preview generator of the
    frontend, which indexes its alphabets with [s[i]], returns the very
    address [generateRandomAddress] of the worker returns: no index is
    ever out of range, so "undefined" is never appended. *)
Theorem generateLocalRandomAddress_agrees (w : World) :
  generateLocalRandomAddress w = generateRandomAddress w.
Proof.
  destruct (Math_random_run w) as (r0 & Hrun0 & Hr0).
  destruct (Math_random_run (advance_random w)) as (r1 & Hrun1 & Hr1).
  unfold generateLocalRandomAddress, generateRandomAddress.
  rewrite !(bind_run _ _ _ _ _ Hrun0), !(bind_run _ _ _ _ _ Hrun1).
  rewrite printed_unitAt.
  - apply localRandomAddress_loop_agrees.
  - apply floor_times_lt; [exact Hr1 | vm_compute; lia].
Qed.

Lemma localFirstNames_ok (f : JSString) :
  In f localFirstNames ->
  forallb is_lower f = true /\ (3 <= length f <= 9)%nat.
Proof.
  assert (H : forallb (fun n => forallb is_lower n
                                && (3 <=? length n)%nat
                                && (length n <=? 9)%nat) localFirstNames
              = true)
    by (vm_compute; reflexivity).
  rewrite forallb_forall in H. intros Hin. specialize (H f Hin).
  rewrite !andb_true_iff, !Nat.leb_le in H. tauto.
Qed.

Lemma localLastNames_ok (l : JSString) :
  In l localLastNames ->
  forallb is_lower l = true /\ (5 <= length l <= 9)%nat
  /\ In l lastNames.
Proof.
  assert (H : forallb (fun n => forallb is_lower n
                                && (5 <=? length n)%nat
                                && (length n <=? 9)%nat
                                && existsb (JS.eqb n) lastNames)
                      localLastNames
              = true)
    by (vm_compute; reflexivity).
  rewrite forallb_forall in H. intros Hin. specialize (H l Hin).
  rewrite !andb_true_iff, !Nat.leb_le, existsb_exists in H.
  destruct H as [[[Hlow H5] H9] (x & Hx & Heq)].
  apply eqb_eq in Heq. subst x. tauto.
Qed.

Lemma Number_toString_three (n : nat) :
  (100 <= n <= 999)%nat ->
  exists a b c,
    Number_toString n = [a; b; c]
    /\ is_digit a = true /\ is_digit b = true /\ is_digit c = true.
Proof.
  assert (H : forallb (fun k => match Number_toString k with
                                | [a; b; c] =>
                                    is_digit a && is_digit b && is_digit c
                                | _ => false
                                end) (seq 100 900) = true)
    by (vm_compute; reflexivity).
  rewrite forallb_forall in H. intros Hn.
  specialize (H n ltac:(apply in_seq; lia)).
  destruct (Number_toString n) as [|a [|b [|c [|d s]]]]; try discriminate.
  rewrite !andb_true_iff in H. exists a, b, c. tauto.
Qed.

Lemma bind_ret_l {A B : Type} (x : A) (k : A -> M B) (w : World) :
  bind (ret x) k w = k x w.
Proof. reflexivity. Qed.

Lemma threeDigits_run (w : World) :
  exists n, threeDigits w = (Returned n, advance_random w)
            /\ (100 <= n <= 999)%nat.
Proof.
  destruct (Math_random_run w) as (r & Hrun & Hr).
  exists (floor_times r 900 + 100)%nat. split.
  - unfold threeDigits. now rewrite (bind_run _ _ _ _ _ Hrun).
  - pose proof (floor_times_lt r 900 Hr ltac:(lia)). lia.
Qed.

Lemma generateLocalNameAddress_run (w : World) :
  exists first last sep digits w',
    generateLocalNameAddress w
    = (Returned (first ++ sep ++ last ++ digits), w')
    /\ In first localFirstNames /\ In last localLastNames
    /\ (sep = [] \/ sep = [DOT] \/ sep = [UNDERSCORE])
    /\ forallb is_digit digits = true
    /\ (digits = [] \/ (sep = [] /\ (2 <= length digits <= 3)%nat))
    /\ (length (first ++ sep ++ last ++ digits) <= 20)%nat
    /\ mailboxes w' = mailboxes w.
Proof.
  unfold generateLocalNameAddress.
  destruct (pick_run localFirstNames w ltac:(vm_compute; lia))
    as (f & Hpickf & Hinf).
  destruct (pick_run localLastNames (advance_random w)
              ltac:(vm_compute; lia)) as (l & Hpickl & Hinl).
  destruct (pick_run formats (advance_random (advance_random w))
              ltac:(vm_compute; lia)) as (format & Hpickfmt & _).
  destruct (localFirstNames_ok f Hinf) as [_ Hflen].
  destruct (localLastNames_ok l Hinl) as (_ & Hllen & _).
  rewrite (bind_run _ _ _ _ _ Hpickf), (bind_run _ _ _ _ _ Hpickl),
    (bind_run _ _ _ _ _ Hpickfmt).
  cbn [printed].
  set (w3 := advance_random (advance_random (advance_random w))).
  destruct format.
  - exists f, l, [DOT], [], w3. rewrite bind_ret_l, app_nil_r.
    destruct (Nat.ltb_spec (length (f ++ [DOT] ++ l)) 6) as [Hshort|_];
      [rewrite !length_app in Hshort; simpl in Hshort; lia|].
    destruct (Nat.ltb_spec 20 (length (f ++ [DOT] ++ l))) as [Hlong|Hok];
      [rewrite !length_app in Hlong; simpl in Hlong; lia|].
    repeat split; auto.
  - exists f, l, [UNDERSCORE], [], w3. rewrite bind_ret_l, app_nil_r.
    destruct (Nat.ltb_spec (length (f ++ [UNDERSCORE] ++ l)) 6)
      as [Hshort|_];
      [rewrite !length_app in Hshort; simpl in Hshort; lia|].
    destruct (Nat.ltb_spec 20 (length (f ++ [UNDERSCORE] ++ l)))
      as [Hlong|Hok];
      [rewrite !length_app in Hlong; simpl in Hlong; lia|].
    repeat split; auto.
  - exists f, l, [], [], w3. rewrite bind_ret_l, app_nil_r.
    change ([] ++ l) with l.
    destruct (Nat.ltb_spec (length (f ++ l)) 6) as [Hshort|_];
      [rewrite !length_app in Hshort; lia|].
    destruct (Nat.ltb_spec 20 (length (f ++ l))) as [Hlong|Hok];
      [rewrite !length_app in Hlong; lia|].
    repeat split; auto.
  - destruct (threeDigits_run w3) as (n & Hn & Hrange).
    destruct (Math_random_run (advance_random w3)) as (r & Hr & _).
    destruct (Number_toString_three n Hrange)
      as (a & b & c & Hprint & Ha & Hb & Hc).
    set (digits := slice0 (Number_toString n)
                          (if below_half r then 2 else 3)).
    assert (Hdigits : forallb is_digit digits = true
                      /\ (2 <= length digits <= 3)%nat).
    { unfold digits. rewrite Hprint. unfold slice0.
      destruct (below_half r); simpl; rewrite Ha, Hb, ?Hc; split;
        try reflexivity; lia. }
    destruct Hdigits as [Hdig Hdlen].
    match goal with
    | |- context [bind ?sw _ w3] =>
        assert (Hsw : sw w3
                      = (Returned (f ++ l ++ digits),
                         advance_random (advance_random w3)))
    end.
    { rewrite (bind_run _ _ _ _ _ Hn), (bind_run _ _ _ _ _ Hr).
      reflexivity. }
    rewrite (bind_run _ _ _ _ _ Hsw).
    destruct (Nat.ltb_spec (length (f ++ l ++ digits)) 6) as [Hshort|_];
      [rewrite !length_app in Hshort; lia|].
    destruct (Nat.ltb_spec 20 (length (f ++ l ++ digits))) as [Hlong|Hok].
    + exists f, l, [], [], (advance_random (advance_random w3)).
      rewrite app_nil_r. change ([] ++ l) with l.
      unfold slice0. rewrite firstn_all2 by (rewrite length_app; lia).
      repeat split; auto. rewrite length_app. lia.
    + exists f, l, [], digits, (advance_random (advance_random w3)).
      change ([] ++ l ++ digits) with (l ++ digits).
      repeat split; auto.
Qed.

(** X25: whatever [Math.random] answers, the preview generator of name
    addresses returns a first name of its list followed by nothing, a dot
    or an underscore, a last name of its list (every one of which is in
    the worker's pool) and, only without separator, 2 or 3 decimal
    digits; the address has 8 to 20 code units, passes
    [validateCustomAddress] and is in lower case.  The branch for
    addresses shorter than 6 never runs. *)
Theorem generateLocalNameAddress_shape (w : World) :
  exists first last sep digits w',
    generateLocalNameAddress w
    = (Returned (first ++ sep ++ last ++ digits), w')
    /\ In first localFirstNames
    /\ In last localLastNames /\ In last lastNames
    /\ (sep = [] \/ sep = [DOT] \/ sep = [UNDERSCORE])
    /\ (forall c, In c digits -> (48 <= c <= 57)%N)
    /\ (digits = [] \/ (sep = [] /\ (2 <= length digits <= 3)%nat))
    /\ (8 <= length (first ++ sep ++ last ++ digits) <= 20)%nat
    /\ stored_address (first ++ sep ++ last ++ digits).
Proof.
  destruct (generateLocalNameAddress_run w)
    as (f & l & sep & digits & w' & Hrun & Hf & Hl & Hsep & Hdig & Hshape
        & Hmax & _).
  destruct (localFirstNames_ok f Hf) as [Hflow Hflen].
  destruct (localLastNames_ok l Hl) as (Hllow & Hllen & Hpool).
  exists f, l, sep, digits, w'.
  assert (Hmin : (8 <= length (f ++ sep ++ l ++ digits))%nat).
  { rewrite !length_app. lia. }
  split; [exact Hrun|]. split; [exact Hf|]. split; [exact Hl|].
  split; [exact Hpool|]. split; [exact Hsep|].
  split; [|split; [exact Hshape|split; [lia|]]].
  - intros c Hc. rewrite forallb_forall in Hdig. specialize (Hdig c Hc).
    unfold is_digit in Hdig. apply andb_true_iff in Hdig.
    rewrite !N.leb_le in Hdig. exact Hdig.
  - apply stored_address_chars; [lia|].
    intros c Hc. apply name_char_stored. unfold name_char.
    rewrite forallb_forall in Hflow, Hllow, Hdig.
    apply in_app_or in Hc. destruct Hc as [Hc | Hc].
    { now rewrite (Hflow c Hc). }
    apply in_app_or in Hc. destruct Hc as [Hc | Hc].
    { destruct Hsep as [-> | [-> | ->]]; [destruct Hc | |];
        destruct Hc as [<- | []]; reflexivity. }
    apply in_app_or in Hc. destruct Hc as [Hc | Hc].
    { now rewrite (Hllow c Hc). }
    rewrite (Hdig c Hc). now rewrite orb_true_r.
Qed.

Lemma generateNameAddress_first_turn (w w' : World) (a : JSString) :
  nameAddress_attempt w = (Returned (Some a), w') ->
  generateNameAddress w = (Returned a, w').
Proof.
  intros Hrun. unfold generateNameAddress, maxAttempts.
  assert (Hloop : nameAddress_loop 50 w = (Returned (Some a), w')).
  { change (nameAddress_loop 50 w)
      with (bind nameAddress_attempt
              (fun found => match found with
                            | Some a0 => ret (Some a0)
                            | None => nameAddress_loop 49
                            end) w).
    now rewrite (bind_run _ _ _ _ _ Hrun). }
  now rewrite (bind_run _ _ _ _ _ Hloop).
Qed.

Lemma firstn_prefix (f rest : JSString) : firstn (length f) (f ++ rest) = f.
Proof.
  rewrite <- (Nat.add_0_r (length f)), firstn_app_2, firstn_O.
  apply app_nil_r.
Qed.

(** X26: the preview is not drawn from the worker's pool: its list holds
    first names the pool of the worker lacks ("olivia" among them), so
    for some draws it shows an address that [generateNameAddress] returns
    for no draws at all. *)
Theorem preview_outside_the_pool :
  exists (w : World) (a : JSString),
    fst (generateLocalNameAddress w) = Returned a
    /\ forall w' : World, fst (generateNameAddress w') <> Returned a.
Proof.
  exists (mkWorld [] (fun _ => 6265877742428517%N) 0 (fun _ => 0%Z) 0
                  sample_uuid 0), (js "oliviamartinez").
  split; [vm_compute; reflexivity|].
  intros w' Hsame.
  destruct (nameAddress_attempt_shape w')
    as (f & l & sep & digits & w2 & Hrun & Hf & _).
  rewrite (generateNameAddress_first_turn _ _ _ Hrun) in Hsame.
  cbn [fst] in Hsame. injection Hsame as Heq.
  assert (Hnone : forallb (fun n => negb (JS.eqb (firstn (length n)
                                                   (js "oliviamartinez")) n))
                          firstNames = true)
    by (vm_compute; reflexivity).
  rewrite forallb_forall in Hnone. specialize (Hnone f Hf).
  rewrite <- Heq, firstn_prefix, eqb_refl in Hnone. discriminate.
Qed.

(** ** The lookup handler *)

(** X27: [GET /api/mailboxes/:address] answers 404 exactly when no row of
    the address is live at the time of the request (none at all, or only
    one that expired without the sentinel and awaits the sweep), and
    otherwise 200 with the mailbox of a live row of that address read at
    that time; with a store whose statements raise nothing the 500 of
    the [catch] is never answered, and every row is left as it was up to
    [last_accessed]. *)
Theorem get_mailbox_answers (addr : JSString) (w : World) :
  let now := clock w (clock_pos w) in
  let out := get_mailbox addr w in
  (fst out = Returned Lookup_404
   \/ exists row, In row (mailboxes w) /\ address row = addr
                  /\ ((now < expires_at row)%Z
                      \/ expires_at row = PERMANENT_MAILBOX_SENTINEL)
                  /\ fst out = Returned (Lookup_200 (mailbox_of_row row now)))
  /\ (fst out = Returned Lookup_404
      <-> forall r, In r (mailboxes w) -> address r = addr ->
                    (expires_at r <= now)%Z
                    /\ expires_at r <> PERMANENT_MAILBOX_SENTINEL)
  /\ same_but_last_accessed (mailboxes w) (mailboxes (snd out)).
Proof.
  intros now out. subst out.
  destruct (find (live_row addr now) (mailboxes w)) as [row|] eqn:Hfind.
  - assert (Hrun : get_mailbox addr w
                   = (Returned (Lookup_200 (mailbox_of_row row now)),
                      set_mailboxes (touched row now (mailboxes w))
                                    (advance_clock w))).
    { unfold get_mailbox, try_catch.
      now rewrite (bind_run _ _ _ _ _ (getMailbox_hit addr w row Hfind)). }
    rewrite Hrun. cbn [fst snd mailboxes set_mailboxes].
    apply find_some in Hfind. destruct Hfind as [Hin Hlive].
    apply live_row_iff in Hlive. destruct Hlive as [Haddr Hlive].
    split; [|split].
    + right. exists row. auto.
    + split; [discriminate|]. intros Hdead.
      destruct (Hdead row Hin Haddr). lia.
    + apply touched_same.
  - assert (Hrun : get_mailbox addr w
                   = (Returned Lookup_404, advance_clock w)).
    { unfold get_mailbox, try_catch.
      now rewrite (bind_run _ _ _ _ _ (getMailbox_miss addr w Hfind)). }
    rewrite Hrun. cbn [fst snd].
    split; [now left|]. split; [|reflexivity].
    split; [|reflexivity]. intros _ r Hr Haddr.
    pose proof (find_none _ _ Hfind r Hr) as Hdead.
    destruct (Z_lt_le_dec now (expires_at r)) as [Hfuture | Hpast].
    + assert (live_row addr now r = true)
        by (apply live_row_iff; tauto).
      congruence.
    + split; [exact Hpast|]. intros Hperm.
      assert (live_row addr now r = true)
        by (apply live_row_iff; tauto).
      congruence.
Qed.
